(** * ImageLoader: progress aggregation over asynchronous image loads

    A shallow embedding of [src/imageLoader.js] (class [ImageLoader]) and
    the properties of its counter, callback and cache bookkeeping.

    Layout of the development:
    - [Number]: the JavaScript Number arithmetic the loader uses
      ([/], [*], [Math.round], [Math.floor]) as IEEE-754 binary64
      round-to-nearest-even over exact rationals;
    - [JsObject]: the plain object [{}] used as the image cache, with its
      own properties, its prototype and [Object.keys], and what a write
      meets once the prototype is an image element ([Browser]);
    - the loader state, its methods and the browser events, as a labelled
      transition system in which a handler returns or throws;
    - invariants of runs and the theorems about them. *)

From Stdlib Require Import ZArith QArith Qround Qpower Qreduction Qabs.
From Stdlib Require Import Lia Lqa List String Ascii Bool Arith PeanoNat.
Import ListNotations.

Set Implicit Arguments.

(* ================================================================== *)
(** * JavaScript Numbers *)
(* ================================================================== *)

Module Number.

Local Open Scope Q_scope.

(** A Number is an IEEE-754 binary64 value.  A finite one is kept as the
    rational it denotes; every arithmetic operation returns the exact
    result rounded to the nearest representable value, ties to even.
    Signed zero is not distinguished (the loader never divides by a
    computed zero). *)
Inductive number : Type :=
| Num (q : Q)
| PosInfinity
| NegInfinity
| NaN.

Definition pow2 (e : Z) : Q := (2 # 1) ^ e.

(** [binade x] is [floor (log2 x)] for [x > 0]. *)
Definition binade (x : Q) : Z :=
  let l := (Z.log2 (Qnum x) - Z.log2 (Zpos (Qden x)))%Z in
  if Qle_bool (pow2 l) x then l else (l - 1)%Z.

(** binary64: 53 significant bits, smallest normal exponent -1022
    (below it the spacing stays [2^-1074]), overflow from [2^1024]. *)
Definition prec : Z := 53.
Definition emin : Z := -1022.
Definition emax : Z := 1024.

Definition ulp (x : Q) : Q := pow2 (Z.max (binade x) emin - (prec - 1)).

Definition round_ties_even (y : Q) : Z :=
  let f := Qfloor y in
  match Qcompare (y - inject_Z f) (1 # 2) with
  | Lt => f
  | Gt => (f + 1)%Z
  | Eq => if Z.even f then f else (f + 1)%Z
  end.

(** Rounding of a positive rational with unbounded exponent range. *)
Definition rn_pos (x : Q) : Q :=
  inject_Z (round_ties_even (x / ulp x)) * ulp x.

Definition rn (x : Q) : Q :=
  let x := Qred x in
  Qred (match Qcompare 0 x with
        | Lt => rn_pos x
        | Eq => 0
        | Gt => - rn_pos (- x)
        end).

(** The Number nearest to the exact result [x]; a result that rounds to
    [2^1024] or beyond overflows to an infinity. *)
Definition of_exact (x : Q) : number :=
  let r := rn x in
  if Qle_bool (pow2 emax) r then PosInfinity
  else if Qle_bool r (- pow2 emax) then NegInfinity
  else Num r.

(** [n] as a Number.  The loader's counters and lengths count array
    entries: they stay below [2^32], where a Number is the integer
    itself. *)
Definition of_nat (n : nat) : number := Num (inject_Z (Z.of_nat n)).

Definition is_zero (x : Q) : bool := Qeq_bool x 0.
Definition is_neg (x : Q) : bool := negb (Qle_bool 0 x).

Definition flip (a : number) : number :=
  match a with
  | Num q => Num (Qred (- q))
  | PosInfinity => NegInfinity
  | NegInfinity => PosInfinity
  | NaN => NaN
  end.

(** [a / b] *)
Definition div (a b : number) : number :=
  match a, b with
  | NaN, _ | _, NaN => NaN
  | Num x, Num y =>
      if is_zero y then
        if is_zero x then NaN
        else if is_neg x then NegInfinity else PosInfinity
      else of_exact (x / y)
  | Num _, (PosInfinity | NegInfinity) => Num 0
  | (PosInfinity | NegInfinity), (PosInfinity | NegInfinity) => NaN
  | PosInfinity, Num y => if is_neg y then NegInfinity else PosInfinity
  | NegInfinity, Num y => if is_neg y then PosInfinity else NegInfinity
  end.

(** An infinity [i] times the finite [x]. *)
Definition inf_times (i : number) (x : Q) : number :=
  if is_zero x then NaN else if is_neg x then flip i else i.

(** [a * b] *)
Definition mul (a b : number) : number :=
  match a, b with
  | NaN, _ | _, NaN => NaN
  | Num x, Num y => of_exact (x * y)
  | Num x, i | i, Num x => inf_times i x
  | PosInfinity, PosInfinity | NegInfinity, NegInfinity => PosInfinity
  | PosInfinity, NegInfinity | NegInfinity, PosInfinity => NegInfinity
  end.

(** [Math.round]: the nearest integer, a tie going towards +infinity. *)
Definition Math_round (a : number) : number :=
  match a with
  | Num x => Num (inject_Z (Qfloor (x + (1 # 2))))
  | _ => a
  end.

(** [Math.floor] *)
Definition Math_floor (a : number) : number :=
  match a with
  | Num x => Num (inject_Z (Qfloor x))
  | _ => a
  end.

(** The integer literal [z]. *)
Definition lit (z : Z) : number := Num (inject_Z z).

(** [a <= b] on Numbers ([NaN] compares false with everything). *)
Definition le (a b : number) : Prop :=
  match a, b with
  | NaN, _ | _, NaN => False
  | NegInfinity, _ | _, PosInfinity => True
  | Num x, Num y => x <= y
  | _, _ => False
  end.

Definition nonneg (a : number) : Prop := le (lit 0) a.

(** A finite Number is representable when rounding leaves it alone. *)
Definition representable (x : Q) : Prop := rn x == x.

(** A Number used as an array index: a non-negative integer. *)
Definition as_index (a : number) : option nat :=
  match a with
  | Num q =>
      if (Qden q =? 1)%positive && (0 <=? Qnum q)%Z
      then Some (Z.to_nat (Qnum q)) else None
  | _ => None
  end.

End Number.

Import Number.

Local Open Scope string_scope.
Local Open Scope list_scope.
Local Open Scope nat_scope.

(* ================================================================== *)
(** * Plain objects used as maps *)
(* ================================================================== *)

Module JsObject.

(** An [Image] element is known by its handle: the elements are
    numbered in the order [new Image()] creates them. *)
Definition handle : Type := nat.

(** What a plain object inherits from.  [{}] starts with
    [Object.prototype]; the assignment [o["__proto__"] = img] reaches the
    [__proto__] setter inherited from [Object.prototype] and makes the
    element [img] the prototype instead. *)
Inductive prototype : Type :=
| ObjectPrototype
| ElementPrototype (h : handle).

(** Own properties in creation order (the values stored by the loader
    are image elements), and the prototype. *)
Record object : Type := {
  own : list (string * handle);
  proto : prototype
}.

(** [{}] *)
Definition empty : object := {| own := []; proto := ObjectPrototype |}.

(** The values the loader's queries can produce. *)
Inductive value : Type :=
| Undefined
| Null
| Str (s : string)
| Image (h : handle)
(** a property of [Object.prototype] *)
| Builtin (name : string)
(** property [name] found through the prototype chain of the element
    [h] (its value is the browser's, not the loader's) *)
| ElementProperty (h : handle) (name : string).

(** The properties every [{}] inherits from [Object.prototype]. *)
Definition object_prototype_names : list string :=
  [ "constructor"; "__defineGetter__"; "__defineSetter__";
    "hasOwnProperty"; "__lookupGetter__"; "__lookupSetter__";
    "isPrototypeOf"; "propertyIsEnumerable"; "toString"; "valueOf";
    "__proto__"; "toLocaleString" ].

Definition inherited (k : string) : bool :=
  existsb (String.eqb k) object_prototype_names.

Fixpoint lookup (k : string) (l : list (string * handle)) : option handle :=
  match l with
  | [] => None
  | (k', v) :: r => if String.eqb k k' then Some v else lookup k r
  end.

(** Writing an own property: an existing one keeps its place, a new
    one goes last. *)
Fixpoint store (k : string) (v : handle) (l : list (string * handle))
  : list (string * handle) :=
  match l with
  | [] => [(k, v)]
  | (k', v') :: r =>
      if String.eqb k k' then (k', v) :: r else (k', v') :: store k v r
  end.

(** [o[k]]: the own property, else the prototype chain. *)
Definition get (o : object) (k : string) : value :=
  match lookup k (own o) with
  | Some h => Image h
  | None =>
      match proto o with
      | ObjectPrototype => if inherited k then Builtin k else Undefined
      | ElementPrototype h =>
          if String.eqb k "__proto__" then Image h
          else ElementProperty h k
      end
  end.

(** What the prototype chain of an image element does with the
    assignment [o[k] = v], made in strict code (a class body is strict),
    on an object [o] that inherits from the element and has no own [k]:
    - [Creates]: the chain has no property [k], or has it as a writable
      data property (a method such as [addEventListener], a property of
      [Object.prototype]), and the own property is created;
    - [Rejects]: the chain has [k] as an accessor whose setter refuses a
      receiver that is not an image element ([src], [width], [id], ...),
      as an accessor without setter ([complete], [tagName], ...) or as a
      constant ([ELEMENT_NODE], ...), and a [TypeError] is thrown;
    - [Ignores]: the chain has [k] as an accessor whose setter returns
      without effect on such a receiver ([onmouseenter],
      [onmouseleave]). *)
Inductive write : Type :=
| Creates
| Rejects
| Ignores.

(** The browser, as far as the loader meets it: the prototype chain
    all image elements share. *)
Class Browser : Type := {
  element_write : string -> write
}.

(** [o[k] = img]; [None] when the assignment throws a [TypeError]. *)
Definition set {web : Browser} (o : object) (k : string) (img : handle)
  : option object :=
  if String.eqb k "__proto__" then
    Some {| own := own o; proto := ElementPrototype img |}
  else
    match lookup k (own o), proto o with
    | None, ElementPrototype _ =>
        match element_write k with
        | Creates => Some {| own := store k img (own o); proto := proto o |}
        | Rejects => None
        | Ignores => Some o
        end
    | _, _ => Some {| own := store k img (own o); proto := proto o |}
    end.

(** The accessors and constants that the HTML and DOM standards put on
    the prototype chain of an image element ([HTMLImageElement],
    [HTMLElement], [Element], [Node]); a browser may define more. *)
Definition image_element_members : list string :=
  [ "alt"; "src"; "srcset"; "sizes"; "crossOrigin"; "useMap"; "isMap";
    "width"; "height"; "naturalWidth"; "naturalHeight"; "complete";
    "currentSrc"; "referrerPolicy"; "decoding"; "loading";
    "fetchPriority"; "name"; "lowsrc"; "align"; "hspace"; "vspace";
    "longDesc"; "border"; "x"; "y";
    "title"; "lang"; "translate"; "dir"; "hidden"; "inert"; "accessKey";
    "accessKeyLabel"; "draggable"; "spellcheck"; "writingSuggestions";
    "autocapitalize"; "autocorrect"; "innerText"; "outerText"; "popover";
    "offsetParent"; "offsetTop"; "offsetLeft"; "offsetWidth";
    "offsetHeight"; "style"; "dataset"; "nonce"; "autofocus"; "tabIndex";
    "contentEditable"; "enterKeyHint"; "isContentEditable"; "inputMode";
    "onabort"; "onblur"; "oncancel"; "oncanplay"; "oncanplaythrough";
    "onchange"; "onclick"; "onclose"; "oncontextmenu"; "oncopy";
    "oncuechange"; "oncut"; "ondblclick"; "ondrag"; "ondragend";
    "ondragenter"; "ondragleave"; "ondragover"; "ondragstart"; "ondrop";
    "ondurationchange"; "onemptied"; "onended"; "onerror"; "onfocus";
    "oninput"; "oninvalid"; "onkeydown"; "onkeypress"; "onkeyup";
    "onload"; "onloadeddata"; "onloadedmetadata"; "onloadstart";
    "onmousedown"; "onmousemove"; "onmouseout"; "onmouseover";
    "onmouseup"; "onpaste"; "onpause"; "onplay"; "onplaying";
    "onprogress"; "onratechange"; "onreset"; "onresize"; "onscroll";
    "onseeked"; "onseeking"; "onselect"; "onstalled"; "onsubmit";
    "onsuspend"; "ontimeupdate"; "ontoggle"; "onvolumechange";
    "onwaiting"; "onwheel";
    "namespaceURI"; "prefix"; "localName"; "tagName"; "id"; "className";
    "classList"; "slot"; "attributes"; "shadowRoot"; "innerHTML";
    "outerHTML"; "scrollTop"; "scrollLeft"; "scrollWidth"; "scrollHeight";
    "clientTop"; "clientLeft"; "clientWidth"; "clientHeight"; "children";
    "firstElementChild"; "lastElementChild"; "childElementCount";
    "previousElementSibling"; "nextElementSibling"; "assignedSlot";
    "role";
    "nodeType"; "nodeName"; "baseURI"; "isConnected"; "ownerDocument";
    "parentNode"; "parentElement"; "childNodes"; "firstChild";
    "lastChild"; "previousSibling"; "nextSibling"; "nodeValue";
    "textContent";
    "ELEMENT_NODE"; "ATTRIBUTE_NODE"; "TEXT_NODE"; "CDATA_SECTION_NODE";
    "ENTITY_REFERENCE_NODE"; "ENTITY_NODE"; "PROCESSING_INSTRUCTION_NODE";
    "COMMENT_NODE"; "DOCUMENT_NODE"; "DOCUMENT_TYPE_NODE";
    "DOCUMENT_FRAGMENT_NODE"; "NOTATION_NODE";
    "DOCUMENT_POSITION_DISCONNECTED"; "DOCUMENT_POSITION_PRECEDING";
    "DOCUMENT_POSITION_FOLLOWING"; "DOCUMENT_POSITION_CONTAINS";
    "DOCUMENT_POSITION_CONTAINED_BY";
    "DOCUMENT_POSITION_IMPLEMENTATION_SPECIFIC" ].

(** The two event handler attributes that the HTML standard marks
    lenient about their receiver. *)
Definition lenient_members : list string := [ "onmouseenter"; "onmouseleave" ].

(** The browser of the examples.  The theorems are proved for every
    [Browser]. *)
#[export] Instance standard_browser : Browser := {|
  element_write k :=
    if existsb (String.eqb k) lenient_members then Ignores
    else if existsb (String.eqb k) image_element_members then Rejects
    else Creates
|}.

(** Array indices: canonical decimal strings below [2^32 - 1]. *)
Definition digit_of (c : ascii) : option N :=
  let n := N_of_ascii c in
  if ((48 <=? n) && (n <=? 57))%N then Some (n - 48)%N else None.

Fixpoint parse_digits (s : string) (acc : N) : option N :=
  match s with
  | EmptyString => Some acc
  | String c r =>
      match digit_of c with
      | Some d => parse_digits r (10 * acc + d)%N
      | None => None
      end
  end.

Definition array_index (s : string) : option N :=
  match s with
  | EmptyString => None
  | String "0"%char EmptyString => Some 0%N
  | String "0"%char _ => None
  | _ =>
      match parse_digits s 0 with
      | Some n => if (n <? 2 ^ 32 - 1)%N then Some n else None
      | None => None
      end
  end.

Fixpoint insert_index (e : N * string) (l : list (N * string))
  : list (N * string) :=
  match l with
  | [] => [e]
  | e' :: r =>
      if (fst e <=? fst e')%N then e :: l else e' :: insert_index e r
  end.

Definition sort_indices (l : list (N * string)) : list (N * string) :=
  fold_right insert_index [] l.

Fixpoint index_keys (l : list string) : list (N * string) :=
  match l with
  | [] => []
  | k :: r =>
      match array_index k with
      | Some n => (n, k) :: index_keys r
      | None => index_keys r
      end
  end.

Definition is_index (k : string) : bool :=
  match array_index k with Some _ => true | None => false end.

(** [Object.keys(o)]: the own keys, array indices first in ascending
    numeric order, then the other keys in creation order. *)
Definition keys (o : object) : list string :=
  let ks := map fst (own o) in
  map snd (sort_indices (index_keys ks))
    ++ filter (fun k => negb (is_index k)) ks.

(** [!!v].  [None] for a value the browser decides. *)
Definition truthy (v : value) : option bool :=
  match v with
  | Undefined | Null => Some false
  | Str s => Some (negb (String.eqb s ""))
  | Image _ | Builtin _ => Some true
  | ElementProperty _ _ => None
  end.

(** [a[i]] on an array of strings; [None] is [undefined], the result
    outside [0 .. length-1]. *)
Definition at_index (a : list string) (i : number) : option string :=
  match as_index i with
  | Some n => nth_error a n
  | None => None
  end.

End JsObject.

Import JsObject.

(* ================================================================== *)
(** * The loader *)
(* ================================================================== *)

(** An [Image] element created by [preloadImage]: the URL given to
    [img.src], the index its two handlers captured, and how many [load]
    and [error] events the browser has delivered to it. *)
Record image : Type := {
  img_src : string;
  img_index : nat;
  img_loads : nat;
  img_errors : nat
}.

(** An invocation of one of the callbacks given in the options.
    [OnComplete] carries the object it was given, as it was at the call. *)
Inductive callback : Type :=
| OnProgress (percentage : number)
| OnComplete (cache : object)
| OnError (src : string) (index : nat).

(** The fields of an [ImageLoader], and around them the image elements
    created so far ([elements], a handle being a position in it) and the
    callback invocations so far ([calls], oldest first).  [ui] is the
    [ImageLoaderUI], kept as the percentages given to [updateProgress]. *)
Record state : Type := {
  images : list string;
  loadedImages : nat;
  totalImages : nat;
  imageElements : list (option handle);
  imageCache : object;
  ui : option (list number);
  elements : list image;
  calls : list callback
}.

(** The constructor's options that matter here; the three callbacks are
    opaque and their invocations are recorded in [calls]. *)
Record options : Type := {
  opt_images : option (list string);
  opt_showUI : option bool
}.

Definition set_loadedImages (s : state) (n : nat) : state :=
  {| images := images s; loadedImages := n; totalImages := totalImages s;
     imageElements := imageElements s; imageCache := imageCache s;
     ui := ui s; elements := elements s; calls := calls s |}.

Definition set_imageCache (s : state) (c : object) : state :=
  {| images := images s; loadedImages := loadedImages s;
     totalImages := totalImages s; imageElements := imageElements s;
     imageCache := c; ui := ui s; elements := elements s;
     calls := calls s |}.

Definition set_elements (s : state) (d : list image) : state :=
  {| images := images s; loadedImages := loadedImages s;
     totalImages := totalImages s; imageElements := imageElements s;
     imageCache := imageCache s; ui := ui s; elements := d;
     calls := calls s |}.

Definition call (s : state) (c : callback) : state :=
  {| images := images s; loadedImages := loadedImages s;
     totalImages := totalImages s; imageElements := imageElements s;
     imageCache := imageCache s; ui := ui s; elements := elements s;
     calls := calls s ++ [c] |}.

(** [new ImageLoaderUI(..)] ends [init] with [updateProgress(0)]. *)
Definition new_ui : list number := [lit 0].

(** [new ImageLoader(options)] *)
Definition constructor (o : options) : state :=
  let imgs := match opt_images o with Some l => l | None => [] end in
  {| images := imgs;
     loadedImages := 0;
     totalImages := List.length imgs;
     imageElements := [];
     imageCache := JsObject.empty;
     ui := match opt_showUI o with
           | Some false => None
           | _ => Some new_ui
           end;
     elements := [];
     calls := [] |}.

(** [this.onProgress(p)]: with a UI, its [updateProgress] runs before
    the callback of the options. *)
Definition onProgress (s : state) (p : number) : state :=
  call {| images := images s; loadedImages := loadedImages s;
          totalImages := totalImages s; imageElements := imageElements s;
          imageCache := imageCache s;
          ui := match ui s with Some u => Some (u ++ [p]) | None => None end;
          elements := elements s; calls := calls s |}
       (OnProgress p).

Definition onComplete (s : state) (c : object) : state := call s (OnComplete c).

Definition onError (s : state) (src : string) (index : nat) : state :=
  call s (OnError src index).

(** [a[i] = v] on an array: writing past the end leaves holes. *)
Definition array_set (a : list (option handle)) (i : nat) (v : handle)
  : list (option handle) :=
  if i <? List.length a then firstn i a ++ Some v :: skipn (S i) a
  else a ++ repeat None (i - List.length a) ++ [Some v].

(** [preloadImage(src, index)] *)
Definition preloadImage (s : state) (src : string) (index : nat) : state :=
  let img := List.length (elements s) in
  {| images := images s; loadedImages := loadedImages s;
     totalImages := totalImages s;
     imageElements := array_set (imageElements s) index img;
     imageCache := imageCache s; ui := ui s;
     elements := elements s ++
       [{| img_src := src; img_index := index;
           img_loads := 0; img_errors := 0 |}];
     calls := calls s |}.

(** [a.forEach((x, i) => f(x, i))], the index counted from [i]. *)
Fixpoint forEach_from (f : state -> string -> nat -> state)
  (a : list string) (i : nat) (s : state) : state :=
  match a with
  | [] => s
  | x :: r => forEach_from f r (S i) (f s x i)
  end.

Definition forEach (f : state -> string -> nat -> state)
  (a : list string) (s : state) : state := forEach_from f a 0 s.

(** [preloadAll()] *)
Definition preloadAll (s : state) : state :=
  if totalImages s =? 0 then
    onComplete (onProgress s (lit 100)) JsObject.empty
  else
    forEach (fun s src index => preloadImage s src index) (images s) s.

(** [Math.round((loadedImages / totalImages) * 100)] *)
Definition percentage (loaded total : nat) : number :=
  Math_round (Number.mul (Number.div (of_nat loaded) (of_nat total)) (lit 100)).

(** The common end of both handlers: report progress, then completion
    when the counter equals the total. *)
Definition report (s : state) : state :=
  let progress := percentage (loadedImages s) (totalImages s) in
  let s := onProgress s progress in
  if loadedImages s =? totalImages s then onComplete s (imageCache s) else s.

(** How a handler ends: it returns, or a [TypeError] leaves it; either
    way with the loader as it is at that point. *)
Inductive outcome : Type :=
| Returns (s : state)
| Throws (s : state).

Definition after (r : outcome) : state :=
  match r with Returns s | Throws s => s end.

(** [handleImageLoad(img, src, index)]: when the cache write throws,
    the counter has been incremented and neither callback is reached. *)
Definition handleImageLoad {web : Browser} (s : state) (img : handle)
  (src : string) (index : nat) : outcome :=
  let s := set_loadedImages s (S (loadedImages s)) in
  match JsObject.set (imageCache s) src img with
  | None => Throws s
  | Some c => Returns (report (set_imageCache s c))
  end.

(** [handleImageError(src, index)] *)
Definition handleImageError (s : state) (src : string) (index : nat) : state :=
  let s := set_loadedImages s (S (loadedImages s)) in
  let s := onError s src index in
  report s.

(** [Math.floor(Math.random() * cachedUrls.length)], [random] being the
    value [Math.random()] returned. *)
Definition randomIndex (random : Q) (cachedUrls : list string) : number :=
  Math_floor (Number.mul (Num random) (of_nat (List.length cachedUrls))).

(** [getRandomImage()] *)
Definition getRandomImage (s : state) (random : Q) : value :=
  let cachedUrls := keys (imageCache s) in
  if List.length cachedUrls =? 0 then Null
  else
    match at_index cachedUrls (randomIndex random cachedUrls) with
    | Some k => get (imageCache s) k
    | None => get (imageCache s) "undefined"
    end.

(** [getRandomImageURL()] *)
Definition getRandomImageURL (s : state) (random : Q) : value :=
  let cachedUrls := keys (imageCache s) in
  if List.length cachedUrls =? 0 then Null
  else
    match at_index cachedUrls (randomIndex random cachedUrls) with
    | Some k => Str k
    | None => Undefined
    end.

(** [isImageLoaded(src)] *)
Definition isImageLoaded (s : state) (src : string) : option bool :=
  truthy (get (imageCache s) src).

(** [getLoadingProgress()] *)
Definition getLoadingProgress (s : state) : number :=
  if totalImages s =? 0 then lit 100
  else percentage (loadedImages s) (totalImages s).

(** [addImages(images)] *)
Definition addImages (s : state) (imgs : list string) : state :=
  let startIndex := totalImages s in
  let all := images s ++ imgs in
  let s := {| images := all; loadedImages := loadedImages s;
              totalImages := List.length all;
              imageElements := imageElements s;
              imageCache := imageCache s; ui := ui s;
              elements := elements s; calls := calls s |} in
  forEach (fun s src i => preloadImage s src (startIndex + i)) imgs s.

(* ================================================================== *)
(** * Runs: calls of the page and events of the browser *)
(* ================================================================== *)

(** What can happen to a loader: the page calls [preloadAll] or
    [addImages], or the browser delivers [load] or [error] to an image
    element, which runs the handler [preloadImage] installed on it. *)
Inductive action : Type :=
| PreloadAll
| AddImages (imgs : list string)
| Load (img : handle)
| Error (img : handle).

Definition fired (i : image) : nat := img_loads i + img_errors i.

Definition deliver_load (i : image) : image :=
  {| img_src := img_src i; img_index := img_index i;
     img_loads := S (img_loads i); img_errors := img_errors i |}.

Definition deliver_error (i : image) : image :=
  {| img_src := img_src i; img_index := img_index i;
     img_loads := img_loads i; img_errors := S (img_errors i) |}.

Fixpoint update (h : handle) (f : image -> image) (d : list image)
  : list image :=
  match d, h with
  | [], _ => []
  | i :: r, 0 => f i :: r
  | i :: r, S h' => i :: update h' f r
  end.

(** One action.  [None]: the element does not exist.  An exception
    that leaves an event handler is reported by the browser, and the page
    goes on with the loader as the handler left it. *)
Definition step {web : Browser} (s : state) (a : action) : option state :=
  match a with
  | PreloadAll => Some (preloadAll s)
  | AddImages imgs => Some (addImages s imgs)
  | Load h =>
      match nth_error (elements s) h with
      | None => None
      | Some i =>
          Some (after (handleImageLoad
                         (set_elements s (update h deliver_load (elements s)))
                         h (img_src i) (img_index i)))
      end
  | Error h =>
      match nth_error (elements s) h with
      | None => None
      | Some i =>
          Some (handleImageError
                  (set_elements s (update h deliver_error (elements s)))
                  (img_src i) (img_index i))
      end
  end.

Fixpoint run {web : Browser} (s : state) (t : list action) : option state :=
  match t with
  | [] => Some s
  | a :: r =>
      match step s a with
      | Some s' => run s' r
      | None => None
      end
  end.

(** The handler that the action runs returns: the cache write of
    [handleImageLoad] does not throw. *)
Definition returns {web : Browser} (s : state) (a : action) : bool :=
  match a with
  | Load h =>
      match nth_error (elements s) h with
      | Some i =>
          match JsObject.set (imageCache s) (img_src i) h with
          | Some _ => true
          | None => false
          end
      | None => true
      end
  | _ => true
  end.

(** No exception leaves a handler over the run. *)
Fixpoint handlers_return {web : Browser} (s : state) (t : list action) : bool :=
  match t with
  | [] => true
  | a :: r =>
      returns s a
      && match step s a with
         | Some s' => handlers_return s' r
         | None => true
         end
  end.

(* ================================================================== *)
(** * Observations on runs *)
(* ================================================================== *)

Definition is_event (a : action) : bool :=
  match a with
  | Load _ | Error _ => true
  | PreloadAll | AddImages _ => false
  end.

Definition is_complete (c : callback) : bool :=
  match c with OnComplete _ => true | _ => false end.

(** How many times [onComplete] has been invoked. *)
Definition completions (s : state) : nat :=
  List.length (filter is_complete (calls s)).

(** The percentages given to [onProgress], oldest first. *)
Fixpoint percentages (l : list callback) : list number :=
  match l with
  | [] => []
  | OnProgress p :: r => p :: percentages r
  | _ :: r => percentages r
  end.

Definition progress_values (s : state) : list number := percentages (calls s).

(** Every image element has had exactly one event / at most one event. *)
Definition fired_once (s : state) : bool :=
  forallb (fun i => fired i =? 1) (elements s).

Definition fired_at_most_once (s : state) : bool :=
  forallb (fun i => fired i <=? 1) (elements s).

(** The page calls neither [preloadAll] nor [addImages] once [onComplete]
    has been invoked. *)
Fixpoint quiet_after_completion {web : Browser} (s : state) (t : list action)
  : bool :=
  match t with
  | [] => true
  | a :: r =>
      (is_event a || (completions s =? 0))
      && match step s a with
         | Some s' => quiet_after_completion s' r
         | None => true
         end
  end.

(** [preloadAll] is called only while no image element exists yet. *)
Fixpoint preloadAll_first {web : Browser} (s : state) (t : list action)
  : bool :=
  match t with
  | [] => true
  | a :: r =>
      match a with
      | PreloadAll => List.length (elements s) =? 0
      | _ => true
      end
      && match step s a with
         | Some s' => preloadAll_first s' r
         | None => true
         end
  end.

Definition events_only (t : list action) : bool := forallb is_event t.

(** The URLs the page asks for over a run, in order: [preloadAll] asks
    for the whole current list, [addImages] for its argument. *)
Fixpoint requested (imgs : list string) (t : list action) : list string :=
  match t with
  | [] => []
  | PreloadAll :: r => imgs ++ requested imgs r
  | AddImages l :: r => l ++ requested (imgs ++ l) r
  | (Load _ | Error _) :: r => requested imgs r
  end.

(** The elements [forEach] creates for the entries of [l], the first
    with index [i]. *)
Fixpoint fresh_images (l : list string) (i : nat) : list image :=
  match l with
  | [] => []
  | src :: r =>
      {| img_src := src; img_index := i; img_loads := 0; img_errors := 0 |}
        :: fresh_images r (S i)
  end.

Fixpoint nondecreasing (l : list number) : Prop :=
  match l with
  | [] => True
  | p :: r =>
      match r with
      | [] => True
      | q :: _ => Number.le p q
      end /\ nondecreasing r
  end.

(** The URLs with a delivered [load] event / [error] event. *)
Definition loaded_url (s : state) (u : string) : Prop :=
  exists i, In i (elements s) /\ img_src i = u /\ 0 < img_loads i.

Definition failed_url (s : state) (u : string) : Prop :=
  exists i, In i (elements s) /\ img_src i = u /\ 0 < img_errors i.

(** The loader as the page gets it, before any call. *)
Definition loader_of (imgs : list string) : state :=
  constructor {| opt_images := Some imgs; opt_showUI := None |}.

(* ================================================================== *)
(** * Invariants and measures used in the proofs *)
(* ================================================================== *)

Definition events_delivered (s : state) : nat := list_sum (map fired (elements s)).

Definition frame (s s' : state) : Prop :=
  images s' = images s /\ loadedImages s' = loadedImages s /\
  totalImages s' = totalImages s /\ imageCache s' = imageCache s /\
  ui s' = ui s /\ calls s' = calls s.

Definition completion (s : state) : list callback :=
  if loadedImages s =? totalImages s then [OnComplete (imageCache s)] else [].

Definition consistent (s : state) : Prop :=
  totalImages s = List.length (images s) /\ loadedImages s = events_delivered s.

(** Not complete yet, with enough elements to get there; or completed,
    once, with the counter at or beyond the total. *)
Definition completing (s : state) : Prop :=
  (completions s = 0 /\ loadedImages s < totalImages s /\
   totalImages s <= List.length (elements s)) \/
  (completions s = 1 /\ totalImages s <= loadedImages s).

Definition progress_upto (n k : nat) : list number :=
  map (fun j => percentage j n) (seq 1 k).

(** How many elements have been created for the URL [u]. *)
Definition fetches (s : state) (u : string) : nat :=
  List.length (filter (String.eqb u) (map img_src (elements s))).

Definition loaded_in (d : list image) (u : string) : Prop :=
  exists i, In i d /\ img_src i = u /\ 0 < img_loads i.

(** A key is a loaded URL; and while the cache inherits from
    [Object.prototype], every loaded URL but [__proto__] is a key. *)
Definition keys_are_loaded (s : state) : Prop :=
  forall k,
    (In k (map fst (own (imageCache s))) ->
     loaded_in (elements s) k /\ k <> "__proto__") /\
    (proto (imageCache s) = ObjectPrototype ->
     loaded_in (elements s) k -> k <> "__proto__" ->
     In k (map fst (own (imageCache s)))).

(** Every percentage reported so far was computed from a value the
    counter has had. *)
Definition progress_counted (s : state) : Prop :=
  forall p, In p (progress_values s) ->
    exists j, 1 <= j <= loadedImages s /\ p = percentage j (totalImages s).

(* ================================================================== *)
(** * Further invariants of runs *)
(* ================================================================== *)

(** Every element was created for an entry of [images]: its index is
    the position of its URL there. *)
Definition indexed (s : state) : Prop :=
  forall i, In i (elements s) ->
    nth_error (images s) (img_index i) = Some (img_src i).

(** Each [onError] invocation so far named a URL and its position in
    [images]. *)
Definition errors_indexed (s : state) : Prop :=
  forall src index, In (OnError src index) (calls s) ->
    nth_error (images s) index = Some src.

(** The element stored under a key was created for that URL and has
    had a [load] event. *)
Definition cache_sound (s : state) : Prop :=
  forall k h, lookup k (own (imageCache s)) = Some h ->
    exists i, nth_error (elements s) h = Some i /\
              img_src i = k /\ 0 < img_loads i.

(** The cache keeps [Object.prototype] until [__proto__] loads. *)
Definition proto_intact (s : state) : Prop :=
  proto (imageCache s) = ObjectPrototype \/ loaded_in (elements s) "__proto__".

Definition ui_tracks (s s' : state) : Prop :=
  exists l, progress_values s' = progress_values s ++ l /\
            ui s' = option_map (fun u => u ++ l) (ui s).

(** One element per entry of [images], element [h] made for
    [images[h]] with index [h] and kept in [imageElements[h]]. *)
Definition mirrored (s : state) : Prop :=
  imageElements s = map Some (seq 0 (totalImages s)) /\
  List.length (elements s) = totalImages s /\
  map img_src (elements s) = images s /\
  map img_index (elements s) = seq 0 (totalImages s).

(* ================================================================== *)
(** * The page's fallback draw and the progress bar *)
(* ================================================================== *)

(** [window.getRandomImage()] of the page:
    [imageLoader.getRandomImageURL() ||
     images[Math.floor(Math.random() * images.length)]],
    [images] being the page's own array; the second draw happens only
    when the first operand is falsy. *)
Definition window_getRandomImage (s : state) (page_images : list string)
  (random1 random2 : Q) : value :=
  let url := getRandomImageURL s random1 in
  match truthy url with
  | Some true => url
  | _ =>
      match at_index page_images (randomIndex random2 page_images) with
      | Some u => Str u
      | None => Undefined
      end
  end.

(** [a < b] and [a >= b] on Numbers; both are false with a [NaN]. *)
Definition number_lt (a b : number) : bool :=
  match a, b with
  | NaN, _ | _, NaN => false
  | Num x, Num y => negb (Qle_bool y x)
  | NegInfinity, (Num _ | PosInfinity) => true
  | Num _, PosInfinity => true
  | _, _ => false
  end.

Definition number_ge (a b : number) : bool :=
  match a, b with
  | NaN, _ | _, NaN => false
  | Num x, Num y => Qle_bool y x
  | PosInfinity, _ | _, NegInfinity => true
  | _, _ => false
  end.

Module LoaderUI.

(** What a timer of the UI does when it fires: the callback given to
    [setTimeout] at 200 ms in [updateProgress] (opacity 0, then a further
    timer), the one at 500 ms (display none), the one of [show]
    (opacity 1). *)
Inductive task : Type :=
| FadeOut
| DisplayNone
| OpacityOne.

(** The container's [style.display] and [style.opacity], the progress
    bar's width (the percentage in [`${percentage}%`]), the percentage
    text when there is one (likewise), and the pending timers with the
    time at which each is due, in the order [setTimeout] registered
    them. *)
Record ui : Type := {
  display : string;
  opacity : string;
  width : number;
  text : option number;
  timers : list (nat * task);
  now : nat
}.

(** [setTimeout(k, delay)] *)
Definition setTimeout (u : ui) (k : task) (delay : nat) : ui :=
  {| display := display u; opacity := opacity u; width := width u;
     text := text u; timers := timers u ++ [(now u + delay, k)];
     now := now u |}.

Definition set_display (u : ui) (d : string) : ui :=
  {| display := d; opacity := opacity u; width := width u;
     text := text u; timers := timers u; now := now u |}.

Definition set_opacity (u : ui) (o : string) : ui :=
  {| display := display u; opacity := o; width := width u;
     text := text u; timers := timers u; now := now u |}.

(** A percentage the style accepts as a width: finite and not negative
    (an assignment of anything else to [style.width] is ignored). *)
Definition valid_width (p : number) : bool :=
  match p with
  | Num q => Qle_bool 0 q
  | _ => false
  end.

(** [updateProgress(percentage)] *)
Definition updateProgress (u : ui) (percentage : number) : ui :=
  let u :=
    {| display := display u; opacity := opacity u;
       width := if valid_width percentage then percentage else width u;
       text := match text u with
               | Some _ => Some percentage
               | None => None
               end;
       timers := timers u; now := now u |} in
  if number_ge percentage (lit 100) then setTimeout u FadeOut 200
  else if number_lt (lit 0) percentage
       then set_opacity (set_display u "flex") "1"
       else u.

(** [show()] *)
Definition show (u : ui) : ui := setTimeout (set_display u "flex") OpacityOne 10.

(** [hide()] *)
Definition hide (u : ui) : ui := setTimeout (set_opacity u "0") DisplayNone 500.

(** [init()] on a container whose opacity is [o]: [styleContainer] sets
    [display: flex], the bar and (with [showPercentage]) the text are
    created, and [updateProgress(0)] ends it. *)
Definition init (showPercentage : bool) (o : string) : ui :=
  updateProgress
    {| display := "flex"; opacity := o; width := lit 0;
       text := if showPercentage then Some (lit 0) else None;
       timers := []; now := 0 |}
    (lit 0).

(** The UI as [new ImageLoader(..)] leaves it: constructed, then shown. *)
Definition constructed (showPercentage : bool) (o : string) : ui :=
  show (init showPercentage o).

(** The body of a timer callback. *)
Definition run_task (u : ui) (k : task) : ui :=
  match k with
  | FadeOut => setTimeout (set_opacity u "0") DisplayNone 500
  | DisplayNone => set_display u "none"
  | OpacityOne => set_opacity u "1"
  end.

(** The timer that fires next: the earliest due, the first registered
    among equals; and the others. *)
Fixpoint pop (l : list (nat * task))
  : option ((nat * task) * list (nat * task)) :=
  match l with
  | [] => None
  | x :: r =>
      match pop r with
      | None => Some (x, [])
      | Some (y, r') =>
          if fst x <=? fst y then Some (x, r) else Some (y, x :: r')
      end
  end.

(** The next timer fires: time moves to when it was due. *)
Definition fire (u : ui) : option ui :=
  match pop (timers u) with
  | None => None
  | Some ((due, k), rest) =>
      Some (run_task
              {| display := display u; opacity := opacity u;
                 width := width u; text := text u; timers := rest;
                 now := Nat.max (now u) due |} k)
  end.

Fixpoint settle_within (fuel : nat) (u : ui) : ui :=
  match fuel with
  | 0 => u
  | S n =>
      match fire u with
      | Some u' => settle_within n u'
      | None => u
      end
  end.

(** All pending timers fire, and those they set, with no other call in
    between.  A timer sets at most one further timer, which sets none. *)
Definition settle (u : ui) : ui :=
  settle_within (2 * List.length (timers u)) u.

(** The calls of [updateProgress] made for a list of percentages. *)
Definition replay (l : list number) (u : ui) : ui :=
  fold_left updateProgress l u.

(** What happens to the bar over time: [updateProgress] is called, or
    one of the pending timers fires, the [k]-th of those pending (which
    one is for the browser's clock to say). *)
Inductive event : Type :=
| Update (percentage : number)
| Timeout (k : nat).

Definition fire_at (k : nat) (u : ui) : ui :=
  match nth_error (timers u) k with
  | None => u
  | Some (due, t) =>
      run_task
        {| display := display u; opacity := opacity u; width := width u;
           text := text u;
           timers := firstn k (timers u) ++ skipn (S k) (timers u);
           now := Nat.max (now u) due |} t
  end.

Definition happen (u : ui) (e : event) : ui :=
  match e with
  | Update p => updateProgress u p
  | Timeout k => fire_at k u
  end.

Definition play (l : list event) (u : ui) : ui := fold_left happen l u.

(** The percentages given to [updateProgress] over a history. *)
Fixpoint updates (l : list event) : list number :=
  match l with
  | [] => []
  | Update p :: r => p :: updates r
  | Timeout _ :: r => updates r
  end.

Definition hides (k : task) : bool :=
  match k with FadeOut | DisplayNone => true | OpacityOne => false end.

Definition weight (l : list (nat * task)) : nat :=
  list_sum (map (fun x => match snd x with FadeOut => 2 | _ => 1 end) l).

(** A hiding timer is pending, or the container is already hidden. *)
Definition hiding (u : ui) : Prop :=
  display u = "none" \/ exists x, In x (timers u) /\ hides (snd x) = true.

(** Without a hiding timer pending, firing only raises the opacity. *)
Definition showing (u : ui) : Prop :=
  display u = "flex" /\ opacity u = "1" /\
  forall x, In x (timers u) -> snd x = OpacityOne.

Definition below_100 (p : number) : bool := negb (number_ge p (lit 100)).

End LoaderUI.

Definition reached_100 (l : list number) : bool :=
  existsb (fun p => number_ge p (lit 100)) l.

(** The last percentage is 100 or more. *)
Definition ends_at_100 (l : list number) : bool :=
  number_ge (last l (lit 0)) (lit 100).

(** [onComplete] is invoked only after [onProgress] was given 100. *)
Definition completed_at_100 (s : state) : Prop :=
  completions s = 0 \/ reached_100 (progress_values s) = true.

Definition is_error (c : callback) : bool :=
  match c with OnError _ _ => true | _ => false end.

(** How many times [onError] has been invoked. *)
Definition error_calls (s : state) : nat :=
  List.length (filter is_error (calls s)).

(** At most one [onProgress] per delivered event, one [onError] per
    [error] event. *)
Definition reported (s : state) : Prop :=
  0 < totalImages s /\
  List.length (progress_values s) <= loadedImages s /\
  error_calls s = list_sum (map img_errors (elements s)).

(** Exactly one [onProgress] per delivered event. *)
Definition reported_each (s : state) : Prop :=
  0 < totalImages s /\
  List.length (progress_values s) = loadedImages s.

(* ================================================================== *)
(** * Facts about Numbers *)
(* ================================================================== *)

Section NumberFacts.

Local Open Scope Q_scope.

Lemma pow2_pos e : 0 < pow2 e.
Proof. apply Qpower_0_lt. reflexivity. Qed.

Lemma pow2_add a b : pow2 (a + b) == pow2 a * pow2 b.
Proof. apply Qpower_plus. discriminate. Qed.

Lemma pow2_sub a b : pow2 (a - b) == pow2 a / pow2 b.
Proof. unfold pow2. apply Qpower_minus. discriminate. Qed.

Lemma pow2_le a b : (a <= b)%Z -> pow2 a <= pow2 b.
Proof. intros H. apply Qpower_le_compat_l; [exact H | discriminate]. Qed.

Lemma pow2_lt a b : (a < b)%Z -> pow2 a < pow2 b.
Proof. intros H. apply Qpower_lt_compat_l; [exact H | reflexivity]. Qed.

Lemma pow2_lt_inv a b : pow2 a < pow2 b -> (a < b)%Z.
Proof.
  intros H.
  apply Qpower_lt_compat_l_inv with (q := 2 # 1); [exact H | reflexivity].
Qed.

Lemma pow2_Z n : (0 <= n)%Z -> pow2 n == inject_Z (2 ^ n).
Proof.
  intros H. unfold pow2. rewrite Zpower_Qpower by exact H. reflexivity.
Qed.

Lemma Q_as_div x : x == inject_Z (Qnum x) / inject_Z (Zpos (Qden x)).
Proof. destruct x as [a b]. apply Qmake_Qdiv. Qed.

Lemma log2_bounds (a : Z) :
  (0 < a)%Z ->
  pow2 (Z.log2 a) <= inject_Z a /\ inject_Z a < pow2 (Z.log2 a + 1).
Proof.
  intros Ha. destruct (Z.log2_spec a Ha) as [H1 H2].
  pose proof (Z.log2_nonneg a) as Hn.
  rewrite !pow2_Z by lia. rewrite <- Zle_Qle, <- Zlt_Qlt.
  replace (Z.log2 a + 1)%Z with (Z.succ (Z.log2 a)) by lia. auto.
Qed.

(** [binade] is the integer part of the binary logarithm. *)
Lemma binade_spec x :
  0 < x -> pow2 (binade x) <= x /\ x < pow2 (binade x + 1).
Proof.
  intros Hx.
  assert (Ha : (0 < Qnum x)%Z).
  { destruct x as [a b]. unfold Qlt in Hx. simpl in *. lia. }
  destruct (log2_bounds Ha) as [A1 A2].
  destruct (@log2_bounds (Zpos (Qden x)) eq_refl) as [B1 B2].
  pose proof (Q_as_div x) as Ex.
  set (a := inject_Z (Qnum x)) in *.
  set (b := inject_Z (Zpos (Qden x))) in *.
  set (la := Z.log2 (Qnum x)) in *.
  set (lb := Z.log2 (Zpos (Qden x))) in *.
  assert (Hb : 0 < b) by (pose proof (pow2_pos lb); lra).
  assert (Exb : x * b == a) by (rewrite Ex; field; lra).
  assert (U : x < pow2 (la - lb + 1)).
  { replace (la - lb + 1)%Z with ((la + 1) - lb)%Z by lia.
    rewrite pow2_sub. apply Qlt_shift_div_l; [apply pow2_pos|].
    pose proof (pow2_pos lb). pose proof (pow2_pos (la + 1)). nra. }
  assert (L : pow2 (la - lb - 1) < x).
  { replace (la - lb - 1)%Z with (la - (lb + 1))%Z by lia.
    rewrite pow2_sub. apply Qlt_shift_div_r; [apply pow2_pos|].
    pose proof (pow2_pos (lb + 1)). pose proof (pow2_pos la). nra. }
  unfold binade. fold la lb.
  destruct (Qle_bool (pow2 (la - lb)) x) eqn:E.
  - apply Qle_bool_iff in E. split; auto.
  - assert (~ pow2 (la - lb) <= x) by (rewrite <- Qle_bool_iff; congruence).
    split; [lra|].
    replace (la - lb - 1 + 1)%Z with (la - lb)%Z by lia. lra.
Qed.

Lemma binade_unique x e :
  pow2 e <= x -> x < pow2 (e + 1) -> binade x = e.
Proof.
  intros H1 H2.
  assert (Hx : 0 < x) by (pose proof (pow2_pos e); lra).
  destruct (binade_spec Hx) as [B1 B2].
  assert (A : pow2 e < pow2 (binade x + 1)) by lra.
  assert (B : pow2 (binade x) < pow2 (e + 1)) by lra.
  apply pow2_lt_inv in A, B. lia.
Qed.

Lemma binade_mono x y : 0 < x -> x <= y -> (binade x <= binade y)%Z.
Proof.
  intros Hx Hxy.
  destruct (binade_spec Hx) as [B1 _].
  destruct (@binade_spec y ltac:(lra)) as [_ B2].
  assert (A : pow2 (binade x) < pow2 (binade y + 1)) by lra.
  apply pow2_lt_inv in A. lia.
Qed.

Lemma floor_bounds y : inject_Z (Qfloor y) <= y /\ y < inject_Z (Qfloor y) + 1.
Proof.
  split; [apply Qfloor_le|].
  pose proof (Qlt_floor y) as H. rewrite inject_Z_plus in H. exact H.
Qed.

Lemma rte_cases y :
  (y - inject_Z (Qfloor y) < 1 # 2 /\ round_ties_even y = Qfloor y) \/
  (1 # 2 < y - inject_Z (Qfloor y) /\ round_ties_even y = (Qfloor y + 1)%Z) \/
  (y - inject_Z (Qfloor y) == 1 # 2 /\
   (round_ties_even y = Qfloor y \/ round_ties_even y = (Qfloor y + 1)%Z)).
Proof.
  unfold round_ties_even.
  destruct (Qcompare_spec (y - inject_Z (Qfloor y)) (1 # 2)) as [E|E|E].
  - right. right. split; [exact E|]. destruct (Z.even (Qfloor y)); auto.
  - left. auto.
  - right. left. auto.
Qed.

Lemma rte_lower y : y - (1 # 2) <= inject_Z (round_ties_even y).
Proof.
  destruct (floor_bounds y) as [F1 F2].
  destruct (rte_cases y) as [[H E]|[[H E]|[H [E|E]]]]; rewrite E;
    rewrite ?inject_Z_plus; change (inject_Z 1) with 1; lra.
Qed.

Lemma rte_upper y : inject_Z (round_ties_even y) <= y + (1 # 2).
Proof.
  destruct (floor_bounds y) as [F1 F2].
  destruct (rte_cases y) as [[H E]|[[H E]|[H [E|E]]]]; rewrite E;
    rewrite ?inject_Z_plus; change (inject_Z 1) with 1; lra.
Qed.

Lemma rte_compat x y : x == y -> round_ties_even x = round_ties_even y.
Proof.
  intros E. unfold round_ties_even.
  assert (F : Qfloor x = Qfloor y) by (rewrite E; reflexivity).
  rewrite F.
  assert (C : Qcompare (x - inject_Z (Qfloor y)) (1#2) = Qcompare (y - inject_Z (Qfloor y)) (1#2)).
  { rewrite E. reflexivity. }
  rewrite C. reflexivity.
Qed.

Lemma rte_mono x y : x <= y -> (round_ties_even x <= round_ties_even y)%Z.
Proof.
  intros Hxy.
  destruct (Z_le_gt_dec (round_ties_even x) (round_ties_even y)) as [H|H]; [exact H|].
  exfalso.
  assert (G : (round_ties_even y + 1 <= round_ties_even x)%Z) by lia.
  rewrite Zle_Qle, inject_Z_plus in G. change (inject_Z 1) with 1 in G.
  pose proof (rte_upper x). pose proof (rte_lower y).
  assert (E : x == y) by lra.
  apply rte_compat in E. lia.
Qed.

Lemma rte_Z n : round_ties_even (inject_Z n) = n.
Proof.
  unfold round_ties_even. rewrite Qfloor_Z.
  destruct (Qcompare_spec (inject_Z n - inject_Z n) (1 # 2)) as [E|E|E]; try lra.
  reflexivity.
Qed.

Lemma rte_le_Z y n : y <= inject_Z n -> (round_ties_even y <= n)%Z.
Proof. intros H. rewrite <- (rte_Z n). apply rte_mono, H. Qed.

Lemma rte_ge_Z y n : inject_Z n <= y -> (n <= round_ties_even y)%Z.
Proof. intros H. rewrite <- (rte_Z n) at 1. apply rte_mono, H. Qed.

Lemma ulp_pos x : 0 < ulp x.
Proof. apply pow2_pos. Qed.

Lemma rn_pos_nonneg x : 0 < x -> 0 <= rn_pos x.
Proof.
  intros Hx. unfold rn_pos. pose proof (ulp_pos x) as U.
  assert (H : (0 <= round_ties_even (x / ulp x))%Z).
  { apply rte_ge_Z. change (inject_Z 0) with 0.
    apply Qle_shift_div_l; [exact U|]. lra. }
  rewrite Zle_Qle in H. change (inject_Z 0) with 0 in H. nra.
Qed.

(** Rounding moves a value by at most half a unit in the last place. *)
Lemma rn_pos_upper x : rn_pos x <= x + ulp x / 2.
Proof.
  unfold rn_pos. pose proof (ulp_pos x) as U.
  pose proof (rte_upper (x / ulp x)) as H.
  assert (E : x / ulp x * ulp x == x) by (field; lra).
  assert (D : ulp x / 2 == (1 # 2) * ulp x) by (field).
  rewrite D. nra.
Qed.

Lemma rn_pos_compat x y : x == y -> binade x = binade y -> rn_pos x == rn_pos y.
Proof.
  intros E B. unfold rn_pos, ulp. rewrite B.
  rewrite (rte_compat (x := x / _) (y := y / pow2 (Z.max (binade y) emin - (prec - 1)))).
  - reflexivity.
  - rewrite E. reflexivity.
Qed.

Lemma binade_compat x y : 0 < x -> x == y -> binade x = binade y.
Proof.
  intros Hx E. destruct (binade_spec Hx) as [B1 B2].
  symmetry. apply binade_unique; lra.
Qed.

Lemma rn_pos_mono x y : 0 < x -> x <= y -> rn_pos x <= rn_pos y.
Proof.
  intros Hx Hxy.
  assert (Hy : 0 < y) by lra.
  pose proof (binade_mono Hx Hxy) as Hb.
  destruct (binade_spec Hx) as [X1 X2]. destruct (binade_spec Hy) as [Y1 Y2].
  unfold rn_pos, ulp.
  set (ex := Z.max (binade x) emin). set (ey := Z.max (binade y) emin).
  assert (Hex : (ex <= ey)%Z) by (unfold ex, ey; lia).
  pose proof (pow2_pos (ex - (prec - 1))) as Ux.
  pose proof (pow2_pos (ey - (prec - 1))) as Uy.
  destruct (Z.eq_dec ex ey) as [E|N].
  - rewrite E in *.
    assert (M : (round_ties_even (x / pow2 (ey - (prec - 1)))
                 <= round_ties_even (y / pow2 (ey - (prec - 1))))%Z).
    { apply rte_mono. apply Qle_shift_div_l; [exact Uy|].
      assert (F : x / pow2 (ey - (prec - 1)) * pow2 (ey - (prec - 1)) == x)
        by (field; lra).
      lra. }
    rewrite Zle_Qle in M. nra.
  - assert (Hlt : (ex < ey)%Z) by lia.
    assert (Ey : ey = binade y) by (unfold ex, ey in *; lia).
    assert (A : (round_ties_even (x / pow2 (ex - (prec - 1))) <= 2 ^ prec)%Z).
    { apply rte_le_Z. rewrite <- pow2_Z by (unfold prec; lia).
      apply Qle_shift_div_r; [exact Ux|].
      rewrite <- pow2_add.
      replace (prec + (ex - (prec - 1)))%Z with (ex + 1)%Z by lia.
      assert (pow2 (binade x + 1) <= pow2 (ex + 1)) by (apply pow2_le; unfold ex; lia).
      lra. }
    assert (B : (2 ^ (prec - 1) <= round_ties_even (y / pow2 (ey - (prec - 1))))%Z).
    { apply rte_ge_Z. rewrite <- pow2_Z by (unfold prec; lia).
      apply Qle_shift_div_l; [exact Uy|].
      rewrite <- pow2_add.
      replace (prec - 1 + (ey - (prec - 1)))%Z with ey by lia.
      rewrite Ey. exact Y1. }
    rewrite Zle_Qle in A, B.
    rewrite <- pow2_Z in A by (unfold prec; lia).
    rewrite <- pow2_Z in B by (unfold prec; lia).
    assert (P1 : pow2 prec * pow2 (ex - (prec - 1)) == pow2 (ex + 1)).
    { rewrite <- pow2_add. replace (prec + (ex - (prec - 1)))%Z with (ex + 1)%Z by lia. reflexivity. }
    assert (P2 : pow2 (prec - 1) * pow2 (ey - (prec - 1)) == pow2 ey).
    { rewrite <- pow2_add. replace (prec - 1 + (ey - (prec - 1)))%Z with ey by lia. reflexivity. }
    assert (P3 : pow2 (ex + 1) <= pow2 ey) by (apply pow2_le; lia).
    nra.
Qed.

Lemma rn_compat x y : x == y -> rn x = rn y.
Proof. intros E. unfold rn. rewrite (Qred_complete x y E). reflexivity. Qed.

Lemma rn_at_zero x : x == 0 -> rn x == 0.
Proof.
  intros E. rewrite (rn_compat E). reflexivity.
Qed.

Lemma rn_positive x : 0 < x -> rn x == rn_pos (Qred x).
Proof.
  intros Hx. unfold rn. rewrite Qred_correct.
  assert (H : 0 < Qred x) by (rewrite Qred_correct; exact Hx).
  rewrite Qlt_alt in H. rewrite H. reflexivity.
Qed.

Lemma rn_nonneg x : 0 <= x -> 0 <= rn x.
Proof.
  intros Hx. destruct (Qle_lt_or_eq _ _ Hx) as [H|H].
  - rewrite (rn_positive H). apply rn_pos_nonneg. rewrite Qred_correct. exact H.
  - rewrite rn_at_zero by (symmetry; exact H). lra.
Qed.

Lemma rn_mono x y : 0 <= x -> x <= y -> rn x <= rn y.
Proof.
  intros Hx Hxy. destruct (Qle_lt_or_eq _ _ Hx) as [H|H].
  - rewrite (rn_positive H), (@rn_positive y) by lra.
    apply rn_pos_mono; rewrite ?Qred_correct; assumption.
  - rewrite rn_at_zero by (symmetry; exact H). apply rn_nonneg. lra.
Qed.

Lemma ulp_compat x y : 0 < x -> x == y -> ulp x == ulp y.
Proof. intros Hx E. unfold ulp. rewrite (binade_compat Hx E). reflexivity. Qed.

Lemma rn_upper x : 0 < x -> rn x <= x + ulp x / 2.
Proof.
  intros Hx. rewrite (rn_positive Hx).
  assert (H : 0 < Qred x) by (rewrite Qred_correct; exact Hx).
  pose proof (rn_pos_upper (Qred x)) as U.
  rewrite (ulp_compat H (Qred_correct x)) in U.
  rewrite Qred_correct in U at 2. exact U.
Qed.

Lemma ulp_bound x :
  0 < x -> ulp x <= x * pow2 (- (prec - 1)) \/ ulp x == pow2 (emin - (prec - 1)).
Proof.
  intros Hx. unfold ulp. destruct (binade_spec Hx) as [B1 _].
  destruct (Z_le_gt_dec emin (binade x)) as [H|H].
  - left. rewrite Z.max_l by lia.
    replace (binade x - (prec - 1))%Z with (binade x + - (prec - 1))%Z by lia.
    rewrite pow2_add. pose proof (pow2_pos (- (prec - 1))). nra.
  - right. rewrite Z.max_r by lia. reflexivity.
Qed.

Lemma of_exact_nonneg x :
  0 <= x ->
  (of_exact x = PosInfinity /\ pow2 emax <= rn x) \/
  (of_exact x = Num (rn x) /\ rn x < pow2 emax).
Proof.
  intros Hx. pose proof (rn_nonneg Hx) as R. unfold of_exact.
  destruct (Qle_bool (pow2 emax) (rn x)) eqn:E.
  - left. split; [reflexivity|]. apply Qle_bool_iff, E.
  - right.
    assert (N : ~ pow2 emax <= rn x) by (rewrite <- Qle_bool_iff; congruence).
    destruct (Qle_bool (rn x) (- pow2 emax)) eqn:F.
    + apply Qle_bool_iff in F. pose proof (pow2_pos emax). lra.
    + split; [reflexivity|]. lra.
Qed.

Lemma of_exact_is_nonneg x : 0 <= x -> nonneg (of_exact x).
Proof.
  intros Hx. destruct (of_exact_nonneg Hx) as [[E _]|[E _]]; rewrite E.
  - exact I.
  - unfold nonneg, lit, Number.le. change (inject_Z 0) with 0.
    apply rn_nonneg, Hx.
Qed.

Lemma of_exact_mono x y :
  0 <= x -> x <= y -> Number.le (of_exact x) (of_exact y).
Proof.
  intros Hx Hxy. pose proof (rn_mono Hx Hxy) as M.
  destruct (of_exact_nonneg Hx) as [[E A]|[E A]];
    destruct (@of_exact_nonneg y ltac:(lra)) as [[F B]|[F B]];
    rewrite E, F; cbn [Number.le]; try exact I; try lra.
Qed.

Lemma is_zero_false x : 0 < x -> is_zero x = false.
Proof.
  intros H. unfold is_zero. destruct (Qeq_bool x 0) eqn:E; [|reflexivity].
  apply Qeq_bool_iff in E. lra.
Qed.

Lemma is_neg_false x : 0 <= x -> is_neg x = false.
Proof.
  intros H. unfold is_neg. apply Qle_bool_iff in H. rewrite H. reflexivity.
Qed.

Lemma div_mono a b c :
  0 <= a -> a <= b -> 0 < c ->
  Number.le (Number.div (Num a) (Num c)) (Number.div (Num b) (Num c)) /\
  nonneg (Number.div (Num a) (Num c)).
Proof.
  intros Ha Hab Hc. unfold Number.div. rewrite (is_zero_false Hc).
  assert (H0 : 0 <= a / c) by (apply Qle_shift_div_l; lra).
  assert (H1 : a / c <= b / c).
  { apply Qle_shift_div_l; [exact Hc|].
    assert (E : a / c * c == a) by (field; lra). lra. }
  split; [apply of_exact_mono | apply of_exact_is_nonneg]; assumption.
Qed.

Lemma mul_mono u v c :
  0 < c -> nonneg u -> Number.le u v ->
  Number.le (Number.mul u (Num c)) (Number.mul v (Num c)) /\
  nonneg (Number.mul u (Num c)).
Proof.
  intros Hc Hu Huv.
  unfold nonneg, lit in Hu.
  destruct u as [a| | |]; try contradiction; destruct v as [b| | |];
    try contradiction; cbn [Number.le] in Hu, Huv;
    change (inject_Z 0) with 0 in Hu.
  - cbn [Number.mul].
    assert (0 <= a * c) by nra. assert (a * c <= b * c) by nra.
    split; [apply of_exact_mono | apply of_exact_is_nonneg]; assumption.
  - unfold Number.mul, inf_times.
    rewrite (is_zero_false Hc), is_neg_false by lra.
    assert (H : 0 <= a * c) by nra.
    split; [|apply of_exact_is_nonneg, H].
    destruct (of_exact_nonneg H) as [[E _]|[E _]]; rewrite E; exact I.
  - unfold Number.mul, inf_times.
    rewrite (is_zero_false Hc), is_neg_false by lra. split; exact I.
Qed.

Lemma Math_round_mono u v :
  Number.le u v -> Number.le (Math_round u) (Math_round v).
Proof.
  destruct u as [a| | |], v as [b| | |]; cbn [Number.le Math_round]; auto.
  intros H. rewrite <- Zle_Qle. apply Qfloor_resp_le. lra.
Qed.

Lemma of_nat_mono j k : (j <= k)%nat -> inject_Z (Z.of_nat j) <= inject_Z (Z.of_nat k).
Proof. intros H. rewrite <- Zle_Qle. lia. Qed.

(** The percentage does not decrease when one more operation completes. *)
Lemma percentage_mono j k n :
  (j <= k)%nat -> (0 < n)%nat -> Number.le (percentage j n) (percentage k n).
Proof.
  intros Hjk Hn. unfold percentage, of_nat, lit.
  apply Math_round_mono.
  assert (Hc : 0 < inject_Z (Z.of_nat n)).
  { change 0 with (inject_Z 0). rewrite <- Zlt_Qlt. lia. }
  assert (Hj : 0 <= inject_Z (Z.of_nat j)).
  { change 0 with (inject_Z 0). rewrite <- Zle_Qle. lia. }
  destruct (div_mono Hj (of_nat_mono Hjk) Hc) as [D1 D2].
  apply mul_mono; [reflexivity | exact D2 | exact D1].
Qed.

(** All operations completed: 100. *)
Lemma percentage_full n : (0 < n)%nat -> percentage n n = lit 100.
Proof.
  intros Hn. unfold percentage, of_nat, Number.div.
  assert (Hc : 0 < inject_Z (Z.of_nat n)).
  { change 0 with (inject_Z 0). rewrite <- Zlt_Qlt. lia. }
  rewrite (is_zero_false Hc).
  assert (E : inject_Z (Z.of_nat n) / inject_Z (Z.of_nat n) == 1) by (field; lra).
  unfold of_exact. rewrite (rn_compat E).
  vm_compute. reflexivity.
Qed.

(** The largest Number below 1 is [1 - 2^-53]. *)
Lemma representable_below_one r :
  representable r -> 0 <= r -> r < 1 -> r <= 1 - pow2 (- prec).
Proof.
  intros Hr H0 H1.
  assert (P1 : pow2 (- prec) <= 1 # 2).
  { change (1 # 2) with (pow2 (-1)). apply pow2_le. unfold prec. lia. }
  destruct (Qlt_le_dec r (1 # 2)) as [S|S]; [lra|].
  assert (Hpos : 0 < r) by lra.
  assert (B : binade r = (-1)%Z).
  { apply binade_unique; [exact S | exact H1]. }
  unfold representable in Hr. rewrite (rn_positive Hpos) in Hr.
  assert (Hq : 0 < Qred r) by (rewrite Qred_correct; exact Hpos).
  assert (Bq : binade (Qred r) = (-1)%Z).
  { rewrite (binade_compat Hq (Qred_correct r)). exact B. }
  unfold rn_pos, ulp in Hr. rewrite Bq in Hr.
  change (pow2 (Z.max (-1) emin - (prec - 1))) with (pow2 (- prec)) in Hr.
  set (z := round_ties_even (Qred r / pow2 (- prec))) in Hr.
  pose proof (pow2_pos (- prec)) as U.
  assert (T : pow2 prec * pow2 (- prec) == 1).
  { rewrite <- pow2_add. replace (prec + - prec)%Z with 0%Z by lia. reflexivity. }
  assert (Z1 : inject_Z z < pow2 prec).
  { revert Hr U T. generalize (pow2 prec) (pow2 (- prec)) (inject_Z z).
    intros a u q Hr U T. nra. }
  rewrite pow2_Z in Z1 by (unfold prec; lia). rewrite <- Zlt_Qlt in Z1.
  assert (Z2 : (z <= 2 ^ prec - 1)%Z) by lia.
  rewrite Zle_Qle in Z2. unfold Zminus in Z2. rewrite inject_Z_plus in Z2.
  rewrite <- pow2_Z in Z2 by (unfold prec; lia).
  change (inject_Z (- (1))) with (- (1)) in Z2.
  revert Hr U T Z2. generalize (pow2 prec) (pow2 (- prec)) (inject_Z z).
  intros a u q Hr U T Z2. nra.
Qed.

Lemma as_index_of_nat i : as_index (Num (inject_Z (Z.of_nat i))) = Some i.
Proof.
  unfold as_index. cbn [inject_Z Qden Qnum].
  rewrite Pos.eqb_refl.
  assert (H : (0 <=? Z.of_nat i)%Z = true) by (apply Z.leb_le; lia).
  rewrite H. cbn [andb]. rewrite Nat2Z.id. reflexivity.
Qed.

(** [Math.floor(Math.random() * n)] is an index below [n]. *)
Lemma random_index_bound r n :
  representable r -> 0 <= r -> r < 1 -> (0 < n)%nat ->
  (Z.of_nat n < 2 ^ 32)%Z ->
  exists i, (i < n)%nat /\
    Math_floor (Number.mul (Num r) (of_nat n)) = Num (inject_Z (Z.of_nat i)).
Proof.
  intros Hr H0 H1 Hn0 Hn.
  pose proof (representable_below_one Hr H0 H1) as Hmax.
  set (l := inject_Z (Z.of_nat n)).
  assert (Hl : 1 <= l).
  { unfold l. change 1 with (inject_Z 1). rewrite <- Zle_Qle. lia. }
  assert (Hl2 : l < pow2 emax).
  { assert (A : l < pow2 32).
    { rewrite pow2_Z by lia. unfold l. rewrite <- Zlt_Qlt.
      exact Hn. }
    assert (pow2 32 <= pow2 emax) by (apply pow2_le; unfold emax; lia). lra. }
  pose proof (pow2_pos (- prec)) as U.
  assert (Hx : 0 <= r * l) by nra.
  assert (Hlt : rn (r * l) < l).
  { clear Hl2. destruct (Qle_lt_or_eq _ _ Hx) as [P|P].
    - pose proof (rn_upper P) as R.
      assert (D : pow2 (- (prec - 1)) == 2 * pow2 (- prec)).
      { replace (- (prec - 1))%Z with (1 + - prec)%Z by lia.
        rewrite pow2_add. reflexivity. }
      assert (H2 : ulp (r * l) / 2 == (1 # 2) * ulp (r * l)) by field.
      assert (T : pow2 (emin - (prec - 1)) < pow2 (- prec)).
      { apply pow2_lt. unfold emin, prec. lia. }
      pose proof (ulp_bound P) as B.
      revert Hmax U R D H2 T B.
      generalize (pow2 (- prec)) (pow2 (- (prec - 1)))
        (pow2 (emin - (prec - 1))) (ulp (r * l)) (rn (r * l)).
      intros u u2 um w y Hmax U R D H2 T B.
      assert (A1 : r * l <= (1 - u) * l) by nra.
      assert (A2 : r * l * u <= (1 - u) * l * u) by nra.
      assert (A3 : 0 < l * u * u) by nra.
      destruct B as [B|B]; nra.
    - rewrite rn_at_zero by (symmetry; exact P). lra. }
  unfold Number.mul, of_nat. fold l.
  destruct (of_exact_nonneg Hx) as [[E A]|[E A]]; [lra|].
  rewrite E. cbn [Math_floor].
  pose proof (rn_nonneg Hx) as Rn.
  assert (F0 : (0 <= Qfloor (rn (r * l)))%Z).
  { change 0%Z with (Qfloor 0). apply Qfloor_resp_le, Rn. }
  assert (F1 : (Qfloor (rn (r * l)) < Z.of_nat n)%Z).
  { rewrite Zlt_Qlt. pose proof (Qfloor_le (rn (r * l))). fold l. lra. }
  exists (Z.to_nat (Qfloor (rn (r * l)))). split; [lia|].
  rewrite Z2Nat.id by exact F0. reflexivity.
Qed.

End NumberFacts.

(* ================================================================== *)
(** * Facts about the cache object, the loader and its runs *)
(* ================================================================== *)

Section ObjectFacts.

Context {web : Browser}.

Lemma insert_index_In e l x :
  In x (insert_index e l) <-> x = e \/ In x l.
Proof.
  induction l as [|e' r IH]; simpl.
  - intuition.
  - destruct (fst e <=? fst e')%N; simpl; [intuition|].
    rewrite IH. intuition.
Qed.

Lemma sort_indices_In l x : In x (sort_indices l) <-> In x l.
Proof.
  induction l as [|e r IH]; simpl; [reflexivity|].
  rewrite insert_index_In, IH. intuition.
Qed.

Lemma index_keys_In ks n k :
  In (n, k) (index_keys ks) <-> In k ks /\ array_index k = Some n.
Proof.
  induction ks as [|k' r IH]; simpl; [intuition|].
  destruct (array_index k') as [n'|] eqn:E; simpl; rewrite IH.
  - split.
    + intros [H|[H1 H2]]; [inversion H; subst; auto | auto].
    + intros [[H|H] A]; [subst; left; congruence | auto].
  - split.
    + intros [H1 H2]; auto.
    + intros [[H|H] A]; [subst; congruence | auto].
Qed.

(** [Object.keys] lists exactly the own keys. *)
Lemma keys_In o k : In k (keys o) <-> In k (map fst (own o)).
Proof.
  unfold keys. set (ks := map fst (own o)).
  rewrite in_app_iff, filter_In, in_map_iff. unfold is_index. split.
  - intros [[[n k'] [E H]]|[H _]]; [|exact H].
    simpl in E. subst k'. apply sort_indices_In, index_keys_In in H. tauto.
  - intros H. destruct (array_index k) as [n|] eqn:E.
    + left. exists (n, k). split; [reflexivity|].
      apply sort_indices_In, index_keys_In. auto.
    + right. auto.
Qed.

Lemma keys_nil o : keys o = [] <-> own o = [].
Proof.
  split.
  - intros H. destruct (own o) as [|[k v] r] eqn:E; [reflexivity|].
    assert (A : In k (keys o)) by (apply keys_In; rewrite E; left; reflexivity).
    rewrite H in A. destruct A.
  - intros H. unfold keys. rewrite H. reflexivity.
Qed.

Lemma lookup_In k l : In k (map fst l) -> exists h, lookup k l = Some h.
Proof.
  induction l as [|[k' v] r IH]; simpl; [tauto|].
  intros [H|H].
  - subst. rewrite String.eqb_refl. eauto.
  - destruct (String.eqb k k'); eauto.
Qed.

Lemma lookup_None k l : lookup k l = None <-> ~ In k (map fst l).
Proof.
  induction l as [|[k' v] r IH]; simpl; [tauto|].
  destruct (String.eqb_spec k k') as [E|N].
  - subst. split; [discriminate | tauto].
  - rewrite IH. intuition congruence.
Qed.

Lemma store_In k v l x :
  In x (map fst (store k v l)) <-> x = k \/ In x (map fst l).
Proof.
  induction l as [|[k' v'] r IH]; simpl.
  - intuition.
  - destruct (String.eqb_spec k k') as [E|N]; simpl.
    + subst. intuition.
    + rewrite IH. intuition.
Qed.

(** The three ways [o[k] = v] can end without an exception. *)
Lemma set_cases o k v o' :
  JsObject.set o k v = Some o' ->
  (k = "__proto__" /\ o' = {| own := own o; proto := ElementPrototype v |}) \/
  (k <> "__proto__" /\ o' = {| own := store k v (own o); proto := proto o |}) \/
  (k <> "__proto__" /\ o' = o /\ lookup k (own o) = None /\
   proto o <> ObjectPrototype).
Proof.
  unfold JsObject.set. destruct (String.eqb_spec k "__proto__") as [E|N].
  - intros H. inversion H. auto.
  - destruct (lookup k (own o)) as [x|] eqn:L.
    + intros H. inversion H. auto.
    + destruct (proto o) as [|h] eqn:P.
      * intros H. inversion H. auto.
      * destruct (element_write k); intros H; inversion H; subst; auto.
        right. right. repeat split; auto. discriminate.
Qed.

(** On an object that inherits from [Object.prototype] the assignment
    never throws, and creates or updates the own property unless the name
    is [__proto__]. *)
Lemma set_plain o k v :
  proto o = ObjectPrototype ->
  JsObject.set o k v =
    Some (if String.eqb k "__proto__"
          then {| own := own o; proto := ElementPrototype v |}
          else {| own := store k v (own o); proto := proto o |}).
Proof.
  intros P. unfold JsObject.set. destruct (String.eqb k "__proto__"); [reflexivity|].
  rewrite P. destruct (lookup k (own o)); reflexivity.
Qed.

End ObjectFacts.

Section LoaderFacts.

Context {web : Browser}.

Lemma forEach_preload l : forall k i s,
  let s' := forEach_from (fun s src j => preloadImage s src (k + j)) l i s in
  elements s' = elements s ++ fresh_images l (k + i) /\ frame s s'.
Proof.
  induction l as [|x r IH]; intros k i s; cbn [forEach_from fresh_images].
  - rewrite app_nil_r. unfold frame. tauto.
  - destruct (IH k (S i) (preloadImage s x (k + i))) as [E F].
    cbv zeta in *. rewrite E. cbn [preloadImage elements].
    rewrite <- app_assoc, Nat.add_succ_r. split; [reflexivity|].
    unfold frame in *. cbn [preloadImage images loadedImages totalImages imageCache ui calls] in F.
    exact F.
Qed.

Lemma preloadAll_empty s :
  totalImages s = 0 ->
  calls (preloadAll s) = calls s ++ [OnProgress (lit 100); OnComplete JsObject.empty] /\
  elements (preloadAll s) = elements s /\
  images (preloadAll s) = images s /\ loadedImages (preloadAll s) = loadedImages s /\
  totalImages (preloadAll s) = totalImages s /\
  imageCache (preloadAll s) = imageCache s.
Proof.
  intros H. unfold preloadAll. rewrite H. cbn.
  rewrite <- app_assoc. cbn. tauto.
Qed.

Lemma preloadAll_nonempty s :
  totalImages s <> 0 ->
  elements (preloadAll s) = elements s ++ fresh_images (images s) 0 /\
  frame s (preloadAll s).
Proof.
  intros H. unfold preloadAll. apply Nat.eqb_neq in H. rewrite H.
  unfold forEach.
  exact (forEach_preload (images s) 0 0 s).
Qed.

Lemma addImages_effect s l :
  let s' := addImages s l in
  elements s' = elements s ++ fresh_images l (totalImages s) /\
  images s' = images s ++ l /\
  totalImages s' = List.length (images s ++ l) /\
  loadedImages s' = loadedImages s /\
  imageCache s' = imageCache s /\ ui s' = ui s /\ calls s' = calls s.
Proof.
  cbv zeta. unfold addImages, forEach.
  match goal with |- context [forEach_from _ l 0 ?s0] =>
    destruct (forEach_preload l (totalImages s) 0 s0) as [E F] end.
  cbv zeta in E, F. unfold frame in F.
  cbn [images loadedImages totalImages imageCache ui calls elements] in E, F.
  rewrite Nat.add_0_r in E. tauto.
Qed.

Lemma report_effect s :
  calls (report s) =
    calls s ++ OnProgress (percentage (loadedImages s) (totalImages s)) :: completion s /\
  images (report s) = images s /\ loadedImages (report s) = loadedImages s /\
  totalImages (report s) = totalImages s /\ imageCache (report s) = imageCache s /\
  elements (report s) = elements s.
Proof.
  unfold report, completion. cbn [onProgress call loadedImages totalImages].
  destruct (loadedImages s =? totalImages s); cbn; rewrite <- ?app_assoc; cbn; tauto.
Qed.

(** What a delivered event does, whichever of the two it is. *)
Lemma event_effect s a s' :
  is_event a = true -> step s a = Some s' ->
  exists h i pre,
    (a = Load h \/ a = Error h) /\
    nth_error (elements s) h = Some i /\
    (pre = [] /\ a = Load h \/ pre = [OnError (img_src i) (img_index i)] /\ a = Error h) /\
    loadedImages s' = S (loadedImages s) /\
    totalImages s' = totalImages s /\
    images s' = images s /\
    elements s' = update h (match a with Load _ => deliver_load | _ => deliver_error end) (elements s) /\
    calls s' = calls s ++
      (if returns s a
       then pre ++
            OnProgress (percentage (loadedImages s') (totalImages s'))
            :: completion s'
       else []).
Proof.
  intros Ev St. destruct a as [| l | h | h]; try discriminate; cbn [step] in St;
    destruct (nth_error (elements s) h) as [i|] eqn:N; try discriminate.
  - unfold handleImageLoad in St. cbn [returns]. rewrite N.
    cbn [set_loadedImages set_elements imageCache] in St.
    destruct (JsObject.set (imageCache s) (img_src i) h) as [c|];
      cbn [after] in St; inversion St; subst s'; clear St.
    + match goal with |- context [report ?s0] =>
        destruct (report_effect s0) as (C & I & L & T & K & E) end.
      exists h, i, []. rewrite C, I, L, T, E. unfold completion at 2. rewrite L, T, K.
      cbn. unfold completion. cbn. intuition.
    + exists h, i, []. cbn. rewrite app_nil_r. intuition.
  - inversion St; subst s'; clear St. unfold handleImageError.
    match goal with |- context [report ?s0] =>
      destruct (report_effect s0) as (C & I & L & T & K & E) end.
    exists h, i, [OnError (img_src i) (img_index i)].
    rewrite C, I, L, T, E. unfold completion at 2. rewrite L, T, K.
    cbn. unfold completion. cbn. rewrite <- app_assoc. cbn. intuition.
Qed.

(** What the cache write of a [load] event makes of the cache. *)
Lemma load_sets_cache s h s' :
  step s (Load h) = Some s' ->
  exists i, nth_error (elements s) h = Some i /\
    match JsObject.set (imageCache s) (img_src i) h with
    | Some c => imageCache s' = c
    | None => imageCache s' = imageCache s
    end /\
    imageElements s' = imageElements s /\
    ui s' =
      if returns s (Load h)
      then option_map
             (fun u => u ++ [percentage (S (loadedImages s)) (totalImages s)])
             (ui s)
      else ui s.
Proof.
  intros St. cbn [step] in St. cbn [returns].
  destruct (nth_error (elements s) h) as [i|] eqn:N; [|discriminate].
  unfold handleImageLoad in St.
  cbn [set_loadedImages set_elements imageCache] in St.
  exists i. split; [reflexivity|].
  destruct (JsObject.set (imageCache s) (img_src i) h) as [c|] eqn:E;
    cbn [after] in St; inversion St; subst s'; clear St.
  - match goal with |- context [report ?s0] =>
      destruct (report_effect s0) as (_ & _ & _ & _ & K & _) end.
    rewrite K. split; [reflexivity|]. unfold report.
    cbn [onProgress call loadedImages totalImages set_imageCache set_loadedImages
         set_elements].
    destruct (_ =? _); cbn; destruct (ui s); auto.
  - cbn. auto.
Qed.

Lemma returns_error s h : returns s (Error h) = true.
Proof. reflexivity. Qed.

(** A handler left by an exception has invoked no callback. *)
Lemma throw_keeps_calls s a s' :
  is_event a = true -> step s a = Some s' -> returns s a = false ->
  calls s' = calls s.
Proof.
  intros Ev St Re.
  destruct (@event_effect s a s' Ev St)
    as (h & i & pre & _ & _ & _ & _ & _ & _ & _ & C).
  rewrite Re, app_nil_r in C. exact C.
Qed.

(** While the cache inherits from [Object.prototype] no handler throws. *)
Lemma returns_plain s a :
  proto (imageCache s) = ObjectPrototype -> returns s a = true.
Proof.
  intros P. destruct a as [| l | h | h]; try reflexivity. cbn [returns].
  destruct (nth_error (elements s) h) as [i|]; [|reflexivity].
  rewrite (@set_plain _ (imageCache s) (img_src i) h P). reflexivity.
Qed.

End LoaderFacts.

Section RunFacts.

Context {web : Browser}.

Lemma fresh_images_length l i : List.length (fresh_images l i) = List.length l.
Proof. revert i. induction l; intros; simpl; auto. Qed.

Lemma fresh_images_src l i : map img_src (fresh_images l i) = l.
Proof. revert i. induction l; intros; simpl; f_equal; auto. Qed.

Lemma fresh_images_fired l i : list_sum (map fired (fresh_images l i)) = 0.
Proof. revert i. induction l; intros; simpl; auto. Qed.

Lemma list_sum_app' a b : list_sum (a ++ b) = list_sum a + list_sum b.
Proof. induction a; simpl; lia. Qed.

Lemma update_length h f d : List.length (update h f d) = List.length d.
Proof. revert h. induction d; intros [|h]; simpl; auto. Qed.

Lemma update_src h f d :
  (forall i, img_src (f i) = img_src i) ->
  map img_src (update h f d) = map img_src d.
Proof.
  intros Hf. revert h. induction d; intros [|h]; simpl; f_equal; auto.
Qed.

Lemma update_fired h f d i :
  nth_error d h = Some i -> fired (f i) = S (fired i) ->
  list_sum (map fired (update h f d)) = S (list_sum (map fired d)).
Proof.
  revert h. induction d as [|x r IH]; intros [|h] N F; simpl in *; try discriminate.
  - inversion N; subst. lia.
  - rewrite (IH h N F). lia.
Qed.

Lemma event_delivered s a s' :
  is_event a = true -> step s a = Some s' ->
  events_delivered s' = S (events_delivered s) /\
  List.length (elements s') = List.length (elements s) /\
  map img_src (elements s') = map img_src (elements s).
Proof.
  intros Ev St.
  destruct (@event_effect _ s a s' Ev St) as (h & i & pre & A & N & _ & _ & _ & _ & E & _).
  unfold events_delivered. rewrite E. split; [|split].
  - apply update_fired with (i := i); [exact N|].
    destruct A; subst a; unfold fired; simpl; lia.
  - apply update_length.
  - apply update_src. destruct A; subst a; reflexivity.
Qed.

Lemma constructor_consistent o : consistent (constructor o).
Proof. split; reflexivity. Qed.

Lemma step_consistent s a s' :
  consistent s -> step s a = Some s' -> consistent s'.
Proof.
  intros [T L] St. destruct a as [| l | h | h].
  - inversion St; subst s'; clear St.
    destruct (Nat.eq_dec (totalImages s) 0) as [Z|Z].
    + destruct (@preloadAll_empty s Z) as (_ & E & I & Lo & To & _).
      split; [congruence|]. unfold events_delivered. rewrite E, Lo. exact L.
    + destruct (@preloadAll_nonempty s Z) as (E & I & Lo & To & _).
      split; [congruence|]. unfold events_delivered.
      rewrite E, Lo, map_app, list_sum_app', fresh_images_fired. rewrite L.
      unfold events_delivered. lia.
  - inversion St; subst s'; clear St.
    destruct (addImages_effect s l) as (E & I & To & Lo & _).
    split; [congruence|]. unfold events_delivered.
    rewrite E, Lo, map_app, list_sum_app', fresh_images_fired. rewrite L.
    unfold events_delivered. lia.
  - destruct (@event_effect _ s (Load h) s' eq_refl St)
      as (h' & i' & pre & _ & _ & _ & Lo & To & I & _).
    destruct (@event_delivered s (Load h) s' eq_refl St) as (D & _).
    split; [congruence|]. lia.
  - destruct (@event_effect _ s (Error h) s' eq_refl St)
      as (h' & i' & pre & _ & _ & _ & Lo & To & I & _).
    destruct (@event_delivered s (Error h) s' eq_refl St) as (D & _).
    split; [congruence|]. lia.
Qed.

Lemma run_consistent t : forall s s',
  consistent s -> run s t = Some s' -> consistent s'.
Proof.
  induction t as [|a r IH]; intros s s' C R; simpl in R.
  - inversion R; subst. exact C.
  - destruct (step s a) as [s1|] eqn:St; [|discriminate].
    eapply IH; [eapply step_consistent; eauto | exact R].
Qed.

Lemma fired_once_delivered s :
  fired_once s = true -> events_delivered s = List.length (elements s).
Proof.
  unfold fired_once, events_delivered.
  induction (elements s) as [|i r IH]; simpl; [reflexivity|].
  intros H. apply andb_prop in H. destruct H as [A B].
  apply Nat.eqb_eq in A. rewrite (IH B). lia.
Qed.

Lemma fired_at_most_once_delivered s :
  fired_at_most_once s = true -> events_delivered s <= List.length (elements s).
Proof.
  unfold fired_at_most_once, events_delivered.
  induction (elements s) as [|i r IH]; simpl; [lia|].
  intros H. apply andb_prop in H. destruct H as [A B].
  apply Nat.leb_le in A. specialize (IH B). lia.
Qed.

End RunFacts.

Section EventRuns.

Context {web : Browser}.

Lemma event_run_elements t : forall s s',
  events_only t = true -> run s t = Some s' ->
  List.length (elements s') = List.length (elements s) /\
  map img_src (elements s') = map img_src (elements s).
Proof.
  induction t as [|a r IH]; intros s s' Ev R; simpl in R, Ev.
  - inversion R; subst. auto.
  - destruct (step s a) as [s1|] eqn:St; [|discriminate].
    apply andb_prop in Ev. destruct Ev as [Ea Er].
    destruct (@event_delivered _ s a s1 Ea St) as (_ & Le & Sr).
    destruct (IH s1 s' Er R) as [A B]. split; congruence.
Qed.

End EventRuns.

Section Completion.

Context {web : Browser}.

Lemma completions_calls s s' l :
  calls s' = calls s ++ l ->
  completions s' = completions s + List.length (filter is_complete l).
Proof.
  intros E. unfold completions. rewrite E, filter_app, length_app. reflexivity.
Qed.

Lemma completions_same s s' : calls s' = calls s -> completions s' = completions s.
Proof. intros E. unfold completions. rewrite E. reflexivity. Qed.

(** An event invokes [onComplete] exactly when it makes the counter
    equal to the total. *)
Lemma event_completions s a s' :
  is_event a = true -> step s a = Some s' -> returns s a = true ->
  completions s' =
    completions s + (if loadedImages s' =? totalImages s' then 1 else 0).
Proof.
  intros Ev St Re.
  destruct (@event_effect _ s a s' Ev St)
    as (h & i & pre & _ & _ & P & _ & _ & _ & _ & C).
  rewrite Re in C.
  rewrite (@completions_calls s s' _ C). f_equal.
  rewrite filter_app. unfold completion.
  assert (Z : filter is_complete pre = []).
  { destruct P as [[P _]|[P _]]; subst pre; reflexivity. }
  rewrite Z. cbn. destruct (loadedImages s' =? totalImages s'); reflexivity.
Qed.

Lemma step_completing s a s' :
  consistent s -> completing s -> step s a = Some s' ->
  is_event a || (completions s =? 0) = true ->
  returns s a = true ->
  completing s'.
Proof.
  intros [T L] K St Q Re.
  destruct (is_event a) eqn:Ev.
  - pose proof (@event_completions s a s' Ev St Re) as C.
    destruct (@event_effect _ s a s' Ev St)
      as (h & i & pre & _ & _ & _ & Lo & To & _ & _ & _).
    destruct (@event_delivered _ s a s' Ev St) as (_ & Le & _).
    destruct (Nat.eqb_spec (loadedImages s') (totalImages s')) as [E|N];
      unfold completing in *; lia.
  - cbn [orb] in Q. apply Nat.eqb_eq in Q.
    destruct K as [(_ & K1 & K2)|(K1 & _)]; [|lia].
    destruct a as [| l | h | h]; try discriminate;
      inversion St; subst s'; clear St.
    + assert (Z : totalImages s <> 0) by lia.
      destruct (@preloadAll_nonempty s Z) as (E & _ & Lo & To & _ & _ & Ca).
      left. rewrite (@completions_same _ _ Ca), Lo, To, E, length_app. lia.
    + destruct (addImages_effect s l) as (E & _ & To & Lo & _ & _ & Ca).
      left. rewrite (@completions_same _ _ Ca), Lo, To, E, !length_app.
      rewrite fresh_images_length. lia.
Qed.

Lemma run_completing t : forall s s',
  consistent s -> completing s -> run s t = Some s' ->
  quiet_after_completion s t = true ->
  handlers_return s t = true ->
  completing s'.
Proof.
  induction t as [|a r IH]; intros s s' C K R Q H; simpl in R, Q, H.
  - inversion R; subst. exact K.
  - destruct (step s a) as [s1|] eqn:St; [|discriminate].
    apply andb_prop in Q. destruct Q as [Q1 Q2].
    apply andb_prop in H. destruct H as [H1 H2].
    apply (IH s1 s'); auto.
    + eapply step_consistent; eauto.
    + eapply step_completing; eauto.
Qed.

Lemma preloadAll_completing o : completing (preloadAll (constructor o)).
Proof.
  set (s := constructor o).
  destruct (Nat.eq_dec (totalImages s) 0) as [Z|Z].
  - destruct (@preloadAll_empty s Z) as (Ca & _ & _ & Lo & To & _).
    right. rewrite (@completions_calls _ _ _ Ca), Lo, To, Z. cbn. lia.
  - destruct (@preloadAll_nonempty s Z) as (E & _ & Lo & To & _ & _ & Ca).
    left. rewrite (@completions_same _ _ Ca), Lo, To, E, length_app.
    rewrite fresh_images_length. cbn. unfold s in *. cbn in *. lia.
Qed.

End Completion.

(** C1 (as amended).  In a run that starts with [preloadAll()], in which
    the page calls neither [preloadAll] nor [addImages] once [onComplete]
    has been invoked, in which no exception leaves an event handler, and
    in which every image element fires exactly one [load] or [error]
    event, [onComplete] is invoked exactly once; and an event whose
    handler returns invokes it exactly when it makes [loadedImages] equal
    to [totalImages], while a handler left by an exception invokes no
    callback. *)
Theorem onComplete_exactly_once {web : Browser} o t s :
  run (constructor o) (PreloadAll :: t) = Some s ->
  quiet_after_completion (preloadAll (constructor o)) t = true ->
  handlers_return (preloadAll (constructor o)) t = true ->
  fired_once s = true ->
  completions s = 1 /\
  forall s1 a s2,
    is_event a = true -> step s1 a = Some s2 ->
    (returns s1 a = true ->
     completions s2 =
       completions s1 + (if loadedImages s2 =? totalImages s2 then 1 else 0)) /\
    (returns s1 a = false -> calls s2 = calls s1).
Proof.
  intros R Q H F. split.
  2:{ intros s1 a s2 Ev St. split; intros Re.
      - apply (@event_completions _ s1 a s2 Ev St Re).
      - apply (@throw_keeps_calls _ s1 a s2 Ev St Re). }
  cbn [run step] in R.
  assert (C0 : consistent (preloadAll (constructor o))).
  { apply (@step_consistent _ (constructor o) PreloadAll);
      [apply constructor_consistent | reflexivity]. }
  pose proof (@run_completing _ t _ _ C0 (preloadAll_completing o) R Q H) as K.
  destruct (@run_consistent _ t _ _ C0 R) as [_ L].
  pose proof (@fired_once_delivered s F) as D.
  destruct K as [(_ & K1 & K2)|(K1 & _)]; [lia | exact K1].
Qed.

Lemma onComplete_exactly_once_witness :
  let o := {| opt_images := Some ["a"; "b"]; opt_showUI := None |} in
  let t := [Load 1; AddImages ["c"]; Error 0; Load 2] in
  exists s,
    run (constructor o) (PreloadAll :: t) = Some s /\
    quiet_after_completion (preloadAll (constructor o)) t = true /\
    handlers_return (preloadAll (constructor o)) t = true /\
    fired_once s = true /\
    completions s = 1.
Proof.
  intros o t. eexists.
  split; [vm_compute; reflexivity|].
  split; [vm_compute; reflexivity|].
  split; [vm_compute; reflexivity|].
  split; [vm_compute; reflexivity|].
  eapply (@onComplete_exactly_once _ o t); vm_compute; reflexivity.
Defined.

(** C1 as stated fails: [addImages] after completion brings a second
    [onComplete]. *)
Lemma onComplete_twice_after_addImages :
  ~ (forall o t s,
       run (constructor o) t = Some s -> fired_once s = true ->
       completions s = 1).
Proof.
  intros H.
  assert (A : exists s,
    run (loader_of ["a"]) [PreloadAll; Load 0; AddImages ["b"]; Load 1] = Some s
    /\ fired_once s = true /\ completions s = 2).
  { eexists. split; [vm_compute; reflexivity|]. split; vm_compute; reflexivity. }
  destruct A as (s & R & F & C).
  unfold loader_of in R. specialize (H _ _ _ R F). lia.
Qed.

Section Bound.

Context {web : Browser}.

Lemma step_bounded s a s' :
  consistent s -> List.length (elements s) <= totalImages s ->
  step s a = Some s' ->
  match a with PreloadAll => List.length (elements s) =? 0 | _ => true end = true ->
  List.length (elements s') <= totalImages s'.
Proof.
  intros [T L] B St P. destruct a as [| l | h | h].
  - inversion St; subst s'; clear St. apply Nat.eqb_eq in P.
    destruct (Nat.eq_dec (totalImages s) 0) as [Z|Z].
    + destruct (@preloadAll_empty s Z) as (_ & E & _ & _ & To & _).
      rewrite E, To. exact B.
    + destruct (@preloadAll_nonempty s Z) as (E & _ & _ & To & _).
      rewrite E, To, length_app, fresh_images_length. lia.
  - inversion St; subst s'; clear St.
    destruct (addImages_effect s l) as (E & _ & To & _).
    rewrite E, To, !length_app, fresh_images_length. lia.
  - destruct (@event_effect _ s (Load h) s' eq_refl St)
      as (h' & i' & pre & _ & _ & _ & _ & To & _).
    destruct (@event_delivered _ s (Load h) s' eq_refl St) as (_ & Le & _). lia.
  - destruct (@event_effect _ s (Error h) s' eq_refl St)
      as (h' & i' & pre & _ & _ & _ & _ & To & _).
    destruct (@event_delivered _ s (Error h) s' eq_refl St) as (_ & Le & _). lia.
Qed.

Lemma run_bounded t : forall s s',
  consistent s -> List.length (elements s) <= totalImages s ->
  run s t = Some s' -> preloadAll_first s t = true ->
  List.length (elements s') <= totalImages s'.
Proof.
  induction t as [|a r IH]; intros s s' C B R P; simpl in R, P.
  - inversion R; subst. exact B.
  - destruct (step s a) as [s1|] eqn:St; [|discriminate].
    apply andb_prop in P. destruct P as [P1 P2].
    apply (IH s1 s'); auto.
    + eapply step_consistent; eauto.
    + eapply step_bounded; eauto.
Qed.

End Bound.

(** C5 (as amended).  In every run in which [preloadAll] is called only
    while no image element exists yet, and in which every image element
    fires at most one [load] or [error] event, [loadedImages] never exceeds
    [totalImages]; [addImages] may be called at any time. *)
Theorem loadedImages_le_totalImages {web : Browser} o t s :
  run (constructor o) t = Some s ->
  preloadAll_first (constructor o) t = true ->
  fired_at_most_once s = true ->
  loadedImages s <= totalImages s.
Proof.
  intros R P F.
  pose proof (constructor_consistent o) as C0.
  assert (B0 : List.length (elements (constructor o)) <= totalImages (constructor o))
    by (cbn; lia).
  pose proof (@run_bounded _ t _ _ C0 B0 R P) as B.
  destruct (@run_consistent _ t _ _ C0 R) as [_ L].
  pose proof (@fired_at_most_once_delivered s F). lia.
Qed.

Lemma loadedImages_le_totalImages_witness :
  let o := {| opt_images := Some ["a"; "b"]; opt_showUI := None |} in
  let t := [PreloadAll; Load 1; AddImages ["c"; "a"]; Error 3; Load 2] in
  exists s,
    run (constructor o) t = Some s /\
    preloadAll_first (constructor o) t = true /\
    fired_at_most_once s = true /\
    loadedImages s <= totalImages s.
Proof.
  intros o t. eexists.
  split; [vm_compute; reflexivity|].
  split; [vm_compute; reflexivity|].
  split; [vm_compute; reflexivity|].
  eapply (@loadedImages_le_totalImages _ o t); vm_compute; reflexivity.
Defined.

(** C5 as stated fails: a second [preloadAll()] creates a second element
    for every URL, and the counter passes the total. *)
Lemma loadedImages_exceeds_totalImages :
  ~ (forall o t s,
       run (constructor o) t = Some s -> fired_at_most_once s = true ->
       loadedImages s <= totalImages s).
Proof.
  intros H.
  assert (A : exists s,
    run (loader_of ["a"]) [PreloadAll; PreloadAll; Load 0; Load 1] = Some s
    /\ fired_at_most_once s = true /\ loadedImages s = 2 /\ totalImages s = 1).
  { eexists. split; [vm_compute; reflexivity|].
    repeat split; vm_compute; reflexivity. }
  destruct A as (s & R & F & L & T).
  unfold loader_of in R. specialize (H _ _ _ R F). lia.
Qed.

Section Progress.

Context {web : Browser}.

Lemma percentages_app a b : percentages (a ++ b) = percentages a ++ percentages b.
Proof.
  induction a as [|c r IH]; simpl; [reflexivity|].
  destruct c; simpl; rewrite IH; reflexivity.
Qed.

Lemma percentages_completion s : percentages (completion s) = [].
Proof. unfold completion. destruct (_ =? _); reflexivity. Qed.

(** An event gives [onProgress] one value, computed from the counter it
    has just incremented. *)
Lemma event_progress s a s' :
  is_event a = true -> step s a = Some s' -> returns s a = true ->
  progress_values s' =
    progress_values s ++ [percentage (S (loadedImages s)) (totalImages s)].
Proof.
  intros Ev St Re.
  destruct (@event_effect _ s a s' Ev St)
    as (h & i & pre & _ & _ & P & Lo & To & _ & _ & C).
  rewrite Re in C. unfold progress_values. rewrite C, !percentages_app. cbn [percentages].
  rewrite percentages_completion, Lo, To.
  destruct P as [[P _]|[P _]]; subst pre; reflexivity.
Qed.

Lemma run_events_progress t : forall s s',
  events_only t = true -> run s t = Some s' ->
  handlers_return s t = true ->
  progress_values s = progress_upto (totalImages s) (loadedImages s) ->
  totalImages s' = totalImages s /\
  progress_values s' = progress_upto (totalImages s') (loadedImages s').
Proof.
  induction t as [|a r IH]; intros s s' Ev R H P; simpl in R, Ev, H.
  - inversion R; subst. auto.
  - destruct (step s a) as [s1|] eqn:St; [|discriminate].
    apply andb_prop in Ev. destruct Ev as [Ea Er].
    apply andb_prop in H. destruct H as [Ha Hr].
    destruct (@event_effect _ s a s1 Ea St)
      as (h & i & pre & _ & _ & _ & Lo & To & _).
    destruct (IH s1 s' Er R Hr) as [T1 P1].
    + rewrite (@event_progress s a s1 Ea St Ha), P, Lo, To.
      unfold progress_upto. rewrite seq_S, map_app. reflexivity.
    + split; [congruence | exact P1].
Qed.

Lemma nondecreasing_snoc l x :
  nondecreasing l -> (forall p, In p l -> Number.le p x) ->
  nondecreasing (l ++ [x]).
Proof.
  induction l as [|p r IH]; intros N H; cbn [app nondecreasing]; [auto|].
  destruct N as [N1 N2]. split.
  - destruct r as [|q r']; cbn [app]; [apply H; left; reflexivity | exact N1].
  - apply IH; [exact N2|]. intros y I. apply H. right. exact I.
Qed.

(** Whether its handler returns or throws, an event keeps the reported
    percentages in order: each was computed from a value of the counter,
    which only grows. *)
Lemma step_progress_counted s a s' :
  is_event a = true -> step s a = Some s' -> 0 < totalImages s ->
  nondecreasing (progress_values s) -> progress_counted s ->
  nondecreasing (progress_values s') /\ progress_counted s' /\
  totalImages s' = totalImages s.
Proof.
  intros Ev St Hn N G.
  destruct (@event_effect _ s a s' Ev St)
    as (h & i & pre & _ & _ & _ & Lo & To & _).
  destruct (returns s a) eqn:Re.
  - rewrite (@event_progress s a s' Ev St Re).
    split; [|split; [|exact To]].
    + apply nondecreasing_snoc; [exact N|]. intros p I.
      destruct (G p I) as (j & Hj & E). subst p.
      apply percentage_mono; [lia | exact Hn].
    + intros p I. unfold progress_counted in G.
      rewrite (@event_progress s a s' Ev St Re) in I.
      apply in_app_or in I. destruct I as [I|[I|[]]].
      * destruct (G p I) as (j & Hj & E). exists j. rewrite Lo, To. split; [lia | exact E].
      * exists (S (loadedImages s)). rewrite Lo, To. split; [lia | auto].
  - pose proof (@throw_keeps_calls _ s a s' Ev St Re) as C.
    unfold progress_counted, progress_values in *. rewrite C.
    split; [exact N|]. split; [|exact To].
    intros p I. destruct (G p I) as (j & Hj & E). exists j.
    rewrite Lo, To. split; [lia | exact E].
Qed.

Lemma run_progress_counted t : forall s s',
  events_only t = true -> run s t = Some s' -> 0 < totalImages s ->
  nondecreasing (progress_values s) -> progress_counted s ->
  nondecreasing (progress_values s') /\ progress_counted s' /\
  totalImages s' = totalImages s.
Proof.
  induction t as [|a r IH]; intros s s' Ev R Hn N G; simpl in R, Ev.
  - inversion R; subst. auto.
  - destruct (step s a) as [s1|] eqn:St; [|discriminate].
    apply andb_prop in Ev. destruct Ev as [Ea Er].
    destruct (@step_progress_counted s a s1 Ea St Hn N G) as (N1 & G1 & T1).
    destruct (IH s1 s' Er R) as (N2 & G2 & T2); auto; [lia|].
    repeat split; auto. congruence.
Qed.

Lemma progress_upto_nondecreasing n : 0 < n -> forall k i,
  nondecreasing (map (fun j => percentage j n) (seq i k)).
Proof.
  intros Hn. induction k as [|k IH]; intros i; cbn [seq map nondecreasing]; [exact I|].
  split; [|apply IH].
  destruct k; cbn [seq map]; [exact I|].
  apply percentage_mono; [lia | exact Hn].
Qed.

Lemma no_event_without_elements s t s' :
  elements s = [] -> events_only t = true -> run s t = Some s' -> s' = s.
Proof.
  intros E Ev R. destruct t as [|a r]; simpl in *.
  - inversion R. reflexivity.
  - apply andb_prop in Ev. destruct Ev as [Ea _].
    destruct a; try discriminate; cbn [step] in R; rewrite E in R;
      destruct img; discriminate.
Qed.

End Progress.

(** C9 (as amended).  In a run made of one [preloadAll()] and events
    only, the percentages given to [onProgress] never decrease; with at
    least one image the first is [round(1/N*100)] or more; and once every
    image element has fired exactly one event, in a run in which no
    exception has left an event handler, the last is 100. *)
Theorem progress_nondecreasing {web : Browser} o t s :
  run (constructor o) (PreloadAll :: t) = Some s ->
  events_only t = true ->
  nondecreasing (progress_values s) /\
  (0 < totalImages (constructor o) ->
   forall p, hd_error (progress_values s) = Some p ->
     Number.le (percentage 1 (totalImages (constructor o))) p) /\
  (fired_once s = true ->
   handlers_return (preloadAll (constructor o)) t = true ->
   forall d, last (progress_values s) d = lit 100).
Proof.
  intros R Ev. cbn [run step] in R.
  set (s0 := constructor o) in *.
  assert (C0 : consistent (preloadAll s0)).
  { apply (@step_consistent _ s0 PreloadAll);
      [apply constructor_consistent | reflexivity]. }
  destruct (Nat.eq_dec (totalImages s0) 0) as [Z|Z].
  - destruct (@preloadAll_empty s0 Z) as (Ca & E & _).
    assert (S0 : s = preloadAll s0).
    { apply (@no_event_without_elements _ (preloadAll s0) t s); auto. }
    assert (P : progress_values s = [lit 100]).
    { subst s. unfold progress_values. rewrite Ca. reflexivity. }
    rewrite P. split; [cbn; auto|]. split; [lia|]. reflexivity.
  - destruct (@preloadAll_nonempty s0 Z) as (E & _ & Lo & To & _ & _ & Ca).
    assert (P0 : progress_values (preloadAll s0)
                 = progress_upto (totalImages (preloadAll s0))
                     (loadedImages (preloadAll s0))).
    { unfold progress_values. rewrite Ca, Lo. reflexivity. }
    assert (Hn : 0 < totalImages s0) by lia.
    assert (V0 : progress_values (preloadAll s0) = []).
    { unfold progress_values. rewrite Ca. reflexivity. }
    destruct (@run_progress_counted _ t (preloadAll s0) s Ev R) as (Nd & G & T0).
    { rewrite To. exact Hn. }
    { rewrite V0. exact I. }
    { intros p Ip. rewrite V0 in Ip. destruct Ip. }
    rewrite To in T0.
    split; [exact Nd|]. split.
    + intros _ p H.
      assert (Ip : In p (progress_values s)).
      { destruct (progress_values s); [discriminate|].
        inversion H; subst. left. reflexivity. }
      destruct (G p Ip) as (j & Hj & Ej). subst p. rewrite T0.
      apply percentage_mono; [lia | exact Hn].
    + intros F H d.
      destruct (@run_events_progress _ t _ _ Ev R H P0) as [T P].
      rewrite To in T. rewrite P, T. unfold progress_upto.
      destruct (@run_consistent _ t _ _ C0 R) as [_ L].
      pose proof (@fired_once_delivered s F) as D.
      destruct (@event_run_elements _ t _ _ Ev R) as [Le _].
      rewrite E, length_app, fresh_images_length in Le.
      assert (N : loadedImages s = totalImages s0).
      { unfold s0 in *. cbn in *. lia. }
      rewrite N. destruct (totalImages s0) as [|n]; [lia|].
      rewrite seq_S, map_app. cbn [map]. rewrite last_last.
      apply percentage_full. lia.
Qed.

Lemma progress_nondecreasing_witness :
  let o := {| opt_images := Some ["a"; "b"; "c"]; opt_showUI := None |} in
  let t := [Load 2; Error 0; Load 1] in
  exists s,
    run (constructor o) (PreloadAll :: t) = Some s /\
    events_only t = true /\
    progress_values s = [lit 33; lit 67; lit 100] /\
    nondecreasing (progress_values s).
Proof.
  intros o t. eexists.
  split; [vm_compute; reflexivity|].
  split; [reflexivity|].
  split; [vm_compute; reflexivity|].
  refine (proj1 (@progress_nondecreasing _ o t _ _ _));
    [vm_compute; reflexivity | reflexivity].
Defined.

(** C9 as stated fails in two ways: before the last image has fired the
    sequence ends below 100; and with no image it is [100] alone, while
    [round(1/0*100)] is [Infinity]. *)
Lemma progress_short_of_100 :
  (exists s,
     run (loader_of ["a"; "b"]) [PreloadAll; Load 0] = Some s /\
     events_only [Load 0] = true /\
     progress_values s = [lit 50] /\
     last (progress_values s) (lit 0) <> lit 100) /\
  (exists s,
     run (loader_of []) [PreloadAll] = Some s /\
     hd_error (progress_values s) = Some (lit 100) /\
     percentage 1 (totalImages (loader_of [])) = PosInfinity /\
     ~ Number.le (percentage 1 (totalImages (loader_of []))) (lit 100)).
Proof.
  split.
  - eexists. split; [vm_compute; reflexivity|]. split; [reflexivity|].
    split; [vm_compute; reflexivity|]. vm_compute. discriminate.
  - eexists. split; [vm_compute; reflexivity|].
    split; [vm_compute; reflexivity|]. split; [vm_compute; reflexivity|].
    vm_compute. auto.
Qed.

Section Requests.

Context {web : Browser}.

Lemma run_requested t : forall s s',
  consistent s -> run s t = Some s' ->
  map img_src (elements s') = map img_src (elements s) ++ requested (images s) t.
Proof.
  induction t as [|a r IH]; intros s s' C R; simpl in R.
  - inversion R; subst. cbn. rewrite app_nil_r. reflexivity.
  - destruct (step s a) as [s1|] eqn:St; [|discriminate].
    pose proof (@step_consistent _ s a s1 C St) as C1.
    rewrite (IH s1 s' C1 R). destruct C as [T _].
    destruct a as [| l | h | h]; cbn [requested].
    + inversion St; subst s1; clear St.
      destruct (Nat.eq_dec (totalImages s) 0) as [Z|Z].
      * destruct (@preloadAll_empty s Z) as (_ & E & I & _).
        rewrite E, I. rewrite Z in T. symmetry in T.
        apply length_zero_iff_nil in T. rewrite T. reflexivity.
      * destruct (@preloadAll_nonempty s Z) as (E & I & _).
        rewrite E, I, map_app, fresh_images_src, app_assoc. reflexivity.
    + inversion St; subst s1; clear St.
      destruct (addImages_effect s l) as (E & I & _).
      rewrite E, I, map_app, fresh_images_src, app_assoc. reflexivity.
    + destruct (@event_effect _ s (Load h) s1 eq_refl St)
        as (h' & i' & pre & _ & _ & _ & _ & _ & I & _).
      destruct (@event_delivered _ s (Load h) s1 eq_refl St) as (_ & _ & Sr).
      rewrite Sr, I. reflexivity.
    + destruct (@event_effect _ s (Error h) s1 eq_refl St)
        as (h' & i' & pre & _ & _ & _ & _ & _ & I & _).
      destruct (@event_delivered _ s (Error h) s1 eq_refl St) as (_ & _ & Sr).
      rewrite Sr, I. reflexivity.
Qed.

Lemma preloadAll_constructor o :
  elements (preloadAll (constructor o)) = fresh_images (images (constructor o)) 0.
Proof.
  set (s := constructor o).
  destruct (Nat.eq_dec (totalImages s) 0) as [Z|Z].
  - destruct (@preloadAll_empty s Z) as (_ & E & _). rewrite E.
    assert (I : images s = []).
    { apply length_zero_iff_nil. destruct (constructor_consistent o) as [T _].
      fold s in T. lia. }
    rewrite I. reflexivity.
  - destruct (@preloadAll_nonempty s Z) as (E & _). rewrite E. reflexivity.
Qed.

End Requests.

(** C8 (as amended).  [preloadAll()] on a new loader creates exactly one
    image element per list entry, in order, duplicates included; no event
    handler creates an element, so the loader never retries a failed load
    by itself; over a whole run the elements created are exactly the
    entries the page asked for through [preloadAll] and [addImages] (a
    URL that failed is fetched again only when the page asks again). *)
Theorem one_element_per_requested_entry {web : Browser} o t s :
  run (constructor o) t = Some s ->
  elements (preloadAll (constructor o))
    = fresh_images (images (constructor o)) 0 /\
  (forall a s', is_event a = true -> step s a = Some s' ->
     map img_src (elements s') = map img_src (elements s)) /\
  map img_src (elements s) = requested (images (constructor o)) t.
Proof.
  intros R. split; [apply preloadAll_constructor|]. split.
  - intros a s' Ev St. apply (@event_delivered _ s a s' Ev St).
  - apply (@run_requested _ t _ _ (constructor_consistent o) R).
Qed.

Lemma one_element_per_requested_entry_witness :
  let o := {| opt_images := Some ["a"; "a"; "b"]; opt_showUI := None |} in
  let t := [PreloadAll; Error 0; Load 1; AddImages ["c"]; Error 2] in
  exists s,
    run (constructor o) t = Some s /\
    map img_src (elements s) = ["a"; "a"; "b"; "c"].
Proof.
  intros o t. eexists. split; [vm_compute; reflexivity|].
  eapply (@one_element_per_requested_entry _ o t). vm_compute; reflexivity.
Defined.

(** C8 as stated fails: after the load of a URL has failed, [addImages]
    with that URL (or a second [preloadAll()]) fetches it again. *)
Lemma failed_url_fetched_again :
  ~ (forall o t s a s' u,
       run (constructor o) t = Some s -> failed_url s u ->
       step s a = Some s' -> fetches s' u = fetches s u).
Proof.
  intros H.
  assert (A : exists s s',
    run (loader_of ["a"]) [PreloadAll; Error 0] = Some s /\
    failed_url s "a" /\
    step s (AddImages ["a"]) = Some s' /\
    fetches s "a" = 1 /\ fetches s' "a" = 2).
  { eexists. eexists. split; [vm_compute; reflexivity|]. split.
    - eexists. split; [left; reflexivity|]. split; [reflexivity|]. cbn. lia.
    - split; [vm_compute; reflexivity|]. split; vm_compute; reflexivity. }
  destruct A as (s & s' & R & F & St & F1 & F2).
  unfold loader_of in R. specialize (H _ _ _ _ _ _ R F St). lia.
Qed.

Section ArrayFacts.

Lemma array_set_length a i v : i < List.length (array_set a i v).
Proof.
  unfold array_set. destruct (Nat.ltb_spec i (List.length a)) as [H|H].
  - rewrite length_app, firstn_length_le by lia. cbn [List.length].
    rewrite length_skipn. lia.
  - rewrite !length_app, repeat_length. cbn. lia.
Qed.

Lemma array_set_grows a i v : List.length a <= List.length (array_set a i v).
Proof.
  unfold array_set. destruct (Nat.ltb_spec i (List.length a)) as [H|H].
  - rewrite length_app, firstn_length_le by lia. cbn [List.length].
    rewrite length_skipn. lia.
  - rewrite !length_app. lia.
Qed.

Lemma array_set_same a i v : nth_error (array_set a i v) i = Some (Some v).
Proof.
  unfold array_set. destruct (Nat.ltb_spec i (List.length a)) as [H|H].
  - rewrite nth_error_app2 by (rewrite firstn_length_le; lia).
    rewrite firstn_length_le by lia. rewrite Nat.sub_diag. reflexivity.
  - rewrite nth_error_app2 by lia.
    rewrite nth_error_app2 by (rewrite repeat_length; lia).
    rewrite repeat_length, Nat.sub_diag. reflexivity.
Qed.

Lemma array_set_below a i v j :
  j < i -> j < List.length a ->
  nth_error (array_set a i v) j = nth_error a j.
Proof.
  intros Hj Hl. unfold array_set.
  destruct (Nat.ltb_spec i (List.length a)) as [H|H].
  - rewrite nth_error_app1 by (rewrite firstn_length_le; lia).
    rewrite nth_error_firstn.
    destruct (Nat.ltb_spec j i); [reflexivity | lia].
  - apply nth_error_app1. exact Hl.
Qed.

Lemma forEach_imageElements_below l : forall k i s m,
  m < k + i -> m < List.length (imageElements s) ->
  let s' := forEach_from (fun s src j => preloadImage s src (k + j)) l i s in
  nth_error (imageElements s') m = nth_error (imageElements s) m /\
  m < List.length (imageElements s').
Proof.
  induction l as [|x r IH]; intros k i s m Hm Hl; cbn [forEach_from]; cbv zeta.
  - auto.
  - destruct (IH k (S i) (preloadImage s x (k + i)) m ltac:(lia)) as [A B].
    + cbn [preloadImage imageElements].
      pose proof (array_set_grows (imageElements s) (k + i) (List.length (elements s))).
      lia.
    + cbv zeta in A. rewrite A. split; [|exact B].
      cbn [preloadImage imageElements]. apply array_set_below; assumption.
Qed.

(** The element created for the [j]-th entry is stored in
    [imageElements] at the index the handler was given. *)
Lemma forEach_imageElements l : forall k i s j,
  j < List.length l ->
  nth_error
    (imageElements
       (forEach_from (fun s src j => preloadImage s src (k + j)) l i s))
    (k + i + j)
  = Some (Some (List.length (elements s) + j)).
Proof.
  induction l as [|x r IH]; intros k i s j Hj; cbn [List.length] in Hj; [lia|].
  cbn [forEach_from]. destruct j as [|j].
  - destruct (@forEach_imageElements_below r k (S i) (preloadImage s x (k + i))
                (k + i) ltac:(lia)) as [A _].
    + cbn [preloadImage imageElements]. apply array_set_length.
    + cbv zeta in A. rewrite !Nat.add_0_r, A.
      cbn [preloadImage imageElements]. apply array_set_same.
  - replace (k + i + S j) with (k + S i + j) by lia.
    rewrite IH by lia. cbn [preloadImage elements].
    rewrite length_app. cbn. do 2 f_equal. lia.
Qed.

End ArrayFacts.

(** C10.  In every state of a run, [addImages(l)] adds the length of [l]
    to [totalImages], appends [l] to [images], creates exactly one image
    element per entry of [l], in order, with the indices
    [totalImages], [totalImages + 1], ... of before the call (and stores
    it in [imageElements] there), and leaves [loadedImages], the image
    cache and the callbacks alone. *)
Theorem addImages_appends {web : Browser} o t s l :
  run (constructor o) t = Some s ->
  let s' := addImages s l in
  totalImages s' = totalImages s + List.length l /\
  images s' = images s ++ l /\
  elements s' = elements s ++ fresh_images l (totalImages s) /\
  (forall j, j < List.length l ->
     nth_error (imageElements s') (totalImages s + j)
     = Some (Some (List.length (elements s) + j))) /\
  loadedImages s' = loadedImages s /\
  imageCache s' = imageCache s /\
  calls s' = calls s.
Proof.
  intros R. cbv zeta.
  destruct (@run_consistent _ t _ _ (constructor_consistent o) R) as [T _].
  destruct (addImages_effect s l) as (E & I & To & Lo & Ca & _ & Cl).
  cbv zeta in *.
  split; [rewrite To, length_app; lia|].
  split; [exact I|]. split; [exact E|].
  split; [|tauto].
  intros j Hj. unfold addImages, forEach.
  match goal with |- context [forEach_from _ l 0 ?s0] =>
    pose proof (@forEach_imageElements l (totalImages s) 0 s0 j Hj) as A end.
  rewrite Nat.add_0_r in A. exact A.
Qed.

Lemma addImages_appends_witness :
  let o := {| opt_images := Some ["a"; "b"]; opt_showUI := None |} in
  let t := [PreloadAll; Load 1] in
  exists s,
    run (constructor o) t = Some s /\
    totalImages (addImages s ["c"; "d"]) = totalImages s + 2.
Proof.
  intros o t. eexists. split; [vm_compute; reflexivity|].
  refine (proj1 (@addImages_appends _ o t _ ["c"; "d"] _)).
  vm_compute; reflexivity.
Defined.

(** C3.  In a state of a run whose image list is empty, [preloadAll()]
    invokes [onProgress(100)] and then [onComplete] with an empty object,
    and creates no image element; and [getLoadingProgress()] is 100
    whenever [totalImages] is 0. *)
Theorem zero_images {web : Browser} o t s :
  run (constructor o) t = Some s ->
  images s = [] ->
  calls (preloadAll s)
    = calls s ++ [OnProgress (lit 100); OnComplete JsObject.empty] /\
  elements (preloadAll s) = elements s /\
  getLoadingProgress s = lit 100 /\
  (forall s0, totalImages s0 = 0 -> getLoadingProgress s0 = lit 100).
Proof.
  intros R I.
  destruct (@run_consistent _ t _ _ (constructor_consistent o) R) as [T _].
  assert (Z : totalImages s = 0) by (rewrite T, I; reflexivity).
  destruct (@preloadAll_empty s Z) as (Ca & E & _).
  split; [exact Ca|]. split; [exact E|].
  assert (G : forall s0, totalImages s0 = 0 -> getLoadingProgress s0 = lit 100).
  { intros s0 Z0. unfold getLoadingProgress. rewrite Z0. reflexivity. }
  split; [apply G, Z | exact G].
Qed.

Lemma zero_images_witness :
  let o := {| opt_images := None; opt_showUI := Some false |} in
  exists s,
    run (constructor o) [PreloadAll] = Some s /\
    images s = [] /\
    getLoadingProgress s = lit 100.
Proof.
  intros o. eexists. split; [vm_compute; reflexivity|].
  split; [reflexivity|].
  refine (proj1 (proj2 (proj2 (@zero_images _ o [PreloadAll] _ _ _))));
    vm_compute; reflexivity.
Defined.




Section CacheFacts.

Local Open Scope Q_scope.

(** With a non-empty cache the drawn index selects one of its keys. *)
Lemma random_key s r :
  representable r -> 0 <= r -> r < 1 ->
  (Z.of_nat (List.length (keys (imageCache s))) < 2 ^ 32)%Z ->
  keys (imageCache s) <> [] ->
  exists k,
    In k (keys (imageCache s)) /\
    at_index (keys (imageCache s))
      (randomIndex r (keys (imageCache s))) = Some k.
Proof.
  intros Hr H0 H1 Hb Hne.
  set (ks := keys (imageCache s)) in *.
  assert (Hn : (0 < List.length ks)%nat).
  { destruct ks; [congruence | cbn; lia]. }
  destruct (random_index_bound Hr H0 H1 Hn Hb) as (i & Hi & E).
  unfold randomIndex, at_index. rewrite E, as_index_of_nat.
  destruct (nth_error ks i) as [k|] eqn:N.
  - exists k. split; [eapply nth_error_In; eauto | reflexivity].
  - apply nth_error_None in N. lia.
Qed.

End CacheFacts.

(** C6.  For every value [Math.random()] can return (a Number in
    [0, 1)), [getRandomImage()] and [getRandomImageURL()] return [null]
    exactly when the cache has no own key; otherwise the drawn index is
    within the key list, [getRandomImageURL()] returns a key of the cache
    and [getRandomImage()] the element stored under that key.  The key
    list is an array, hence shorter than [2^32]. *)
Theorem random_image_from_cache s r :
  representable r -> (0 <= r)%Q -> (r < 1)%Q ->
  (Z.of_nat (List.length (keys (imageCache s))) < 2 ^ 32)%Z ->
  (getRandomImage s r = Null <-> own (imageCache s) = []) /\
  (getRandomImageURL s r = Null <-> own (imageCache s) = []) /\
  (own (imageCache s) <> [] ->
   exists k h,
     In k (keys (imageCache s)) /\
     lookup k (own (imageCache s)) = Some h /\
     getRandomImageURL s r = Str k /\
     getRandomImage s r = Image h).
Proof.
  intros Hr H0 H1 Hb.
  pose proof (random_key s Hr H0 H1 Hb) as RK.
  pose proof (keys_In (imageCache s)) as KI.
  unfold getRandomImage, getRandomImageURL.
  destruct (keys (imageCache s)) as [|k0 ks] eqn:K.
  - assert (E : own (imageCache s) = []) by (apply keys_nil, K).
    cbn. repeat split; auto. intros N. contradiction.
  - assert (NE : own (imageCache s) <> []).
    { intros E. apply keys_nil in E. congruence. }
    destruct (RK ltac:(discriminate)) as (k & Ik & At).
    cbn [List.length Nat.eqb]. rewrite At.
    assert (Io : In k (map fst (own (imageCache s)))).
    { apply KI. exact Ik. }
    destruct (lookup_In _ _ Io) as (h & L).
    unfold get. rewrite L.
    split; [split; [discriminate | contradiction]|].
    split; [split; [discriminate | contradiction]|].
    intros _. exists k, h. auto.
Qed.

Lemma random_image_from_cache_witness :
  exists s,
    run (loader_of ["a"; "7"; "b"]) [PreloadAll; Load 0; Load 2; Load 1] = Some s /\
    representable (3 # 4) /\ (0 <= 3 # 4)%Q /\ (3 # 4 < 1)%Q /\
    (Z.of_nat (List.length (keys (imageCache s))) < 2 ^ 32)%Z /\
    keys (imageCache s) = ["7"; "a"; "b"] /\
    getRandomImageURL s (3 # 4) = Str "b" /\
    (getRandomImage s (3 # 4) = Null <-> own (imageCache s) = []).
Proof.
  eexists. split; [vm_compute; reflexivity|].
  split; [vm_compute; reflexivity|].
  split; [vm_compute; discriminate|].
  split; [vm_compute; reflexivity|].
  split; [vm_compute; reflexivity|].
  split; [vm_compute; reflexivity|].
  split; [vm_compute; reflexivity|].
  refine (proj1 (@random_image_from_cache _ (3 # 4) _ _ _ _));
    [vm_compute; reflexivity | vm_compute; discriminate
    | vm_compute; reflexivity | vm_compute; reflexivity].
Defined.

Section CacheKeys.

Context {web : Browser}.

Lemma loaded_in_fresh d l j u :
  loaded_in (d ++ fresh_images l j) u <-> loaded_in d u.
Proof.
  split.
  - intros (i & I & S & L). apply in_app_or in I. destruct I as [I|I].
    + exists i. auto.
    + exfalso. revert j I. induction l as [|x r IH]; intros j I; cbn in I; [tauto|].
      destruct I as [I|I]; [subst i; cbn in L; lia | eauto].
  - intros (i & I & S & L). exists i. split; [apply in_or_app; auto | auto].
Qed.

Lemma loaded_in_error d h u :
  loaded_in (update h deliver_error d) u <-> loaded_in d u.
Proof.
  revert h. induction d as [|x r IH]; intros [|h]; cbn [update]; try tauto.
  - split; intros (i & [I|I] & S & L).
    + subst i. exists x. cbn in *. auto.
    + exists i. cbn. auto.
    + subst i. exists (deliver_error x). cbn. auto.
    + exists i. cbn. auto.
  - split; intros (i & [I|I] & S & L).
    + exists i. cbn. auto.
    + destruct (proj1 (IH h)) as (i' & I' & S' & L'); [exists i; auto|].
      exists i'. cbn. auto.
    + exists i. cbn. auto.
    + destruct (proj2 (IH h)) as (i' & I' & S' & L'); [exists i; auto|].
      exists i'. cbn. auto.
Qed.

Lemma loaded_in_load d : forall h i u,
  nth_error d h = Some i ->
  loaded_in (update h deliver_load d) u <-> loaded_in d u \/ u = img_src i.
Proof.
  induction d as [|x r IH]; intros [|h] i u N; cbn in N; try discriminate.
  - inversion N; subst x. cbn [update]. split.
    + intros (j & [I|I] & S & L).
      * subst j. right. cbn in S. auto.
      * left. exists j. cbn. auto.
    + intros [(j & [I|I] & S & L)|E].
      * subst j. exists (deliver_load i). cbn. split; [auto|]. split; [auto | lia].
      * exists j. cbn. auto.
      * exists (deliver_load i). cbn. split; [auto|]. split; [auto | lia].
  - cbn [update]. specialize (IH h i u N). split.
    + intros (j & [I|I] & S & L).
      * left. exists j. cbn. auto.
      * destruct (proj1 IH) as [(j' & I' & S' & L')|E]; [exists j; auto | |auto].
        left. exists j'. cbn. auto.
    + intros [(j & [I|I] & S & L)|E].
      * exists j. cbn. auto.
      * destruct (proj2 IH) as (j' & I' & S' & L'); [left; exists j; auto|].
        exists j'. cbn. auto.
      * destruct (proj2 IH) as (j' & I' & S' & L'); [right; auto|].
        exists j'. cbn. auto.
Qed.

(** [handleImageError] reports the URL and index of its element and
    leaves the cache alone. *)
Lemma error_keeps_cache s h s' :
  step s (Error h) = Some s' ->
  imageCache s' = imageCache s /\
  exists i, nth_error (elements s) h = Some i /\
    In (OnError (img_src i) (img_index i)) (calls s').
Proof.
  intros St. cbn [step] in St.
  destruct (nth_error (elements s) h) as [i|] eqn:N; [|discriminate].
  inversion St; subst s'; clear St. unfold handleImageError.
  match goal with |- context [report ?s0] =>
    destruct (report_effect s0) as (C & _ & _ & _ & K & _) end.
  rewrite K, C. cbn. split; [reflexivity|].
  exists i. split; [reflexivity|].
  apply in_or_app. left. apply in_or_app. right. left. reflexivity.
Qed.

Lemma set_own o k v o' x :
  JsObject.set o k v = Some o' ->
  In x (map fst (own o')) ->
  In x (map fst (own o)) \/ (x = k /\ k <> "__proto__").
Proof.
  intros H I.
  destruct (set_cases _ _ _ H) as [[E O]|[[N O]|[N [O _]]]]; subst o'; cbn in I; auto.
  apply store_In in I. tauto.
Qed.

(** An object that inherits from [Object.prototype] after the write
    did so before it, and the write was not to [__proto__]: it stored
    the key. *)
Lemma set_keeps_plain o k v o' :
  JsObject.set o k v = Some o' -> proto o' = ObjectPrototype ->
  proto o = ObjectPrototype /\ k <> "__proto__" /\
  own o' = store k v (own o).
Proof.
  intros H P.
  destruct (set_cases _ _ _ H) as [[E O]|[[N O]|[N [O [_ Q]]]]]; subst o'.
  - discriminate.
  - cbn in *. auto.
  - contradiction.
Qed.

Lemma step_keys_are_loaded s a s' :
  keys_are_loaded s -> step s a = Some s' -> keys_are_loaded s'.
Proof.
  intros G St k. destruct a as [| l | h | h].
  - inversion St; subst s'; clear St.
    destruct (Nat.eq_dec (totalImages s) 0) as [Z|Z].
    + destruct (@preloadAll_empty s Z) as (_ & E & _ & _ & _ & Ca).
      rewrite E, Ca. apply G.
    + destruct (@preloadAll_nonempty s Z) as (E & _ & _ & _ & Ca & _).
      rewrite E, Ca, loaded_in_fresh. apply G.
  - inversion St; subst s'; clear St.
    destruct (addImages_effect s l) as (E & _ & _ & _ & Ca & _).
    rewrite E, Ca, loaded_in_fresh. apply G.
  - destruct (@load_sets_cache _ s h s' St) as (i & N & Se & _).
    destruct (@event_effect _ s (Load h) s' eq_refl St)
      as (h' & i' & pre & A & _ & _ & _ & _ & _ & E & _).
    assert (h' = h) by (destruct A as [A|A]; inversion A; reflexivity).
    subst h'. cbv beta iota in E.
    rewrite E, (loaded_in_load _ _ k N).
    destruct (G k) as [G1 G2].
    destruct (JsObject.set (imageCache s) (img_src i) h) as [c|] eqn:W.
    + rewrite Se. split.
      * intros I. destruct (set_own _ _ _ _ W I) as [J|[J1 J2]].
        -- destruct (G1 J). auto.
        -- subst k. auto.
      * intros P L Nk.
        destruct (set_keeps_plain _ _ _ W P) as (P0 & Np & O).
        rewrite O. apply store_In.
        destruct L as [L|L]; [right; apply G2; auto | left; exact L].
    + rewrite Se. split.
      * intros I. destruct (G1 I). auto.
      * intros P. rewrite (@set_plain _ _ (img_src i) h P) in W. discriminate.
  - destruct (@error_keeps_cache s h s' St) as (Ca & _).
    destruct (@event_effect _ s (Error h) s' eq_refl St)
      as (h' & i' & pre & A & _ & _ & _ & _ & _ & E & _).
    assert (h' = h) by (destruct A as [A|A]; inversion A; reflexivity).
    subst h'. cbv beta iota in E.
    rewrite E, Ca, loaded_in_error. apply G.
Qed.

(** Over a run every key of the cache is a URL with a delivered [load]
    event; and while the cache inherits from [Object.prototype] every
    such URL but [__proto__] is a key. *)
Lemma run_keys_are_loaded o t s :
  run (constructor o) t = Some s ->
  forall k,
    (In k (keys (imageCache s)) -> loaded_url s k /\ k <> "__proto__") /\
    (proto (imageCache s) = ObjectPrototype ->
     loaded_url s k -> k <> "__proto__" -> In k (keys (imageCache s))).
Proof.
  intros R k. rewrite keys_In.
  assert (G : keys_are_loaded s).
  { assert (G0 : keys_are_loaded (constructor o)).
    { intros x. cbn. split; [tauto|]. intros _ (i & [] & _). }
    revert R G0. generalize (constructor o). clear o.
    induction t as [|a r IH]; intros s0 R G0; simpl in R.
    - inversion R; subst. exact G0.
    - destruct (step s0 a) as [s1|] eqn:St; [|discriminate].
      apply (IH s1 R). eapply step_keys_are_loaded; eauto. }
  apply G.
Qed.

(** Without inherited names in the way, [isImageLoaded] tells whether
    the URL is a key of the cache. *)
Lemma isImageLoaded_own_key s src :
  proto (imageCache s) = ObjectPrototype -> inherited src = false ->
  (isImageLoaded s src = Some true <-> In src (keys (imageCache s))) /\
  (isImageLoaded s src = Some false <-> ~ In src (keys (imageCache s))).
Proof.
  intros P I. rewrite keys_In. unfold isImageLoaded, get. rewrite P, I.
  destruct (lookup src (own (imageCache s))) as [h|] eqn:L.
  - assert (A : In src (map fst (own (imageCache s)))).
    { destruct (in_dec string_dec src (map fst (own (imageCache s)))) as [Y|N];
        [exact Y|]. apply lookup_None in N. congruence. }
    cbn. split; split; intros; auto; try discriminate. contradiction.
  - apply lookup_None in L. cbn. split; split; intros; auto; try discriminate.
    contradiction.
Qed.

End CacheKeys.

(** C4, at the input where the code departs from it: the image at the
    URL [__proto__] loads, [handleImageLoad] writes
    [imageCache["__proto__"] = img], which changes the prototype of the
    cache and creates no key: a URL whose load succeeded is not a key of
    the cache, and [getRandomImageURL()] still answers [null]. *)
Theorem proto_url_loaded_but_not_cached :
  exists s,
    run (loader_of ["__proto__"]) [PreloadAll; Load 0] = Some s /\
    fired_once s = true /\
    loaded_url s "__proto__" /\
    keys (imageCache s) = [] /\
    proto (imageCache s) = ElementPrototype 0 /\
    getRandomImageURL s (1 # 2) = Null.
Proof.
  eexists. split; [vm_compute; reflexivity|].
  split; [reflexivity|]. split.
  - eexists. split; [left; reflexivity|]. split; [reflexivity|]. cbn. lia.
  - repeat split; reflexivity.
Qed.

(** C7, at the input where the code departs from it: on a loader that
    has loaded nothing, [isImageLoaded("toString")] is [true], because
    [imageCache["toString"]] finds [Object.prototype.toString]. *)
Theorem isImageLoaded_inherited_name :
  isImageLoaded (loader_of []) "toString" = Some true /\
  keys (imageCache (loader_of [])) = [] /\
  ~ loaded_url (loader_of []) "toString".
Proof.
  split; [reflexivity|]. split; [reflexivity|].
  intros (i & [] & _).
Qed.

(* ================================================================== *)
(** * Further properties of the loader, the page and the progress bar *)
(* ================================================================== *)

Section ExtraRunFacts.

Context {web : Browser}.

Lemma event_handle s a s' h :
  (a = Load h \/ a = Error h) -> step s a = Some s' ->
  exists i, nth_error (elements s) h = Some i.
Proof.
  intros [A|A] St; subst a; cbn [step] in St;
    destruct (nth_error (elements s) h) as [i|]; try discriminate; eauto.
Qed.

Lemma fresh_images_indexed l : forall pre i,
  In i (fresh_images l (List.length pre)) ->
  nth_error (pre ++ l) (img_index i) = Some (img_src i).
Proof.
  induction l as [|x r IH]; intros pre i I; cbn in I; [tauto|].
  destruct I as [I|I].
  - subst i. cbn. rewrite nth_error_app2 by lia. rewrite Nat.sub_diag. reflexivity.
  - specialize (IH (pre ++ [x]) i). rewrite length_app in IH. cbn in IH.
    rewrite Nat.add_1_r, <- app_assoc in IH. apply IH, I.
Qed.

Lemma update_In h f d i :
  In i (update h f d) -> In i d \/ exists j, In j d /\ i = f j.
Proof.
  revert h. induction d as [|x r IH]; intros [|h]; cbn; try tauto.
  - intros [I|I]; [right; exists x; auto | auto].
  - intros [I|I]; [auto|]. destruct (IH h I) as [J|(j & J & E)]; [auto|].
    right. exists j. auto.
Qed.

Lemma step_indexed s a s' :
  consistent s -> indexed s -> step s a = Some s' -> indexed s'.
Proof.
  intros [T _] G St i I. destruct a as [| l | h | h].
  - inversion St; subst s'; clear St.
    destruct (Nat.eq_dec (totalImages s) 0) as [Z|Z].
    + destruct (@preloadAll_empty s Z) as (_ & E & Im & _).
      rewrite E in I. rewrite Im. apply G, I.
    + destruct (@preloadAll_nonempty s Z) as (E & Im & _).
      rewrite E in I. rewrite Im. apply in_app_or in I. destruct I as [I|I].
      * apply G, I.
      * apply (@fresh_images_indexed (images s) [] i I).
  - inversion St; subst s'; clear St.
    destruct (addImages_effect s l) as (E & Im & _).
    rewrite E in I. rewrite Im. apply in_app_or in I. destruct I as [I|I].
    + specialize (G i I). rewrite nth_error_app1; [exact G|].
      apply nth_error_Some. congruence.
    + rewrite T in I. apply fresh_images_indexed, I.
  - destruct (@event_effect _ s (Load h) s' eq_refl St)
      as (h' & i' & pre & _ & _ & _ & _ & _ & Im & E & _).
    rewrite E in I. rewrite Im.
    destruct (update_In _ _ _ _ I) as [J|(j & J & Ej)]; [apply G, J|].
    subst i. cbn. apply G, J.
  - destruct (@event_effect _ s (Error h) s' eq_refl St)
      as (h' & i' & pre & _ & _ & _ & _ & _ & Im & E & _).
    rewrite E in I. rewrite Im.
    destruct (update_In _ _ _ _ I) as [J|(j & J & Ej)]; [apply G, J|].
    subst i. cbn. apply G, J.
Qed.

Lemma run_indexed t : forall s s',
  consistent s -> indexed s -> run s t = Some s' -> indexed s'.
Proof.
  induction t as [|a r IH]; intros s s' C G R; simpl in R.
  - inversion R; subst. exact G.
  - destruct (step s a) as [s1|] eqn:St; [|discriminate].
    apply (IH s1 s'); auto.
    + eapply step_consistent; eauto.
    + eapply step_indexed; eauto.
Qed.

End ExtraRunFacts.

Section ExtraCacheFacts.

Context {web : Browser}.

Lemma lookup_store_same k v l : lookup k (store k v l) = Some v.
Proof.
  induction l as [|[k' v'] r IH]; cbn.
  - rewrite String.eqb_refl. reflexivity.
  - destruct (String.eqb_spec k k') as [E|N]; cbn.
    + subst. rewrite String.eqb_refl. reflexivity.
    + destruct (String.eqb_spec k k'); [contradiction | exact IH].
Qed.

Lemma lookup_store_other k v l k' :
  k' <> k -> lookup k' (store k v l) = lookup k' l.
Proof.
  intros N. induction l as [|[k0 v0] r IH]; cbn.
  - destruct (String.eqb_spec k' k); [contradiction | reflexivity].
  - destruct (String.eqb_spec k k0) as [E|N0]; cbn.
    + subst k0. destruct (String.eqb_spec k' k); [contradiction | reflexivity].
    + destruct (String.eqb_spec k' k0); [reflexivity | exact IH].
Qed.

(** A write to another name than [__proto__] keeps the prototype. *)
Lemma set_keeps_proto o k v o' :
  JsObject.set o k v = Some o' -> k <> "__proto__" -> proto o' = proto o.
Proof.
  intros H N.
  destruct (set_cases _ _ _ H) as [[E O]|[[_ O]|[_ [O _]]]]; subst o';
    [contradiction | reflexivity | reflexivity].
Qed.

(** Reading back what [o[k] = img] wrote on an object that inherits
    from [Object.prototype], and the other names. *)
Lemma get_set o k v :
  proto o = ObjectPrototype -> k <> "__proto__" ->
  exists o',
    JsObject.set o k v = Some o' /\
    get o' k = Image v /\
    proto o' = proto o /\
    forall k', k' <> k -> get o' k' = get o k'.
Proof.
  intros P N. rewrite (@set_plain _ o k v P).
  destruct (String.eqb_spec k "__proto__") as [E|_]; [contradiction|].
  eexists. split; [reflexivity|].
  unfold get. cbn [own proto]. rewrite lookup_store_same.
  split; [reflexivity|]. split; [reflexivity|].
  intros k' N'. rewrite (lookup_store_other _ _ N'). reflexivity.
Qed.

Lemma nth_error_update h f d j :
  nth_error (update h f d) j =
    if j =? h then option_map f (nth_error d j) else nth_error d j.
Proof.
  revert h j. induction d as [|x r IH]; intros h j.
  - destruct h, j; cbn; try reflexivity; destruct (_ =? _); reflexivity.
  - destruct h as [|h], j as [|j]; cbn; try reflexivity. apply IH.
Qed.

Lemma cache_sound_elements s s' :
  imageCache s' = imageCache s ->
  (forall h i, nth_error (elements s) h = Some i ->
     exists i', nth_error (elements s') h = Some i' /\
       img_src i' = img_src i /\ img_loads i <= img_loads i') ->
  cache_sound s -> cache_sound s'.
Proof.
  intros Ca M G k h L. rewrite Ca in L.
  destruct (G k h L) as (i & N & S & P).
  destruct (M h i N) as (i' & N' & S' & P').
  exists i'. split; [exact N'|]. split; [congruence | lia].
Qed.

Lemma step_cache_sound s a s' :
  cache_sound s -> step s a = Some s' -> cache_sound s'.
Proof.
  intros G St. destruct a as [| l | h | h].
  - inversion St; subst s'; clear St.
    destruct (Nat.eq_dec (totalImages s) 0) as [Z|Z].
    + destruct (@preloadAll_empty s Z) as (_ & E & _ & _ & _ & Ca).
      apply (@cache_sound_elements s); auto. intros h i N. rewrite E. eauto.
    + destruct (@preloadAll_nonempty s Z) as (E & _ & _ & _ & Ca & _).
      apply (@cache_sound_elements s); auto. intros h i N. rewrite E.
      exists i. split; [|auto]. rewrite nth_error_app1; [exact N|].
      apply nth_error_Some. congruence.
  - inversion St; subst s'; clear St.
    destruct (addImages_effect s l) as (E & _ & _ & _ & Ca & _).
    apply (@cache_sound_elements s); auto. intros h i N. rewrite E.
    exists i. split; [|auto]. rewrite nth_error_app1; [exact N|].
    apply nth_error_Some. congruence.
  - destruct (@load_sets_cache _ s h s' St) as (i & N & Se & _).
    destruct (@event_effect _ s (Load h) s' eq_refl St)
      as (h' & i' & pre & A & _ & _ & _ & _ & _ & E & _).
    assert (h' = h) by (destruct A as [A|A]; inversion A; reflexivity).
    subst h'. cbv beta iota in E.
    intros k x L.
    assert (M : forall y j, nth_error (elements s) y = Some j ->
              exists j', nth_error (elements s') y = Some j' /\
                img_src j' = img_src j /\ img_loads j <= img_loads j').
    { intros y j Ny. rewrite E, nth_error_update.
      destruct (Nat.eqb_spec y h) as [Ey|Ny'].
      - rewrite Ny. cbn. eexists. split; [reflexivity|]. cbn. auto.
      - exists j. auto. }
    assert (Old : lookup k (own (imageCache s)) = Some x ->
              exists i0, nth_error (elements s') x = Some i0 /\
                img_src i0 = k /\ 0 < img_loads i0).
    { intros L0. destruct (G k x L0) as (j & Nj & Sj & Lj).
      destruct (M x j Nj) as (j' & Nj' & Sj' & Lj').
      exists j'. split; [exact Nj'|]. split; [congruence | lia]. }
    destruct (JsObject.set (imageCache s) (img_src i) h) as [c|] eqn:W;
      [|rewrite Se in L; auto].
    rewrite Se in L.
    destruct (set_cases _ _ _ W) as [[P O]|[[P O]|[P [O _]]]]; rewrite O in L;
      cbn [own] in L; auto.
    destruct (string_dec k (img_src i)) as [Ek|Nk].
    + subst k. rewrite lookup_store_same in L. inversion L; subst x.
      rewrite E, nth_error_update, Nat.eqb_refl, N. cbn.
      eexists. split; [reflexivity|]. cbn. split; [reflexivity | lia].
    + rewrite (lookup_store_other _ _ Nk) in L. auto.
  - destruct (@error_keeps_cache _ s h s' St) as (Ca & _).
    destruct (@event_effect _ s (Error h) s' eq_refl St)
      as (h' & i' & pre & A & _ & _ & _ & _ & _ & E & _).
    assert (h' = h) by (destruct A as [A|A]; inversion A; reflexivity).
    subst h'. cbv beta iota in E.
    apply (@cache_sound_elements s); auto. intros y j Ny.
    rewrite E, nth_error_update.
    destruct (Nat.eqb_spec y h) as [Ey|Ny'].
    + rewrite Ny. cbn. eexists. split; [reflexivity|]. cbn. auto.
    + exists j. auto.
Qed.

Lemma run_cache_sound t : forall s s',
  cache_sound s -> run s t = Some s' -> cache_sound s'.
Proof.
  induction t as [|a r IH]; intros s s' G R; simpl in R.
  - inversion R; subst. exact G.
  - destruct (step s a) as [s1|] eqn:St; [|discriminate].
    apply (IH s1 s'); auto. eapply step_cache_sound; eauto.
Qed.

Lemma step_proto_intact s a s' :
  proto_intact s -> step s a = Some s' -> proto_intact s'.
Proof.
  intros G St. destruct a as [| l | h | h].
  - inversion St; subst s'; clear St.
    destruct (Nat.eq_dec (totalImages s) 0) as [Z|Z].
    + destruct (@preloadAll_empty s Z) as (_ & E & _ & _ & _ & Ca).
      unfold proto_intact. rewrite E, Ca. exact G.
    + destruct (@preloadAll_nonempty s Z) as (E & _ & _ & _ & Ca & _).
      unfold proto_intact. rewrite E, Ca, loaded_in_fresh. exact G.
  - inversion St; subst s'; clear St.
    destruct (addImages_effect s l) as (E & _ & _ & _ & Ca & _).
    unfold proto_intact. rewrite E, Ca, loaded_in_fresh. exact G.
  - destruct (@load_sets_cache _ s h s' St) as (i & N & Se & _).
    destruct (@event_effect _ s (Load h) s' eq_refl St)
      as (h' & i' & pre & A & _ & _ & _ & _ & _ & E & _).
    assert (h' = h) by (destruct A as [A|A]; inversion A; reflexivity).
    subst h'. cbv beta iota in E.
    unfold proto_intact. rewrite E, (loaded_in_load _ _ "__proto__" N).
    destruct (string_dec (img_src i) "__proto__") as [P|P]; [auto|].
    destruct (JsObject.set (imageCache s) (img_src i) h) as [c|] eqn:W.
    + rewrite Se, (@set_keeps_proto _ _ _ _ W P). destruct G; auto.
    + rewrite Se. destruct G; auto.
  - destruct (@error_keeps_cache _ s h s' St) as (Ca & _).
    destruct (@event_effect _ s (Error h) s' eq_refl St)
      as (h' & i' & pre & A & _ & _ & _ & _ & _ & E & _).
    assert (h' = h) by (destruct A as [A|A]; inversion A; reflexivity).
    subst h'. cbv beta iota in E.
    unfold proto_intact. rewrite E, Ca, loaded_in_error. exact G.
Qed.

Lemma run_proto_intact t : forall s s',
  proto_intact s -> run s t = Some s' -> proto_intact s'.
Proof.
  induction t as [|a r IH]; intros s s' G R; simpl in R.
  - inversion R; subst. exact G.
  - destruct (step s a) as [s1|] eqn:St; [|discriminate].
    apply (IH s1 s'); auto. eapply step_proto_intact; eauto.
Qed.

Lemma step_loaded_in s a s' u :
  step s a = Some s' -> loaded_in (elements s) u -> loaded_in (elements s') u.
Proof.
  intros St L. destruct a as [| l | h | h].
  - inversion St; subst s'; clear St.
    destruct (Nat.eq_dec (totalImages s) 0) as [Z|Z].
    + destruct (@preloadAll_empty s Z) as (_ & E & _). rewrite E. exact L.
    + destruct (@preloadAll_nonempty s Z) as (E & _).
      rewrite E. apply loaded_in_fresh, L.
  - inversion St; subst s'; clear St.
    destruct (addImages_effect s l) as (E & _).
    rewrite E. apply loaded_in_fresh, L.
  - destruct (@event_effect _ s (Load h) s' eq_refl St)
      as (h' & i & pre & A & N & _ & _ & _ & _ & E & _).
    assert (h' = h) by (destruct A as [A|A]; inversion A; reflexivity).
    subst h'. cbv beta iota in E.
    rewrite E. apply (loaded_in_load _ _ u N). left. exact L.
  - destruct (@event_effect _ s (Error h) s' eq_refl St)
      as (h' & i & pre & A & N & _ & _ & _ & _ & E & _).
    assert (h' = h) by (destruct A as [A|A]; inversion A; reflexivity).
    subst h'. cbv beta iota in E.
    rewrite E. apply loaded_in_error, L.
Qed.

Lemma run_loaded_in t : forall s s' u,
  run s t = Some s' -> loaded_in (elements s) u -> loaded_in (elements s') u.
Proof.
  induction t as [|a r IH]; intros s s' u R L; simpl in R.
  - inversion R; subst. exact L.
  - destruct (step s a) as [s1|] eqn:St; [|discriminate].
    apply (IH s1 s' u R). eapply step_loaded_in; eauto.
Qed.

(** As long as no image at the URL [__proto__] has loaded, no handler
    has thrown. *)
Lemma run_returns_plain t : forall s s',
  run s t = Some s' -> proto_intact s ->
  ~ loaded_in (elements s') "__proto__" ->
  handlers_return s t = true /\ proto (imageCache s') = ObjectPrototype.
Proof.
  induction t as [|a r IH]; intros s s' R G NP; simpl in R; cbn [handlers_return].
  - inversion R; subst. split; [reflexivity|]. destruct G; [assumption | contradiction].
  - destruct (step s a) as [s1|] eqn:St; [|discriminate].
    destruct (IH s1 s' R (@step_proto_intact s a s1 G St) NP) as [H P].
    split; [|exact P]. rewrite H, andb_true_r.
    destruct G as [G|G]; [apply returns_plain, G|].
    exfalso. apply NP. apply (@run_loaded_in r s1 s' _ R).
    eapply step_loaded_in; eauto.
Qed.

End ExtraCacheFacts.

Section ExtraUiFacts.

Context {web : Browser}.

Lemma option_map_app_nil (u : option (list number)) :
  option_map (fun x => x ++ []) u = u.
Proof. destruct u; cbn; [rewrite app_nil_r|]; reflexivity. Qed.

Lemma report_ui s :
  ui (report s) =
    option_map (fun u => u ++ [percentage (loadedImages s) (totalImages s)]) (ui s).
Proof.
  unfold report. cbn [onProgress call loadedImages totalImages].
  destruct (loadedImages s =? totalImages s); cbn; destruct (ui s); reflexivity.
Qed.

Lemma step_ui_tracks s a s' : step s a = Some s' -> ui_tracks s s'.
Proof.
  intros St. destruct a as [| l | h | h].
  - inversion St; subst s'; clear St.
    destruct (Nat.eq_dec (totalImages s) 0) as [Z|Z].
    + exists [lit 100]. unfold preloadAll, progress_values. rewrite Z. cbn.
      rewrite <- app_assoc, percentages_app. cbn.
      split; [reflexivity|]. destruct (ui s); reflexivity.
    + destruct (@preloadAll_nonempty s Z) as (_ & _ & _ & _ & _ & U & Ca).
      exists []. unfold progress_values. rewrite Ca, U, app_nil_r, option_map_app_nil.
      auto.
  - inversion St; subst s'; clear St.
    destruct (addImages_effect s l) as (_ & _ & _ & _ & _ & U & Ca).
    exists []. unfold progress_values. rewrite Ca, U, app_nil_r, option_map_app_nil.
    auto.
  - destruct (@load_sets_cache _ s h s' St) as (i & N & _ & _ & U).
    destruct (returns s (Load h)) eqn:Re.
    + exists [percentage (S (loadedImages s)) (totalImages s)].
      split; [apply (@event_progress _ s (Load h) s' eq_refl St Re) | exact U].
    + exists []. rewrite app_nil_r, option_map_app_nil.
      split; [|exact U]. unfold progress_values.
      rewrite (@throw_keeps_calls _ s (Load h) s' eq_refl St Re). reflexivity.
  - exists [percentage (S (loadedImages s)) (totalImages s)].
    split; [apply (@event_progress _ s (Error h) s' eq_refl St eq_refl)|].
    cbn [step] in St.
    destruct (nth_error (elements s) h) as [i|]; [|discriminate].
    inversion St; subst s'; clear St. unfold handleImageError.
    rewrite report_ui. reflexivity.
Qed.

Lemma run_ui_tracks t : forall s s', run s t = Some s' -> ui_tracks s s'.
Proof.
  induction t as [|a r IH]; intros s s' R; simpl in R.
  - inversion R; subst. exists []. rewrite app_nil_r, option_map_app_nil. auto.
  - destruct (step s a) as [s1|] eqn:St; [|discriminate].
    destruct (@step_ui_tracks s a s1 St) as (l1 & P1 & U1).
    destruct (IH s1 s' R) as (l2 & P2 & U2).
    exists (l1 ++ l2). rewrite P2, P1, U2, U1, app_assoc.
    split; [reflexivity|]. destruct (ui s); cbn; [rewrite app_assoc|]; reflexivity.
Qed.

End ExtraUiFacts.

(** X1.  An [error] event on an element increments [loadedImages], leaves
    the image cache as it was, and invokes [onError] with the URL and the
    index the element was created with, then [onProgress] with the new
    percentage, then [onComplete] if the counter has reached the total. *)
Theorem error_event_reports {web : Browser} s h s' :
  step s (Error h) = Some s' ->
  exists i,
    nth_error (elements s) h = Some i /\
    loadedImages s' = S (loadedImages s) /\
    imageCache s' = imageCache s /\
    calls s' =
      calls s ++
      OnError (img_src i) (img_index i)
      :: OnProgress (percentage (S (loadedImages s)) (totalImages s))
      :: (if S (loadedImages s) =? totalImages s
          then [OnComplete (imageCache s)] else []).
Proof.
  intros St.
  destruct (@error_keeps_cache _ s h s' St) as (Ca & i & N & _).
  destruct (@event_effect _ s (Error h) s' eq_refl St)
    as (h' & i' & pre & A & N' & P & Lo & To & _ & _ & C).
  assert (h' = h) by (destruct A as [A|A]; inversion A; reflexivity).
  subst h'. rewrite N in N'. inversion N'; subst i'.
  exists i. split; [exact N|]. split; [exact Lo|]. split; [exact Ca|].
  rewrite C. f_equal.
  destruct P as [[_ P]|[P _]]; [discriminate|]. subst pre. cbn.
  unfold completion. rewrite Lo, To, Ca. reflexivity.
Qed.

Lemma error_event_reports_witness :
  let s := preloadAll (loader_of ["a"; "b"]) in
  exists s',
    step s (Error 1) = Some s' /\
    calls s' = [OnError "b" 1; OnProgress (lit 50)] /\
    exists i, nth_error (elements s) 1 = Some i /\
              loadedImages s' = S (loadedImages s).
Proof.
  intros s. eexists. split; [vm_compute; reflexivity|].
  split; [vm_compute; reflexivity|].
  destruct (@error_event_reports _ s 1 _ ltac:(vm_compute; reflexivity))
    as (i & N & L & _).
  exists i. split; [exact N | exact L].
Defined.

(** X2.  A [load] event on an image element always increments
    [loadedImages].  When its handler returns it invokes [onProgress]
    with the new percentage, then [onComplete] if the counter has
    reached the total, and never [onError]; when its cache write throws
    it invokes no callback and leaves the cache as it was.  While the
    cache inherits from [Object.prototype] the handler returns, and for
    a URL other than [__proto__] it stores the element under the URL:
    after it [isImageLoaded(url)] is [true], the cache maps the URL to
    that very element, and the answer for every other name is what it
    was. *)
Theorem load_event_caches {web : Browser} s h i :
  nth_error (elements s) h = Some i ->
  exists s',
    step s (Load h) = Some s' /\
    loadedImages s' = S (loadedImages s) /\
    (returns s (Load h) = true ->
     calls s' =
       calls s ++
       OnProgress (percentage (S (loadedImages s)) (totalImages s))
       :: (if S (loadedImages s) =? totalImages s
           then [OnComplete (imageCache s')] else [])) /\
    (returns s (Load h) = false ->
     calls s' = calls s /\ imageCache s' = imageCache s) /\
    (proto (imageCache s) = ObjectPrototype ->
     returns s (Load h) = true /\
     (img_src i <> "__proto__" ->
      get (imageCache s') (img_src i) = Image h /\
      isImageLoaded s' (img_src i) = Some true /\
      forall u, u <> img_src i ->
        get (imageCache s') u = get (imageCache s) u /\
        isImageLoaded s' u = isImageLoaded s u)).
Proof.
  intros N.
  assert (X : exists s', step s (Load h) = Some s').
  { cbn [step]. rewrite N. eauto. }
  destruct X as (s' & St). exists s'. split; [exact St|].
  destruct (@load_sets_cache _ s h s' St) as (i0 & N0 & Se & _).
  rewrite N in N0. inversion N0; subst i0; clear N0.
  destruct (@event_effect _ s (Load h) s' eq_refl St)
    as (h' & i' & pre & A & _ & P & Lo & To & _ & _ & C).
  split; [exact Lo|]. split; [|split].
  - intros Re. rewrite Re in C. rewrite C. f_equal.
    destruct P as [[P _]|[_ P]]; [|discriminate]. subst pre. cbn.
    unfold completion. rewrite Lo, To. reflexivity.
  - intros Re. split; [apply (@throw_keeps_calls _ s (Load h) s' eq_refl St Re)|].
    cbn [returns] in Re. rewrite N in Re.
    destruct (JsObject.set (imageCache s) (img_src i) h); [discriminate | exact Se].
  - intros Pl. split; [apply returns_plain, Pl|]. intros Np.
    destruct (@get_set _ (imageCache s) (img_src i) h Pl Np) as (c & W & G & _ & F).
    rewrite W in Se. unfold isImageLoaded. rewrite Se, G.
    split; [reflexivity|]. split; [reflexivity|].
    intros u Nu. rewrite (F u Nu). auto.
Qed.

Lemma load_event_caches_witness :
  let s := preloadAll (loader_of ["a"; "b"]) in
  exists i s',
    nth_error (elements s) 1 = Some i /\
    step s (Load 1) = Some s' /\
    isImageLoaded s "b" = Some false /\
    isImageLoaded s' "b" = Some true /\
    isImageLoaded s' "a" = Some false /\
    loadedImages s' = S (loadedImages s).
Proof.
  intros s.
  destruct (@load_event_caches _ s 1 _ eq_refl)
    as (s' & St & L & _ & _ & P).
  destruct (P eq_refl) as (_ & Q).
  destruct (Q ltac:(discriminate)) as (_ & T & F).
  destruct (F "a" ltac:(discriminate)) as (_ & Fa).
  eexists. exists s'. split; [reflexivity|]. split; [exact St|].
  split; [vm_compute; reflexivity|]. split; [exact T|].
  split; [rewrite Fa; reflexivity | exact L].
Defined.

(** X3.  At every state of a run every key of the image cache is a URL,
    other than [__proto__], for which a [load] event has been delivered:
    an [error] event or a pending element adds none.  And as long as no
    image at the URL [__proto__] has loaded, the keys are exactly the
    URLs for which a [load] event has been delivered. *)
Theorem cache_keys_are_loaded_urls {web : Browser} o t s :
  run (constructor o) t = Some s ->
  forall k,
    (In k (keys (imageCache s)) -> loaded_url s k /\ k <> "__proto__") /\
    (~ loaded_url s "__proto__" ->
     (In k (keys (imageCache s)) <-> loaded_url s k)).
Proof.
  intros R k. destruct (@run_keys_are_loaded _ o t s R k) as [K1 K2].
  split; [exact K1|]. intros NP.
  assert (P0 : proto_intact (constructor o)) by (left; reflexivity).
  destruct (@run_proto_intact _ t _ _ P0 R) as [P|P]; [|contradiction].
  split; [intros I; apply K1, I|].
  intros L. apply K2; [exact P | exact L |].
  intros E. subst k. contradiction.
Qed.

Lemma cache_keys_are_loaded_urls_witness :
  let o := {| opt_images := Some ["a"; "b"; "c"]; opt_showUI := None |} in
  let t := [PreloadAll; Load 2; Error 0] in
  exists s,
    run (constructor o) t = Some s /\
    keys (imageCache s) = ["c"] /\
    (In "c" (keys (imageCache s)) -> loaded_url s "c" /\ "c" <> "__proto__").
Proof.
  intros o t. eexists. split; [vm_compute; reflexivity|].
  split; [vm_compute; reflexivity|].
  refine (proj1 (@cache_keys_are_loaded_urls _ o t _ _ "c")).
  vm_compute; reflexivity.
Defined.

(** X4.  At every state of a run, the element the cache holds under a
    URL is an image element that [preloadImage] created for that URL and
    to which a [load] event has been delivered. *)
Theorem cached_element_was_loaded {web : Browser} o t s k h :
  run (constructor o) t = Some s ->
  lookup k (own (imageCache s)) = Some h ->
  exists i,
    nth_error (elements s) h = Some i /\ img_src i = k /\ 0 < img_loads i.
Proof.
  intros R L.
  assert (G0 : cache_sound (constructor o)) by (intros k0 h0 L0; discriminate).
  exact (@run_cache_sound _ t _ _ G0 R k h L).
Qed.

Lemma cached_element_was_loaded_witness :
  let o := {| opt_images := Some ["a"; "a"]; opt_showUI := None |} in
  let t := [PreloadAll; Load 0; Load 1] in
  exists s,
    run (constructor o) t = Some s /\
    lookup "a" (own (imageCache s)) = Some 1 /\
    exists i, nth_error (elements s) 1 = Some i /\ img_src i = "a" /\
              0 < img_loads i.
Proof.
  intros o t. eexists. split; [vm_compute; reflexivity|].
  split; [vm_compute; reflexivity|].
  refine (@cached_element_was_loaded _ o t _ "a" 1 _ _); vm_compute; reflexivity.
Defined.

(** X5.  In a run in which the URL [__proto__] has not loaded, and for a
    name that [Object.prototype] does not define, [isImageLoaded(src)]
    is [true] exactly when a [load] event has been delivered for [src],
    and [false] otherwise. *)
Theorem isImageLoaded_iff_loaded {web : Browser} o t s src :
  run (constructor o) t = Some s ->
  ~ loaded_url s "__proto__" ->
  inherited src = false ->
  (isImageLoaded s src = Some true <-> loaded_url s src) /\
  (isImageLoaded s src = Some false <-> ~ loaded_url s src).
Proof.
  intros R NP I.
  assert (P0 : proto_intact (constructor o)) by (left; reflexivity).
  destruct (@run_proto_intact _ t _ _ P0 R) as [P|P]; [|contradiction].
  destruct (@isImageLoaded_own_key s src P I) as [A B].
  destruct (@run_keys_are_loaded _ o t s R src) as [K1 K2].
  assert (Ns : src <> "__proto__") by (intros E; subst src; discriminate).
  specialize (K2 P).
  split; [rewrite A | rewrite B]; tauto.
Qed.

Lemma isImageLoaded_iff_loaded_witness :
  let o := {| opt_images := Some ["a"; "b"]; opt_showUI := None |} in
  let t := [PreloadAll; Error 0; Load 1] in
  exists s,
    run (constructor o) t = Some s /\
    ~ loaded_url s "__proto__" /\
    inherited "a" = false /\
    isImageLoaded s "a" = Some false /\
    (isImageLoaded s "a" = Some true <-> loaded_url s "a").
Proof.
  intros o t. eexists. split; [vm_compute; reflexivity|].
  assert (NP : forall u, u <> "b" ->
    ~ loaded_url
        {| images := ["a"; "b"]; loadedImages := 2; totalImages := 2;
           imageElements := [Some 0; Some 1];
           imageCache := {| own := [("b", 1)]; proto := ObjectPrototype |};
           ui := Some [lit 0; lit 50; lit 100];
           elements :=
             [{| img_src := "a"; img_index := 0; img_loads := 0; img_errors := 1 |};
              {| img_src := "b"; img_index := 1; img_loads := 1; img_errors := 0 |}];
           calls :=
             [OnError "a" 0; OnProgress (lit 50); OnProgress (lit 100);
              OnComplete {| own := [("b", 1)]; proto := ObjectPrototype |}] |} u).
  { intros u Nu (i & I & S & L). cbn in I.
    destruct I as [I|[I|[]]]; subst i; cbn in *; [lia | congruence]. }
  split; [apply NP; discriminate|].
  split; [reflexivity|]. split; [reflexivity|].
  refine (proj1 (@isImageLoaded_iff_loaded _ o t _ "a" _ _ _));
    [vm_compute; reflexivity | apply NP; discriminate | reflexivity].
Defined.

Section ExtraNumberFacts.

Local Open Scope Q_scope.

Lemma inject_nat_pos n : (0 < n)%nat -> 0 < inject_Z (Z.of_nat n).
Proof. intros H. change 0 with (inject_Z 0). rewrite <- Zlt_Qlt. lia. Qed.

Lemma inject_nat_nonneg n : 0 <= inject_Z (Z.of_nat n).
Proof. change 0 with (inject_Z 0). rewrite <- Zle_Qle. lia. Qed.

(** Nothing completed: 0. *)
Lemma percentage_none n : (0 < n)%nat -> percentage 0 n = lit 0.
Proof.
  intros Hn. unfold percentage, of_nat, Number.div.
  rewrite (is_zero_false (inject_nat_pos Hn)).
  assert (E : inject_Z (Z.of_nat 0) / inject_Z (Z.of_nat n) == 0).
  { unfold Qdiv. cbn [Z.of_nat]. change (inject_Z 0) with 0. ring. }
  unfold of_exact. rewrite (rn_compat E).
  vm_compute. reflexivity.
Qed.

Lemma percentage_is_rounded k n :
  (0 < n)%nat ->
  (exists z, percentage k n = lit z) \/ percentage k n = PosInfinity.
Proof.
  intros Hn. unfold percentage, of_nat, Number.div.
  rewrite (is_zero_false (inject_nat_pos Hn)).
  assert (X0 : 0 <= inject_Z (Z.of_nat k) / inject_Z (Z.of_nat n)).
  { apply Qle_shift_div_l; [apply inject_nat_pos, Hn|].
    pose proof (inject_nat_nonneg k). lra. }
  destruct (of_exact_nonneg X0) as [[E _]|[E _]]; rewrite E.
  - right. reflexivity.
  - pose proof (rn_nonneg X0) as R. unfold lit at 1 3. cbn [Number.mul].
    assert (X2 : 0 <= rn (inject_Z (Z.of_nat k) / inject_Z (Z.of_nat n))
                      * inject_Z 100).
    { change (inject_Z 100) with 100. lra. }
    destruct (of_exact_nonneg X2) as [[E2 _]|[E2 _]]; rewrite E2.
    + right. reflexivity.
    + left. eexists. reflexivity.
Qed.

(** With no more completions than images the percentage is an integer
    from 0 to 100. *)
Lemma percentage_range k n :
  (k <= n)%nat -> (0 < n)%nat ->
  exists z, percentage k n = lit z /\ (0 <= z <= 100)%Z.
Proof.
  intros Hk Hn.
  pose proof (@percentage_mono 0 k n ltac:(lia) Hn) as L.
  pose proof (@percentage_mono k n n Hk Hn) as U.
  rewrite (percentage_none Hn) in L. rewrite (percentage_full Hn) in U.
  destruct (@percentage_is_rounded k n Hn) as [(z & E)|E]; rewrite E in *.
  - exists z. split; [reflexivity|]. unfold lit in L, U. cbn [Number.le] in L, U.
    rewrite <- Zle_Qle in L, U. lia.
  - cbn in U. contradiction.
Qed.

(** Short of 99.5% the percentage stays below 100. *)
Lemma percentage_below_100 k n :
  (0 < n)%nat -> (Z.of_nat n < 2 ^ 32)%Z ->
  (200 * Z.of_nat k < 199 * Z.of_nat n)%Z ->
  exists z, percentage k n = lit z /\ (z <= 99)%Z.
Proof.
  intros Hn Hb Hk.
  set (K := inject_Z (Z.of_nat k)). set (N := inject_Z (Z.of_nat n)).
  assert (HN : 0 < N) by (apply inject_nat_pos, Hn).
  assert (HK : 0 <= K) by apply inject_nat_nonneg.
  assert (HNb : N < inject_Z (2 ^ 32)) by (unfold N; rewrite <- Zlt_Qlt; exact Hb).
  assert (HKN : 200 * K + 1 <= 199 * N).
  { unfold K, N. change 200 with (inject_Z 200). change 199 with (inject_Z 199).
    change 1 with (inject_Z 1).
    rewrite <- !inject_Z_mult, <- inject_Z_plus, <- Zle_Qle. lia. }
  change (inject_Z (2 ^ 32)) with (4294967296 # 1) in HNb.
  set (x1 := K / N).
  assert (Ex : x1 * N == K) by (unfold x1; field; lra).
  assert (X0 : 0 <= x1) by (unfold x1; apply Qle_shift_div_l; lra).
  assert (X1 : x1 <= (199 # 200) - (1 # 858993459200)).
  { apply Qmult_lt_0_le_reg_r with (z := N); [exact HN|]. rewrite Ex. lra. }
  assert (EM : pow2 (emin - (prec - 1)) <= 1 # 1152921504606846976).
  { change (1 # 1152921504606846976) with (pow2 (-60)).
    apply pow2_le. unfold emin, prec. lia. }
  assert (C52 : pow2 (- (prec - 1)) == 1 # 4503599627370496) by reflexivity.
  assert (BIG : 128 <= pow2 emax).
  { change 128 with (pow2 7). apply pow2_le. unfold emax. lia. }
  (* first rounding *)
  assert (R1 : 0 <= rn x1 /\ rn x1 <= x1 + x1 * (1 # 9007199254740992)
                                      + (1 # 2305843009213693952)).
  { split; [apply rn_nonneg, X0|].
    destruct (Qle_lt_or_eq _ _ X0) as [P|P].
    - pose proof (rn_upper P) as U. destruct (ulp_bound P) as [B|B].
      + rewrite C52 in B.
        assert (H2 : ulp x1 / 2 == (1 # 2) * ulp x1) by field.
        revert U B H2. generalize (ulp x1) (rn x1). intros w y U B H2. lra.
      + assert (H2 : ulp x1 / 2 == (1 # 2) * ulp x1) by field.
        revert U B H2 EM. generalize (ulp x1) (rn x1) (pow2 (emin - (prec - 1))).
        intros w y e U B H2 EM. lra.
    - rewrite rn_at_zero by (symmetry; exact P). lra. }
  destruct R1 as [R1a R1b].
  set (r1 := rn x1) in *.
  assert (X2 : 0 <= r1 * 100) by lra.
  assert (R2 : 0 <= rn (r1 * 100) /\
               rn (r1 * 100) <= r1 * 100 + r1 * 100 * (1 # 9007199254740992)
                                 + (1 # 2305843009213693952)).
  { split; [apply rn_nonneg, X2|].
    destruct (Qle_lt_or_eq _ _ X2) as [P|P].
    - pose proof (rn_upper P) as U. destruct (ulp_bound P) as [B|B].
      + rewrite C52 in B.
        assert (H2 : ulp (r1 * 100) / 2 == (1 # 2) * ulp (r1 * 100)) by field.
        revert U B H2. generalize (ulp (r1 * 100)) (rn (r1 * 100)).
        intros w y U B H2. lra.
      + assert (H2 : ulp (r1 * 100) / 2 == (1 # 2) * ulp (r1 * 100)) by field.
        revert U B H2 EM.
        generalize (ulp (r1 * 100)) (rn (r1 * 100)) (pow2 (emin - (prec - 1))).
        intros w y e U B H2 EM. lra.
    - rewrite rn_at_zero by (symmetry; exact P). lra. }
  destruct R2 as [R2a R2b].
  set (r2 := rn (r1 * 100)) in *.
  assert (F : r2 + (1 # 2) < 100).
  { clear - X0 X1 R1a R1b R2b. clearbody r1 r2 x1. lra. }
  unfold percentage, of_nat, Number.div. fold K N.
  rewrite (is_zero_false HN). fold x1.
  destruct (of_exact_nonneg X0) as [[E A]|[E A]]; [fold r1 in A; lra|].
  rewrite E. fold r1. unfold lit at 1. cbn [Number.mul].
  change (inject_Z 100) with 100.
  destruct (of_exact_nonneg X2) as [[E2 A2]|[E2 A2]]; [fold r2 in A2; lra|].
  rewrite E2. fold r2. cbn [Math_round].
  exists (Qfloor (r2 + (1 # 2))). split; [reflexivity|].
  assert (G : (Qfloor (r2 + (1 # 2)) < 100)%Z).
  { rewrite Zlt_Qlt. pose proof (Qfloor_le (r2 + (1 # 2))).
    change (inject_Z 100) with 100. lra. }
  lia.
Qed.

End ExtraNumberFacts.

Section ExtraInvariants.

Context {web : Browser}.

Lemma nth_error_app_l (A : Type) (l l' : list A) n x :
  nth_error l n = Some x -> nth_error (l ++ l') n = Some x.
Proof.
  intros H. rewrite nth_error_app1; [exact H|].
  apply nth_error_Some. congruence.
Qed.

Lemma step_errors_indexed s a s' :
  indexed s -> errors_indexed s -> step s a = Some s' -> errors_indexed s'.
Proof.
  intros G E St src index I. destruct a as [| l | h | h].
  - inversion St; subst s'; clear St.
    destruct (Nat.eq_dec (totalImages s) 0) as [Z|Z].
    + destruct (@preloadAll_empty s Z) as (Ca & _ & Im & _).
      rewrite Ca in I. rewrite Im. apply in_app_or in I.
      destruct I as [I|[I|[I|[]]]]; try discriminate. apply E, I.
    + destruct (@preloadAll_nonempty s Z) as (_ & Im & _ & _ & _ & _ & Ca).
      rewrite Ca in I. rewrite Im. apply E, I.
  - inversion St; subst s'; clear St.
    destruct (addImages_effect s l) as (_ & Im & _ & _ & _ & _ & Ca).
    rewrite Ca in I. rewrite Im. apply nth_error_app_l, E, I.
  - destruct (@event_effect _ s (Load h) s' eq_refl St)
      as (h' & i & pre & _ & N & P & _ & _ & Im & _ & C).
    rewrite C in I. rewrite Im. apply in_app_or in I. destruct I as [I|I]; [apply E, I|].
    destruct (returns s (Load h)); [|destruct I].
    destruct P as [[P _]|[_ P]]; [|discriminate]. subst pre. cbn in I.
    unfold completion in I. destruct I as [I|I]; [discriminate|].
    destruct (_ =? _); cbn in I; [destruct I as [I|[]]; discriminate | destruct I].
  - destruct (@event_effect _ s (Error h) s' eq_refl St)
      as (h' & i & pre & _ & N & P & _ & _ & Im & _ & C).
    rewrite C in I. rewrite Im. apply in_app_or in I. destruct I as [I|I]; [apply E, I|].
    cbn [returns] in I.
    destruct P as [[_ P]|[P _]]; [discriminate|]. subst pre. cbn in I.
    destruct I as [I|[I|I]].
    + inversion I; subst. apply G. eapply nth_error_In; eauto.
    + discriminate.
    + unfold completion in I.
      destruct (_ =? _); cbn in I; [destruct I as [I|[]]; discriminate | destruct I].
Qed.

Lemma run_errors_indexed t : forall s s',
  consistent s -> indexed s -> errors_indexed s -> run s t = Some s' ->
  errors_indexed s'.
Proof.
  induction t as [|a r IH]; intros s s' C G E R; simpl in R.
  - inversion R; subst. exact E.
  - destruct (step s a) as [s1|] eqn:St; [|discriminate].
    apply (IH s1 s'); auto.
    + eapply step_consistent; eauto.
    + eapply step_indexed; eauto.
    + eapply step_errors_indexed; eauto.
Qed.

Lemma at_most_once_all_once (d : list image) :
  forallb (fun i => fired i <=? 1) d = true ->
  list_sum (map fired d) = List.length d ->
  forallb (fun i => fired i =? 1) d = true.
Proof.
  unfold list_sum.
  induction d as [|i r IH]; simpl; [reflexivity|].
  intros H S. apply andb_prop in H. destruct H as [A B].
  apply Nat.leb_le in A.
  assert (Br : fold_right Nat.add 0 (map fired r) <= List.length r).
  { clear - B. induction r as [|j r IH]; simpl in *; [lia|].
    apply andb_prop in B. destruct B as [B1 B2]. apply Nat.leb_le in B1.
    specialize (IH B2). lia. }
  assert (F : fired i = 1) by lia.
  rewrite F. simpl. apply IH; [exact B | lia].
Qed.

Lemma store_NoDup k v l : NoDup (map fst l) -> NoDup (map fst (store k v l)).
Proof.
  induction l as [|[k' v'] r IH]; cbn; intros H.
  - constructor; [tauto | constructor].
  - inversion H as [|x y Hx Hr]; subst.
    destruct (String.eqb_spec k k') as [E|N]; cbn.
    + constructor; assumption.
    + constructor; [|apply IH, Hr]. rewrite store_In. intros [A|A]; [congruence | tauto].
Qed.

Lemma insert_index_keys e l x :
  In x (map snd (insert_index e l)) <-> x = snd e \/ In x (map snd l).
Proof.
  induction l as [|e' r IH]; cbn.
  - intuition.
  - destruct (fst e <=? fst e')%N; cbn; [intuition|]. rewrite IH. intuition.
Qed.

Lemma insert_index_NoDup e l :
  ~ In (snd e) (map snd l) -> NoDup (map snd l) ->
  NoDup (map snd (insert_index e l)).
Proof.
  induction l as [|e' r IH]; cbn; intros N H.
  - constructor; [tauto | constructor].
  - destruct (fst e <=? fst e')%N; cbn.
    + constructor; assumption.
    + inversion H as [|x y Hx Hr]; subst.
      constructor; [|apply IH; tauto].
      rewrite insert_index_keys. intros [A|A]; [|tauto].
      apply N. left. exact A.
Qed.

Lemma index_keys_snd ks k :
  In k (map snd (index_keys ks)) <-> In k ks /\ is_index k = true.
Proof.
  unfold is_index. induction ks as [|k' r IH]; cbn; [tauto|].
  destruct (array_index k') as [n|] eqn:E; cbn; rewrite IH.
  - split.
    + intros [A|[A B]]; [subst; rewrite E; auto | auto].
    + intros [[A|A] B]; auto.
  - split.
    + intros [A B]; auto.
    + intros [[A|A] B]; [subst; rewrite E in B; discriminate | auto].
Qed.

Lemma index_keys_NoDup ks : NoDup ks -> NoDup (map snd (index_keys ks)).
Proof.
  induction ks as [|k r IH]; cbn; intros H; [constructor|].
  inversion H as [|x y Hx Hr]; subst.
  destruct (array_index k) as [n|]; cbn; [|apply IH, Hr].
  constructor; [|apply IH, Hr]. rewrite index_keys_snd. tauto.
Qed.

Lemma sort_indices_keys l x :
  In x (map snd (sort_indices l)) <-> In x (map snd l).
Proof.
  induction l as [|e r IH]; cbn; [reflexivity|].
  rewrite insert_index_keys, IH. intuition.
Qed.

Lemma sort_indices_NoDup l : NoDup (map snd l) -> NoDup (map snd (sort_indices l)).
Proof.
  induction l as [|e r IH]; cbn; intros H; [constructor|].
  inversion H as [|x y Hx Hr]; subst.
  apply insert_index_NoDup; [rewrite sort_indices_keys; exact Hx | apply IH, Hr].
Qed.

(** [Object.keys] lists every own key once. *)
Lemma keys_NoDup o : NoDup (map fst (own o)) -> NoDup (keys o).
Proof.
  intros H. unfold keys. apply NoDup_app.
  - apply sort_indices_NoDup, index_keys_NoDup, H.
  - apply NoDup_filter, H.
  - intros k A B. rewrite sort_indices_keys, index_keys_snd in A.
    apply filter_In in B. destruct A as [_ A], B as [_ B].
    rewrite A in B. discriminate.
Qed.

Lemma step_own_NoDup s a s' :
  NoDup (map fst (own (imageCache s))) -> step s a = Some s' ->
  NoDup (map fst (own (imageCache s'))).
Proof.
  intros G St. destruct a as [| l | h | h].
  - inversion St; subst s'; clear St.
    destruct (Nat.eq_dec (totalImages s) 0) as [Z|Z].
    + destruct (@preloadAll_empty s Z) as (_ & _ & _ & _ & _ & Ca).
      rewrite Ca. exact G.
    + destruct (@preloadAll_nonempty s Z) as (_ & _ & _ & _ & Ca & _).
      rewrite Ca. exact G.
  - inversion St; subst s'; clear St.
    destruct (addImages_effect s l) as (_ & _ & _ & _ & Ca & _).
    rewrite Ca. exact G.
  - destruct (@load_sets_cache _ s h s' St) as (i & N & Se & _).
    destruct (JsObject.set (imageCache s) (img_src i) h) as [c|] eqn:W;
      rewrite Se; [|exact G].
    destruct (set_cases _ _ _ W) as [[P O]|[[P O]|[P [O _]]]]; rewrite O;
      cbn [own]; auto using store_NoDup.
  - destruct (@error_keeps_cache _ s h s' St) as (Ca & _). rewrite Ca. exact G.
Qed.

Lemma run_own_NoDup t : forall s s',
  NoDup (map fst (own (imageCache s))) -> run s t = Some s' ->
  NoDup (map fst (own (imageCache s'))).
Proof.
  induction t as [|a r IH]; intros s s' G R; simpl in R.
  - inversion R; subst. exact G.
  - destruct (step s a) as [s1|] eqn:St; [|discriminate].
    apply (IH s1 s'); auto. eapply step_own_NoDup; eauto.
Qed.

Lemma counter_bounded o t s :
  run (constructor o) t = Some s ->
  preloadAll_first (constructor o) t = true ->
  fired_at_most_once s = true ->
  loadedImages s <= totalImages s.
Proof.
  intros R P F.
  pose proof (constructor_consistent o) as C0.
  assert (B0 : List.length (elements (constructor o)) <= totalImages (constructor o))
    by (cbn; lia).
  pose proof (@run_bounded _ t _ _ C0 B0 R P) as B.
  destruct (@run_consistent _ t _ _ C0 R) as [_ L].
  pose proof (@fired_at_most_once_delivered s F). lia.
Qed.

End ExtraInvariants.

(** X6.  At every state of a run [totalImages] is the length of
    [images], and [loadedImages] is the number of [load] and [error]
    events delivered so far, whatever the order of calls and events. *)
Theorem counters_count {web : Browser} o t s :
  run (constructor o) t = Some s ->
  totalImages s = List.length (images s) /\
  loadedImages s = list_sum (map fired (elements s)).
Proof.
  intros R. exact (@run_consistent _ t _ _ (constructor_consistent o) R).
Qed.

Lemma counters_count_witness :
  let o := {| opt_images := Some ["a"; "b"]; opt_showUI := None |} in
  let t := [AddImages ["c"]; PreloadAll; PreloadAll; Load 4; Error 0; Load 0] in
  exists s,
    run (constructor o) t = Some s /\
    totalImages s = 3 /\ loadedImages s = 3 /\
    loadedImages s = list_sum (map fired (elements s)).
Proof.
  intros o t. eexists. split; [vm_compute; reflexivity|].
  split; [reflexivity|]. split; [reflexivity|].
  refine (proj2 (@counters_count _ o t _ _)). vm_compute; reflexivity.
Defined.

(** X7.  At every state of a run, every image element was created for
    an entry of [images]: the index its handlers carry is the position
    of its URL in [images]; hence every [onError(src, index)] so far
    satisfies [images[index] = src]. *)
Theorem error_index_names_url {web : Browser} o t s :
  run (constructor o) t = Some s ->
  (forall i, In i (elements s) ->
     nth_error (images s) (img_index i) = Some (img_src i)) /\
  (forall src index, In (OnError src index) (calls s) ->
     nth_error (images s) index = Some src).
Proof.
  intros R.
  pose proof (constructor_consistent o) as C0.
  assert (G0 : indexed (constructor o)) by (intros i []).
  assert (E0 : errors_indexed (constructor o)) by (intros x y []).
  split.
  - exact (@run_indexed _ t _ _ C0 G0 R).
  - exact (@run_errors_indexed _ t _ _ C0 G0 E0 R).
Qed.

Lemma error_index_names_url_witness :
  let o := {| opt_images := Some ["a"; "b"]; opt_showUI := None |} in
  let t := [PreloadAll; AddImages ["c"; "d"]; Error 3; Error 1] in
  exists s,
    run (constructor o) t = Some s /\
    In (OnError "d" 3) (calls s) /\
    nth_error (images s) 3 = Some "d".
Proof.
  intros o t.
  destruct (@error_index_names_url _ o t _ ltac:(vm_compute; reflexivity))
    as [_ H].
  eexists. split; [vm_compute; reflexivity|].
  split; [left; reflexivity|].
  apply H. left. reflexivity.
Defined.

(** X8.  With the UI on (the default, [showUI] not [false]) the
    percentages given to [ImageLoaderUI.updateProgress] are the initial 0
    of its constructor followed by exactly the percentages given to
    [onProgress], in the same order; with [showUI: false] there is no
    UI. *)
Theorem ui_shows_reported_progress {web : Browser} o t s :
  run (constructor o) t = Some s ->
  ui s = match opt_showUI o with
         | Some false => None
         | _ => Some (lit 0 :: progress_values s)
         end.
Proof.
  intros R. destruct (@run_ui_tracks _ t _ _ R) as (l & P & U).
  rewrite U, P. cbn.
  destruct (opt_showUI o) as [[|]|]; reflexivity.
Qed.

Lemma ui_shows_reported_progress_witness :
  let o := {| opt_images := Some ["a"; "b"]; opt_showUI := Some true |} in
  let t := [PreloadAll; Load 1; Error 0] in
  exists s,
    run (constructor o) t = Some s /\
    ui s = Some [lit 0; lit 50; lit 100].
Proof.
  intros o t. eexists. split; [vm_compute; reflexivity|].
  refine (@ui_shows_reported_progress _ o t _ _). vm_compute; reflexivity.
Defined.

(** X9.  In a run in which [preloadAll] is called only while no element
    exists and every element fires at most once,
    [getLoadingProgress()] is an integer from 0 to 100. *)
Theorem getLoadingProgress_range {web : Browser} o t s :
  run (constructor o) t = Some s ->
  preloadAll_first (constructor o) t = true ->
  fired_at_most_once s = true ->
  exists z, getLoadingProgress s = lit z /\ (0 <= z <= 100)%Z.
Proof.
  intros R P F.
  pose proof (@counter_bounded _ o t s R P F) as B.
  unfold getLoadingProgress.
  destruct (Nat.eqb_spec (totalImages s) 0) as [Z|Z].
  - exists 100%Z. split; [reflexivity | lia].
  - apply percentage_range; lia.
Qed.

Lemma getLoadingProgress_range_witness :
  let o := {| opt_images := Some ["a"; "b"; "c"]; opt_showUI := None |} in
  let t := [PreloadAll; Load 1; Error 0] in
  exists s,
    run (constructor o) t = Some s /\
    preloadAll_first (constructor o) t = true /\
    fired_at_most_once s = true /\
    getLoadingProgress s = lit 67 /\
    exists z, getLoadingProgress s = lit z /\ (0 <= z <= 100)%Z.
Proof.
  intros o t. eexists. split; [vm_compute; reflexivity|].
  split; [vm_compute; reflexivity|].
  split; [vm_compute; reflexivity|].
  split; [vm_compute; reflexivity|].
  refine (@getLoadingProgress_range _ o t _ _ _ _); vm_compute; reflexivity.
Defined.

(** X10.  In such a run, whenever [loadedImages] equals [totalImages]
    (the test under which a handler invokes [onComplete]) every entry of
    [images] has its element and every element has fired: completion is
    never reported while an image is pending. *)
Theorem complete_means_all_fired {web : Browser} o t s :
  run (constructor o) t = Some s ->
  preloadAll_first (constructor o) t = true ->
  fired_at_most_once s = true ->
  loadedImages s = totalImages s ->
  fired_once s = true /\ List.length (elements s) = List.length (images s).
Proof.
  intros R P F E.
  pose proof (constructor_consistent o) as C0.
  assert (B0 : List.length (elements (constructor o)) <= totalImages (constructor o))
    by (cbn; lia).
  pose proof (@run_bounded _ t _ _ C0 B0 R P) as B.
  destruct (@run_consistent _ t _ _ C0 R) as [T L].
  pose proof (@fired_at_most_once_delivered s F) as D.
  unfold events_delivered in *.
  split; [|lia].
  apply at_most_once_all_once; [exact F | lia].
Qed.

Lemma complete_means_all_fired_witness :
  let o := {| opt_images := Some ["a"; "b"]; opt_showUI := None |} in
  let t := [PreloadAll; AddImages ["c"]; Load 1; Error 2; Load 0] in
  exists s,
    run (constructor o) t = Some s /\
    preloadAll_first (constructor o) t = true /\
    fired_at_most_once s = true /\
    loadedImages s = totalImages s /\
    fired_once s = true.
Proof.
  intros o t. eexists. split; [vm_compute; reflexivity|].
  split; [vm_compute; reflexivity|].
  split; [vm_compute; reflexivity|].
  split; [vm_compute; reflexivity|].
  refine (proj1 (@complete_means_all_fired _ o t _ _ _ _ _)); vm_compute; reflexivity.
Defined.

(** X11.  In such a run with fewer than [2^32] images,
    [getLoadingProgress()] is 100 only when at least 99.5% of the images
    have completed; with fewer than 200 images it is 100 exactly when
    all have (with 200 images it is already 100 at 199). *)
Theorem progress_100_threshold {web : Browser} o t s :
  run (constructor o) t = Some s ->
  preloadAll_first (constructor o) t = true ->
  fired_at_most_once s = true ->
  (Z.of_nat (totalImages s) < 2 ^ 32)%Z ->
  (getLoadingProgress s = lit 100 ->
   199 * totalImages s <= 200 * loadedImages s) /\
  (totalImages s < 200 ->
   (getLoadingProgress s = lit 100 <-> loadedImages s = totalImages s)).
Proof.
  intros R P F Hb.
  pose proof (@counter_bounded _ o t s R P F) as B.
  assert (A : getLoadingProgress s = lit 100 ->
              199 * totalImages s <= 200 * loadedImages s).
  { intros G. unfold getLoadingProgress in G.
    destruct (Nat.eqb_spec (totalImages s) 0) as [Z|Z]; [lia|].
    destruct (le_lt_dec (199 * totalImages s) (200 * loadedImages s)) as [Y|N];
      [exact Y|].
    destruct (@percentage_below_100 (loadedImages s) (totalImages s)
                ltac:(lia) Hb ltac:(lia)) as (z & E & Hz).
    rewrite E in G. unfold lit in G. inversion G. lia. }
  split; [exact A|]. intros H200. split.
  - intros G. specialize (A G). lia.
  - intros E. unfold getLoadingProgress.
    destruct (Nat.eqb_spec (totalImages s) 0) as [Z|Z]; [reflexivity|].
    rewrite E. apply percentage_full. lia.
Qed.

Lemma progress_100_threshold_witness :
  let o := {| opt_images := Some ["a"; "b"; "c"]; opt_showUI := None |} in
  let t := [PreloadAll; Load 1; Error 0] in
  exists s,
    run (constructor o) t = Some s /\
    preloadAll_first (constructor o) t = true /\
    fired_at_most_once s = true /\
    (Z.of_nat (totalImages s) < 2 ^ 32)%Z /\
    totalImages s < 200 /\
    (getLoadingProgress s = lit 100 <-> loadedImages s = totalImages s).
Proof.
  intros o t.
  destruct (@progress_100_threshold _ o t _
              ltac:(vm_compute; reflexivity) ltac:(vm_compute; reflexivity)
              ltac:(vm_compute; reflexivity) ltac:(vm_compute; reflexivity))
    as [_ H].
  eexists. split; [vm_compute; reflexivity|].
  split; [vm_compute; reflexivity|].
  split; [vm_compute; reflexivity|].
  split; [vm_compute; reflexivity|].
  split; [cbn; lia|].
  apply H. cbn. lia.
Defined.

(** X12.  At every state of a run [Object.keys(imageCache)] lists each
    cached URL once, however often it was loaded: a URL occurring twice
    in [images] has one key. *)
Theorem cache_keys_distinct {web : Browser} o t s :
  run (constructor o) t = Some s -> NoDup (keys (imageCache s)).
Proof.
  intros R. apply keys_NoDup.
  apply (@run_own_NoDup _ t (constructor o) s); [constructor | exact R].
Qed.

Lemma cache_keys_distinct_witness :
  let o := {| opt_images := Some ["a"; "a"; "b"]; opt_showUI := None |} in
  let t := [PreloadAll; Load 1; Load 2; Load 0] in
  exists s,
    run (constructor o) t = Some s /\
    keys (imageCache s) = ["a"; "b"] /\
    NoDup (keys (imageCache s)).
Proof.
  intros o t. eexists. split; [vm_compute; reflexivity|].
  split; [vm_compute; reflexivity|].
  refine (@cache_keys_distinct _ o t _ _). vm_compute; reflexivity.
Defined.

Import LoaderUI.

Section UiFacts.

Lemma pop_None l : pop l = None <-> l = [].
Proof.
  destruct l as [|x r]; cbn; [tauto|].
  destruct (pop r) as [[y r']|]; [destruct (fst x <=? fst y)|];
    split; intros; discriminate.
Qed.

Lemma pop_In l : forall x rest,
  pop l = Some (x, rest) -> forall y, In y l <-> y = x \/ In y rest.
Proof.
  induction l as [|a r IH]; intros x rest P y; cbn in P; [discriminate|].
  destruct (pop r) as [[b r']|] eqn:E.
  - specialize (IH b r' eq_refl).
    destruct (fst a <=? fst b); inversion P; subst; cbn.
    + intuition.
    + rewrite IH. intuition.
  - apply pop_None in E. subst r. inversion P; subst. cbn. intuition.
Qed.

Lemma weight_cons a r :
  weight (a :: r) = match snd a with FadeOut => 2 | _ => 1 end + weight r.
Proof. reflexivity. Qed.

Lemma pop_weight l x rest :
  pop l = Some (x, rest) ->
  weight l = match snd x with FadeOut => 2 | _ => 1 end + weight rest.
Proof.
  revert x rest. induction l as [|a r IH]; intros x rest P; cbn in P; [discriminate|].
  destruct (pop r) as [[b r']|] eqn:E.
  - specialize (IH b r' eq_refl).
    destruct (fst a <=? fst b); inversion P; subst; rewrite !weight_cons;
      [reflexivity|].
    rewrite IH. lia.
  - apply pop_None in E. subst r. inversion P; subst. apply weight_cons.
Qed.

Lemma weight_app a b : weight (a ++ b) = weight a + weight b.
Proof. unfold weight. rewrite map_app. apply list_sum_app'. Qed.

Lemma weight_le l : weight l <= 2 * List.length l.
Proof.
  induction l as [|x r IH]; [cbn; lia|].
  rewrite weight_cons. cbn [List.length]. destruct (snd x); lia.
Qed.

Lemma fire_hiding u u' : hiding u -> fire u = Some u' -> hiding u'.
Proof.
  intros H F. unfold fire in F.
  destruct (pop (timers u)) as [[[due k] rest]|] eqn:P; [|discriminate].
  inversion F; subst u'; clear F.
  destruct k; cbn.
  - right. exists (Nat.max (now u) due + 500, DisplayNone).
    split; [apply in_or_app; right; left; reflexivity | reflexivity].
  - left. reflexivity.
  - destruct H as [H|(x & I & Hx)]; [left; exact H|].
    right. apply (pop_In _ P) in I. destruct I as [I|I].
    + subst x. discriminate.
    + exists x. auto.
Qed.

Lemma fire_weight u u' :
  fire u = Some u' -> weight (timers u') < weight (timers u).
Proof.
  intros F. unfold fire in F.
  destruct (pop (timers u)) as [[[due k] rest]|] eqn:P; [|discriminate].
  inversion F; subst u'; clear F.
  rewrite (pop_weight _ P). destruct k; cbn [run_task setTimeout set_opacity set_display timers snd];
    rewrite ?weight_app, ?weight_cons; cbn [snd weight map list_sum fold_right]; lia.
Qed.

Lemma settle_within_hidden n : forall u,
  weight (timers u) <= n -> hiding u ->
  display (settle_within n u) = "none" /\ timers (settle_within n u) = [].
Proof.
  induction n as [|n IH]; intros u W H; cbn.
  - assert (T : timers u = []).
    { destruct (timers u) as [|x r]; [reflexivity|].
      rewrite weight_cons in W. destruct (snd x); lia. }
    split; [|exact T]. destruct H as [H|(x & I & _)]; [exact H|].
    rewrite T in I. destruct I.
  - destruct (fire u) as [u'|] eqn:F.
    + apply IH; [pose proof (fire_weight _ F); lia | eapply fire_hiding; eauto].
    + unfold fire in F.
      destruct (pop (timers u)) as [[[due k] rest]|] eqn:P; [discriminate|].
      apply pop_None in P. split; [|exact P].
      destruct H as [H|(x & I & _)]; [exact H|]. rewrite P in I. destruct I.
Qed.

Lemma updateProgress_timers u p :
  exists l, timers (updateProgress u p) = timers u ++ l /\
            (number_ge p (lit 100) = true -> exists x, In x l /\ hides (snd x) = true).
Proof.
  unfold updateProgress. destruct (number_ge p (lit 100)).
  - eexists. split; [reflexivity|]. intros _. eexists. split; [left; reflexivity|].
    reflexivity.
  - exists []. split; [|discriminate].
    destruct (number_lt (lit 0) p); cbn; rewrite app_nil_r; reflexivity.
Qed.

Lemma replay_timers l : forall u,
  (exists x, In x (timers u) /\ hides (snd x) = true) ->
  exists x, In x (timers (replay l u)) /\ hides (snd x) = true.
Proof.
  induction l as [|p r IH]; intros u H; cbn; [exact H|].
  apply IH. destruct H as (x & I & Hx).
  destruct (updateProgress_timers u p) as (l & E & _).
  exists x. rewrite E. split; [apply in_or_app; auto | exact Hx].
Qed.

Lemma replay_reaches_100 l : forall u,
  existsb (fun p => number_ge p (lit 100)) l = true ->
  exists x, In x (timers (replay l u)) /\ hides (snd x) = true.
Proof.
  induction l as [|p r IH]; intros u H; cbn in H; [discriminate|].
  cbn [replay fold_left]. fold (replay r (updateProgress u p)).
  destruct (number_ge p (lit 100)) eqn:G.
  - apply replay_timers.
    destruct (updateProgress_timers u p) as (l & E & X).
    destruct (X G) as (x & I & Hx). exists x. rewrite E.
    split; [apply in_or_app; auto | exact Hx].
  - apply IH. exact H.
Qed.

Lemma fire_showing u u' : showing u -> fire u = Some u' -> showing u'.
Proof.
  intros (D & O & T) F. unfold fire in F.
  destruct (pop (timers u)) as [[[due k] rest]|] eqn:P; [|discriminate].
  inversion F; subst u'; clear F.
  assert (K : k = OpacityOne).
  { apply (T (due, k)). apply (pop_In _ P). left. reflexivity. }
  subst k. cbn. repeat split; auto.
  intros x I. apply T. apply (pop_In _ P). right. exact I.
Qed.

Lemma settle_within_showing n : forall u,
  showing u -> showing (settle_within n u).
Proof.
  induction n as [|n IH]; intros u H; cbn; [exact H|].
  destruct (fire u) as [u'|] eqn:F; [|exact H].
  apply IH. eapply fire_showing; eauto.
Qed.

Lemma settle_within_empties n : forall u,
  weight (timers u) <= n -> timers (settle_within n u) = [].
Proof.
  induction n as [|n IH]; intros u W; cbn.
  - destruct (timers u) as [|x r]; [reflexivity|].
    rewrite weight_cons in W. destruct (snd x); lia.
  - destruct (fire u) as [u'|] eqn:F.
    + apply IH. pose proof (fire_weight _ F). lia.
    + unfold fire in F.
      destruct (pop (timers u)) as [[[due k] rest]|] eqn:P; [discriminate|].
      apply pop_None in P. exact P.
Qed.

Lemma updateProgress_below u p :
  number_ge p (lit 100) = false ->
  timers (updateProgress u p) = timers u /\
  (number_lt (lit 0) p = true ->
   display (updateProgress u p) = "flex" /\ opacity (updateProgress u p) = "1") /\
  (number_lt (lit 0) p = false ->
   display (updateProgress u p) = display u /\
   opacity (updateProgress u p) = opacity u).
Proof.
  intros G. unfold updateProgress. rewrite G.
  destruct (number_lt (lit 0) p); cbn; repeat split; auto; discriminate.
Qed.

Lemma replay_showing l : forall u,
  forallb below_100 l = true ->
  (forall x, In x (timers u) -> snd x = OpacityOne) ->
  (showing u \/ existsb (number_lt (lit 0)) l = true) ->
  showing (replay l u).
Proof.
  induction l as [|p r IH]; intros u B T S; cbn [forallb existsb] in B, S.
  - destruct S as [S|S]; [exact S | discriminate].
  - apply andb_prop in B. destruct B as [B1 B2].
    unfold below_100 in B1. apply negb_true_iff in B1.
    destruct (@updateProgress_below u p B1) as (Tm & Pos & Zero).
    cbn [replay fold_left]. fold (replay r (updateProgress u p)).
    apply IH; [exact B2 | rewrite Tm; exact T |].
    destruct (number_lt (lit 0) p) eqn:L.
    + left. destruct (Pos eq_refl) as [D O]. repeat split; auto.
      rewrite Tm. exact T.
    + destruct S as [(D & O & _)|S].
      * left. destruct (Zero eq_refl) as [D' O']. repeat split; try congruence.
        rewrite Tm. exact T.
      * right. cbn [orb] in S. exact S.
Qed.

Lemma settle_replay_hidden l u :
  existsb (fun p => number_ge p (lit 100)) l = true ->
  display (settle (replay l u)) = "none" /\ timers (settle (replay l u)) = [].
Proof.
  intros H. unfold settle. apply settle_within_hidden.
  - apply weight_le.
  - right. apply replay_reaches_100, H.
Qed.

Lemma In_without (A : Type) (l : list A) : forall k x y,
  nth_error l k = Some y -> In x l -> x <> y ->
  In x (firstn k l ++ skipn (S k) l).
Proof.
  induction l as [|a r IH]; intros k x y N I D; [destruct I|].
  destruct k as [|k]; cbn in *.
  - inversion N; subst. destruct I as [I|I]; [congruence | exact I].
  - destruct I as [I|I]; [left; exact I | right; eapply IH; eauto].
Qed.

(** Whichever pending timer fires, a bar that is hidden or about to be
    stays so. *)
Lemma fire_at_hiding k u : hiding u -> hiding (fire_at k u).
Proof.
  intros H. unfold fire_at.
  destruct (nth_error (timers u) k) as [[due t]|] eqn:N; [|exact H].
  destruct t; cbn.
  - right. exists (Nat.max (now u) due + 500, DisplayNone).
    split; [apply in_or_app; right; left; reflexivity | reflexivity].
  - left. reflexivity.
  - destruct H as [H|(x & I & Hx)]; [left; exact H|].
    right. exists x. split; [|exact Hx].
    apply (In_without _ _ N I). intros E. subst x. discriminate.
Qed.

Lemma updates_app a b : updates (a ++ b) = updates a ++ updates b.
Proof.
  induction a as [|e r IH]; cbn; [reflexivity|].
  destruct e; cbn; rewrite IH; reflexivity.
Qed.

(** After a history whose last percentage is 100 or more the bar is
    hidden or about to be, whatever fired in between and since. *)
Lemma play_hiding l : forall u,
  ends_at_100 (updates l) = true -> hiding (play l u).
Proof.
  induction l as [|e r IH] using rev_ind; intros u H.
  - discriminate.
  - unfold play. rewrite fold_left_app. cbn [fold_left]. fold (play r u).
    rewrite updates_app in H. destruct e as [p|k]; cbn [happen updates] in *.
    + unfold ends_at_100 in H. rewrite last_last in H.
      destruct (updateProgress_timers (play r u) p) as (l & E & X).
      destruct (X H) as (x & I & Hx). right. exists x. rewrite E.
      split; [apply in_or_app; auto | exact Hx].
    + rewrite app_nil_r in H. apply fire_at_hiding, IH, H.
Qed.

Lemma hiding_settled u : hiding u -> timers u = [] -> display u = "none".
Proof.
  intros [H|(x & I & _)] T; [exact H|]. rewrite T in I. destruct I.
Qed.

Lemma play_ends_hidden l u :
  ends_at_100 (updates l) = true ->
  (timers (play l u) = [] -> display (play l u) = "none") /\
  display (settle (play l u)) = "none" /\ timers (settle (play l u)) = [].
Proof.
  intros H. pose proof (play_hiding l u H) as G. split.
  - apply hiding_settled, G.
  - unfold settle. apply settle_within_hidden; [apply weight_le | exact G].
Qed.

End UiFacts.

(** X13.  Once [updateProgress] has been given 100 or more, the
    container ends hidden when the timers have fired, whatever the
    percentages given after it and before the timers: the [setTimeout]
    that hides the bar is never cancelled, and a later percentage below
    100 shows the bar only until it fires. *)
Theorem bar_hidden_after_100 l u :
  existsb (fun p => number_ge p (lit 100)) l = true ->
  display (settle (replay l u)) = "none" /\ timers (settle (replay l u)) = [].
Proof.
  apply settle_replay_hidden.
Qed.

Lemma bar_hidden_after_100_witness :
  let l := [lit 50; lit 100; lit 33] in
  existsb (fun p => number_ge p (lit 100)) l = true /\
  display (replay l (constructed true "")) = "flex" /\
  display (settle (replay l (constructed true ""))) = "none".
Proof.
  intros l. split; [reflexivity|]. split; [reflexivity|].
  refine (proj1 (@bar_hidden_after_100 l (constructed true "") _)).
  reflexivity.
Defined.

(** X14.  On the UI as the loader's constructor leaves it, percentages
    that all stay below 100 and of which one is above 0 leave the
    container visible when the timers have fired: [display] is [flex],
    [opacity] is [1], and no timer is pending. *)
Theorem bar_visible_below_100 l b o :
  forallb below_100 l = true ->
  existsb (number_lt (lit 0)) l = true ->
  let u := settle (replay l (constructed b o)) in
  display u = "flex" /\ opacity u = "1" /\ timers u = [].
Proof.
  intros B P. cbv zeta.
  assert (T : forall x, In x (timers (constructed b o)) -> snd x = OpacityOne).
  { intros x I. unfold constructed, show, init, updateProgress in I.
    cbn in I. destruct I as [I|[]]. subst x. reflexivity. }
  pose proof (@replay_showing l (constructed b o) B T (or_intror P)) as S.
  unfold settle.
  destruct (settle_within_showing
              (2 * List.length (timers (replay l (constructed b o)))) S)
    as (D & O & _).
  split; [exact D|]. split; [exact O|].
  apply settle_within_empties, weight_le.
Qed.

Lemma bar_visible_below_100_witness :
  let l := [lit 0; lit 33; lit 67] in
  forallb below_100 l = true /\
  existsb (number_lt (lit 0)) l = true /\
  opacity (settle (replay l (constructed true ""))) = "1".
Proof.
  intros l. split; [reflexivity|]. split; [reflexivity|].
  refine (proj1 (proj2 (@bar_visible_below_100 l true "" _ _))); reflexivity.
Defined.

Section Composition.

Context {web : Browser}.

Lemma reached_100_app a b :
  reached_100 (a ++ b) = reached_100 a || reached_100 b.
Proof. apply existsb_app. Qed.

Lemma step_completed_at_100 s a s' :
  completed_at_100 s -> step s a = Some s' -> completed_at_100 s'.
Proof.
  intros G St. destruct a as [| l | h | h].
  - inversion St; subst s'; clear St.
    destruct (Nat.eq_dec (totalImages s) 0) as [Z|Z].
    + destruct (@preloadAll_empty s Z) as (Ca & _).
      right. unfold progress_values. rewrite Ca, percentages_app.
      rewrite reached_100_app. cbn. apply orb_true_r.
    + destruct (@preloadAll_nonempty s Z) as (_ & _ & _ & _ & _ & _ & Ca).
      unfold completed_at_100, progress_values, completions in *. rewrite Ca. exact G.
  - inversion St; subst s'; clear St.
    destruct (addImages_effect s l) as (_ & _ & _ & _ & _ & _ & Ca).
    unfold completed_at_100, progress_values, completions in *. rewrite Ca. exact G.
  - destruct (returns s (Load h)) eqn:Re.
    + pose proof (@event_completions _ s (Load h) s' eq_refl St Re) as C.
      pose proof (@event_progress _ s (Load h) s' eq_refl St Re) as P.
      destruct (@event_effect _ s (Load h) s' eq_refl St)
        as (h' & i & pre & _ & _ & _ & Lo & To & _).
      unfold completed_at_100. rewrite P, reached_100_app.
      destruct (Nat.eqb_spec (loadedImages s') (totalImages s')) as [E|N].
      * right. rewrite <- Lo, <- To, E, percentage_full by lia.
        cbn. apply orb_true_r.
      * destruct G as [G|G]; [left; lia | right; rewrite G; reflexivity].
    + pose proof (@throw_keeps_calls _ s (Load h) s' eq_refl St Re) as Ca.
      unfold completed_at_100, progress_values, completions in *. rewrite Ca. exact G.
  - pose proof (@event_completions _ s (Error h) s' eq_refl St eq_refl) as C.
    pose proof (@event_progress _ s (Error h) s' eq_refl St eq_refl) as P.
    destruct (@event_effect _ s (Error h) s' eq_refl St)
      as (h' & i & pre & _ & _ & _ & Lo & To & _).
    unfold completed_at_100. rewrite P, reached_100_app.
    destruct (Nat.eqb_spec (loadedImages s') (totalImages s')) as [E|N].
    + right. rewrite <- Lo, <- To, E, percentage_full by lia.
      cbn. apply orb_true_r.
    + destruct G as [G|G]; [left; lia | right; rewrite G; reflexivity].
Qed.

Lemma run_completed_at_100 t : forall s s',
  completed_at_100 s -> run s t = Some s' -> completed_at_100 s'.
Proof.
  induction t as [|a r IH]; intros s s' G R; simpl in R.
  - inversion R; subst. exact G.
  - destruct (step s a) as [s1|] eqn:St; [|discriminate].
    apply (IH s1 s'); auto. eapply step_completed_at_100; eauto.
Qed.

Local Open Scope Q_scope.

Lemma random_entry (l : list string) r :
  representable r -> 0 <= r -> r < 1 ->
  (Z.of_nat (List.length l) < 2 ^ 32)%Z -> l <> [] ->
  exists u, In u l /\ at_index l (randomIndex r l) = Some u.
Proof.
  intros Hr H0 H1 Hb Hne.
  assert (Hn : (0 < List.length l)%nat).
  { destruct l; [congruence | cbn; lia]. }
  destruct (random_index_bound Hr H0 H1 Hn Hb) as (i & Hi & E).
  unfold randomIndex, at_index. rewrite E, as_index_of_nat.
  destruct (nth_error l i) as [u|] eqn:N.
  - exists u. split; [eapply nth_error_In; eauto | reflexivity].
  - apply nth_error_None in N. lia.
Qed.

End Composition.

(** X15.  In every run in which [onComplete] has been invoked,
    [onProgress] has been given 100 before.  And when the last percentage
    reported is 100 or more, the bar that is given the reported
    percentages ends hidden once no timer is pending, in whatever order
    its timers fire and however their firing falls between the
    reports. *)
Theorem bar_hidden_after_completion {web : Browser} o t s :
  run (constructor o) t = Some s ->
  0 < completions s ->
  reached_100 (progress_values s) = true /\
  forall l u,
    updates l = progress_values s ->
    ends_at_100 (progress_values s) = true ->
    (timers (play l u) = [] -> display (play l u) = "none") /\
    display (settle (play l u)) = "none" /\
    timers (settle (play l u)) = [].
Proof.
  intros R C.
  assert (G0 : completed_at_100 (constructor o)) by (left; reflexivity).
  destruct (@run_completed_at_100 _ t _ _ G0 R) as [G|G]; [lia|].
  split; [exact G|]. intros l u U E. rewrite <- U in E.
  apply play_ends_hidden, E.
Qed.

Lemma bar_hidden_after_completion_witness :
  let o := {| opt_images := Some ["a"; "b"]; opt_showUI := Some true |} in
  let t := [PreloadAll; Load 0; Error 1] in
  let l := [Update (lit 50); Timeout 0; Update (lit 100); Timeout 0] in
  exists s,
    run (constructor o) t = Some s /\
    0 < completions s /\
    updates l = progress_values s /\
    ends_at_100 (progress_values s) = true /\
    display (play l (constructed true "")) = "flex" /\
    display (settle (play l (constructed true ""))) = "none".
Proof.
  intros o t l.
  destruct (@bar_hidden_after_completion _ o t _
              ltac:(vm_compute; reflexivity) ltac:(vm_compute; lia))
    as [_ H].
  eexists. split; [vm_compute; reflexivity|].
  split; [vm_compute; lia|]. split; [vm_compute; reflexivity|].
  split; [vm_compute; reflexivity|]. split; [vm_compute; reflexivity|].
  apply (H l (constructed true ""));  vm_compute; reflexivity.
Defined.

(** The counterpart: a percentage below 100 that is reported after the
    hiding timers have fired shows the bar again, and nothing hides it. *)
Example bar_shown_by_late_progress :
  let u := play [Update (lit 100); Timeout 0; Timeout 0; Timeout 0;
                 Update (lit 67)] (constructed true "") in
  display u = "flex" /\ opacity u = "1" /\ timers u = [].
Proof. vm_compute. auto. Qed.

(** X16.  [window.getRandomImage()] of the page, for every pair of
    values [Math.random()] can return: with a non-empty page list it
    returns a string, which is a non-empty key of the cache or an entry
    of the page list; with an empty page list and an empty cache it
    returns [undefined]. *)
Theorem window_getRandomImage_result s page_images r1 r2 :
  representable r1 -> (0 <= r1)%Q -> (r1 < 1)%Q ->
  representable r2 -> (0 <= r2)%Q -> (r2 < 1)%Q ->
  (Z.of_nat (List.length (keys (imageCache s))) < 2 ^ 32)%Z ->
  (Z.of_nat (List.length page_images) < 2 ^ 32)%Z ->
  (page_images <> [] ->
   exists u, window_getRandomImage s page_images r1 r2 = Str u /\
     (In u (keys (imageCache s)) /\ u <> "" \/ In u page_images)) /\
  (page_images = [] -> own (imageCache s) = [] ->
   window_getRandomImage s page_images r1 r2 = Undefined).
Proof.
  intros Hr1 A1 B1 Hr2 A2 B2 Hk Hp.
  pose proof (@random_key s r1 Hr1 A1 B1 Hk) as RK.
  pose proof (@random_entry page_images r2 Hr2 A2 B2 Hp) as RE.
  unfold window_getRandomImage, getRandomImageURL.
  split.
  - intros Ne. destruct (RE Ne) as (u & Iu & Eu).
    destruct (keys (imageCache s)) as [|k0 ks] eqn:K.
    + cbn. rewrite Eu. exists u. auto.
    + destruct (RK ltac:(discriminate)) as (k & Ik & Ek).
      cbn [List.length Nat.eqb]. rewrite Ek. cbn [truthy].
      destruct (String.eqb_spec k "") as [E|N]; cbn [negb].
      * rewrite Eu. exists u. auto.
      * exists k. auto.
  - intros E O. apply keys_nil in O. rewrite O. subst page_images. cbn.
    unfold at_index. destruct (as_index _) as [[|n]|]; reflexivity.
Qed.

Lemma window_getRandomImage_result_witness :
  let s := loader_of ["a"] in
  representable (1 # 2) /\ (0 <= 1 # 2)%Q /\ (1 # 2 < 1)%Q /\
  (Z.of_nat (List.length (keys (imageCache s))) < 2 ^ 32)%Z /\
  (Z.of_nat (List.length ["x"; "y"]) < 2 ^ 32)%Z /\
  window_getRandomImage s ["x"; "y"] (1 # 2) (1 # 2) = Str "y" /\
  exists u, window_getRandomImage s ["x"; "y"] (1 # 2) (1 # 2) = Str u.
Proof.
  intros s.
  assert (R : representable (1 # 2)) by (vm_compute; reflexivity).
  assert (A : (0 <= 1 # 2)%Q) by (vm_compute; discriminate).
  assert (B : (1 # 2 < 1)%Q) by (vm_compute; reflexivity).
  assert (K : (Z.of_nat (List.length (keys (imageCache s))) < 2 ^ 32)%Z)
    by (vm_compute; reflexivity).
  assert (P : (Z.of_nat (List.length ["x"; "y"]) < 2 ^ 32)%Z)
    by (vm_compute; reflexivity).
  repeat (split; [assumption|]).
  split; [vm_compute; reflexivity|].
  destruct (proj1 (@window_getRandomImage_result s ["x"; "y"] (1 # 2) (1 # 2)
                     R A B R A B K P) ltac:(discriminate)) as (u & E & _).
  exists u. exact E.
Defined.

Section Mirror.

Context {web : Browser}.

Lemma array_set_end a v : array_set a (List.length a) v = a ++ [Some v].
Proof.
  unfold array_set. rewrite Nat.ltb_irrefl, Nat.sub_diag. reflexivity.
Qed.

Lemma forEach_imageElements_append l : forall k i s,
  List.length (imageElements s) = k + i ->
  imageElements
    (forEach_from (fun s src j => preloadImage s src (k + j)) l i s)
  = imageElements s
    ++ map Some (seq (List.length (elements s)) (List.length l)).
Proof.
  induction l as [|x r IH]; intros k i s L; cbn [forEach_from List.length seq map].
  - rewrite app_nil_r. reflexivity.
  - rewrite IH.
    + cbn [preloadImage imageElements elements].
      rewrite <- L, array_set_end, <- app_assoc, length_app. cbn.
      rewrite Nat.add_1_r. reflexivity.
    + cbn [preloadImage imageElements]. rewrite <- L, array_set_end, length_app.
      cbn. lia.
Qed.

Lemma fresh_images_index l i : map img_index (fresh_images l i) = seq i (List.length l).
Proof. revert i. induction l; intros; cbn; f_equal; auto. Qed.

Lemma update_index h f d :
  (forall i, img_index (f i) = img_index i) ->
  map img_index (update h f d) = map img_index d.
Proof.
  intros Hf. revert h. induction d; intros [|h]; simpl; f_equal; auto.
Qed.

Lemma event_imageElements s a s' :
  is_event a = true -> step s a = Some s' -> imageElements s' = imageElements s.
Proof.
  intros Ev St. destruct a as [| l | h | h]; try discriminate.
  - destruct (@load_sets_cache _ s h s' St) as (i & _ & _ & IE & _). exact IE.
  - cbn [step] in St.
    destruct (nth_error (elements s) h) as [i|]; try discriminate.
    inversion St; subst s'; clear St. unfold handleImageError, report.
    cbn [onProgress call loadedImages totalImages onError set_loadedImages].
    destruct (_ =? _); reflexivity.
Qed.

Lemma step_mirrored s a s' :
  consistent s -> mirrored s -> step s a = Some s' ->
  match a with PreloadAll => List.length (elements s) =? 0 | _ => true end = true ->
  mirrored s'.
Proof.
  intros [T _] (M1 & M2 & M3 & M4) St P. destruct a as [| l | h | h].
  - inversion St; subst s'; clear St. apply Nat.eqb_eq in P.
    assert (Z : totalImages s = 0) by lia.
    destruct (@preloadAll_empty s Z) as (_ & E & I & _ & To & _).
    unfold mirrored. rewrite E, I, To.
    assert (IE : imageElements (preloadAll s) = imageElements s).
    { unfold preloadAll. rewrite Z. reflexivity. }
    rewrite IE. auto.
  - inversion St; subst s'; clear St.
    destruct (addImages_effect s l) as (E & I & To & _).
    unfold mirrored. rewrite E, I, To, !length_app, !map_app.
    rewrite fresh_images_length, fresh_images_src, fresh_images_index.
    rewrite <- T, M3, M4, seq_app, map_app. cbn [Nat.add].
    repeat split; try lia.
    unfold addImages, forEach.
    rewrite forEach_imageElements_append.
    + cbn [imageElements elements]. rewrite M1, M2. reflexivity.
    + cbn [imageElements]. rewrite M1, length_map, length_seq. lia.
  - destruct (@event_effect _ s (Load h) s' eq_refl St)
      as (h' & i' & pre & _ & _ & _ & _ & To & I & E & _).
    pose proof (@event_imageElements s (Load h) s' eq_refl St) as IE.
    cbv beta iota in E. unfold mirrored.
    rewrite IE, To, I, E, update_length, update_src, update_index by reflexivity.
    auto.
  - destruct (@event_effect _ s (Error h) s' eq_refl St)
      as (h' & i' & pre & _ & _ & _ & _ & To & I & E & _).
    pose proof (@event_imageElements s (Error h) s' eq_refl St) as IE.
    cbv beta iota in E. unfold mirrored.
    rewrite IE, To, I, E, update_length, update_src, update_index by reflexivity.
    auto.
Qed.

Lemma run_mirrored t : forall s s',
  consistent s -> mirrored s -> run s t = Some s' ->
  preloadAll_first s t = true -> mirrored s'.
Proof.
  induction t as [|a r IH]; intros s s' C M R P; simpl in R, P.
  - inversion R; subst. exact M.
  - destruct (step s a) as [s1|] eqn:St; [|discriminate].
    apply andb_prop in P. destruct P as [P1 P2].
    apply (IH s1 s'); auto.
    + eapply step_consistent; eauto.
    + eapply step_mirrored; eauto.
Qed.

Lemma preloadAll_mirrored o : mirrored (preloadAll (constructor o)).
Proof.
  set (s := constructor o).
  destruct (Nat.eq_dec (totalImages s) 0) as [Z|Z].
  - destruct (@preloadAll_empty s Z) as (_ & E & I & _ & To & _).
    unfold mirrored. rewrite E, I, To.
    assert (IE : imageElements (preloadAll s) = imageElements s).
    { unfold preloadAll. rewrite Z. reflexivity. }
    rewrite IE. rewrite Z.
    assert (Im : images s = []).
    { apply length_zero_iff_nil. destruct (constructor_consistent o) as [T _].
      fold s in T. lia. }
    rewrite Im. cbn. auto.
  - destruct (@preloadAll_nonempty s Z) as (E & I & _ & To & _).
    assert (Es : elements s = []) by reflexivity.
    assert (T : totalImages s = List.length (images s)) by reflexivity.
    unfold mirrored. rewrite E, I, To, Es. cbn [app].
    rewrite fresh_images_src, fresh_images_index, fresh_images_length, <- T.
    repeat split; auto.
    unfold preloadAll. apply Nat.eqb_neq in Z. rewrite Z. unfold forEach.
    pose proof (@forEach_imageElements_append (images s) 0 0 s eq_refl) as A.
    cbn [Nat.add] in A. rewrite A, Es, <- T. reflexivity.
Qed.

End Mirror.

(** X17.  In a run that starts with [preloadAll()] and in which
    [preloadAll] is not called again once an element exists, at every
    state there is exactly one image element per entry of [images]:
    element [h] was created for [images[h]] with index [h], and
    [imageElements[h]] is that element, also after any number of
    [addImages] calls. *)
Theorem elements_mirror_images {web : Browser} o t s :
  run (constructor o) (PreloadAll :: t) = Some s ->
  preloadAll_first (preloadAll (constructor o)) t = true ->
  imageElements s = map Some (seq 0 (List.length (images s))) /\
  map img_src (elements s) = images s /\
  map img_index (elements s) = seq 0 (List.length (images s)).
Proof.
  intros R P. cbn [run step] in R.
  assert (C0 : consistent (preloadAll (constructor o))).
  { apply (@step_consistent _ (constructor o) PreloadAll);
      [apply constructor_consistent | reflexivity]. }
  destruct (@run_mirrored _ t _ _ C0 (preloadAll_mirrored o) R P)
    as (M1 & _ & M3 & M4).
  destruct (@run_consistent _ t _ _ C0 R) as [T _].
  rewrite <- T. auto.
Qed.

Lemma elements_mirror_images_witness :
  let o := {| opt_images := Some ["a"; "b"]; opt_showUI := None |} in
  let t := [Load 1; AddImages ["c"]; Error 0; AddImages ["a"]] in
  exists s,
    run (constructor o) (PreloadAll :: t) = Some s /\
    preloadAll_first (preloadAll (constructor o)) t = true /\
    images s = ["a"; "b"; "c"; "a"] /\
    imageElements s = [Some 0; Some 1; Some 2; Some 3] /\
    map img_src (elements s) = images s.
Proof.
  intros o t. eexists. split; [vm_compute; reflexivity|].
  split; [vm_compute; reflexivity|].
  split; [vm_compute; reflexivity|].
  split; [vm_compute; reflexivity|].
  refine (proj1 (proj2 (@elements_mirror_images _ o t _ _ _)));
    vm_compute; reflexivity.
Defined.

Section NearestFacts.

Local Open Scope Q_scope.

Lemma rn_pos_lower x : x - ulp x / 2 <= rn_pos x.
Proof.
  unfold rn_pos. pose proof (ulp_pos x) as U.
  pose proof (rte_lower (x / ulp x)) as H.
  assert (E : x / ulp x * ulp x == x) by (field; lra).
  assert (D : ulp x / 2 == (1 # 2) * ulp x) by (field).
  rewrite D. nra.
Qed.

Lemma rn_lower x : 0 < x -> x - ulp x / 2 <= rn x.
Proof.
  intros Hx. rewrite (rn_positive Hx).
  assert (H : 0 < Qred x) by (rewrite Qred_correct; exact Hx).
  pose proof (rn_pos_lower (Qred x)) as U.
  rewrite (ulp_compat H (Qred_correct x)) in U.
  rewrite Qred_correct in U at 1. exact U.
Qed.

(** Relative error of one rounding, for a value of at least [2^-40]. *)
Lemma rn_close x :
  (1 # 1099511627776) <= x ->
  x - x * (1 # 4503599627370496) <= rn x /\
  rn x <= x + x * (1 # 4503599627370496).
Proof.
  intros Hx.
  assert (P : 0 < x) by lra.
  pose proof (rn_upper P) as U. pose proof (rn_lower P) as L.
  assert (H2 : ulp x / 2 == (1 # 2) * ulp x) by field.
  assert (C52 : pow2 (- (prec - 1)) == 1 # 4503599627370496) by reflexivity.
  assert (EM : pow2 (emin - (prec - 1)) <= 1 # 1329227995784915872903807060280344576).
  { change (1 # 1329227995784915872903807060280344576) with (pow2 (-120)).
    apply pow2_le. unfold emin, prec. lia. }
  destruct (ulp_bound P) as [B|B].
  - rewrite C52 in B. revert U L H2 B. generalize (ulp x) (rn x).
    intros w y U L H2 B. pose proof (ulp_pos x). split; lra.
  - revert U L H2 B EM. generalize (ulp x) (rn x) (pow2 (emin - (prec - 1))).
    intros w y e U L H2 B EM. split; lra.
Qed.

(** The percentage is a nearest integer to [100 * k / n]. *)
Lemma percentage_nearest k n :
  (0 < n)%nat -> (Z.of_nat n < 2 ^ 32)%Z -> (k <= n)%nat ->
  exists z, percentage k n = lit z /\
    (Z.abs (200 * Z.of_nat k - 2 * z * Z.of_nat n) <= Z.of_nat n)%Z.
Proof.
  intros Hn Hb Hk.
  destruct k as [|k'].
  { exists 0%Z. split; [apply percentage_none, Hn | lia]. }
  set (k := S k') in *.
  set (K := inject_Z (Z.of_nat k)). set (N := inject_Z (Z.of_nat n)).
  assert (HN : 0 < N) by (apply inject_nat_pos, Hn).
  assert (HK : 1 <= K).
  { unfold K. change 1 with (inject_Z 1). rewrite <- Zle_Qle. lia. }
  assert (HKN : K <= N) by (unfold K, N; rewrite <- Zle_Qle; lia).
  assert (HNb : N < 4294967296).
  { unfold N. change 4294967296 with (inject_Z (2 ^ 32)). rewrite <- Zlt_Qlt. exact Hb. }
  set (x1 := K / N).
  assert (Ex : x1 * N == K) by (unfold x1; field; lra).
  assert (X1a : (1 # 4294967296) <= x1).
  { apply Qmult_lt_0_le_reg_r with (z := N); [exact HN|]. rewrite Ex. lra. }
  assert (X1b : x1 <= 1).
  { apply Qmult_lt_0_le_reg_r with (z := N); [exact HN|]. rewrite Ex. lra. }
  destruct (@rn_close x1 ltac:(lra)) as [R1a R1b].
  set (r1 := rn x1) in *.
  destruct (@rn_close (r1 * 100) ltac:(lra)) as [R2a R2b].
  set (r2 := rn (r1 * 100)) in *.
  assert (BIG : 128 <= pow2 emax).
  { change 128 with (pow2 7). apply pow2_le. unfold emax. lia. }
  assert (X0 : 0 <= x1) by lra.
  assert (X2 : 0 <= r1 * 100) by lra.
  unfold percentage, of_nat, Number.div. fold K N.
  rewrite (is_zero_false HN). fold x1.
  destruct (of_exact_nonneg X0) as [[E A]|[E A]]; [fold r1 in A; lra|].
  rewrite E. fold r1. unfold lit at 1. cbn [Number.mul].
  change (inject_Z 100) with 100.
  destruct (of_exact_nonneg X2) as [[E2 A2]|[E2 A2]]; [fold r2 in A2; lra|].
  rewrite E2. fold r2. cbn [Math_round].
  set (z := Qfloor (r2 + (1 # 2))).
  exists z. split; [reflexivity|].
  pose proof (Qfloor_le (r2 + (1 # 2))) as F1.
  pose proof (Qlt_floor (r2 + (1 # 2))) as F2.
  fold z in F1, F2. rewrite inject_Z_plus in F2. change (inject_Z 1) with 1 in F2.
  set (Zq := inject_Z z) in *.
  (* the distance of [z] from [100 * x1] is at most 1/2 + 2^-40 *)
  assert (D1 : Zq - 100 * x1 <= (1 # 2) + (1 # 1099511627776)).
  { clear - F1 R1a R1b R2a R2b X1a X1b. clearbody r1 r2 x1 Zq. lra. }
  assert (D2 : - (1 # 2) - (1 # 1099511627776) < Zq - 100 * x1).
  { clear - F2 R1a R1b R2a R2b X1a X1b. clearbody r1 r2 x1 Zq. lra. }
  assert (M1 : (Zq - 100 * x1) * N <= ((1 # 2) + (1 # 1099511627776)) * N).
  { apply Qmult_le_compat_r; lra. }
  assert (M2 : (- (1 # 2) - (1 # 1099511627776)) * N < (Zq - 100 * x1) * N).
  { apply Qmult_lt_compat_r; lra. }
  assert (EN : (Zq - 100 * x1) * N == Zq * N - 100 * K).
  { rewrite <- Ex. ring. }
  rewrite EN in M1, M2.
  assert (I1 : 2 * (Zq * N) - 200 * K - N < 1).
  { clear - M1 HNb HN. clearbody N K Zq. lra. }
  assert (I2 : -1 < 2 * (Zq * N) - 200 * K + N).
  { clear - M2 HNb HN. clearbody N K Zq. lra. }
  assert (J1 : (2 * (z * Z.of_nat n) - 200 * Z.of_nat k - Z.of_nat n < 1)%Z).
  { rewrite Zlt_Qlt. unfold Zminus. rewrite !inject_Z_plus, !inject_Z_opp, !inject_Z_mult.
    fold K N Zq. change (inject_Z 2) with 2. change (inject_Z 200) with 200.
    change (inject_Z 1) with 1. lra. }
  assert (J2 : (-1 < 2 * (z * Z.of_nat n) - 200 * Z.of_nat k + Z.of_nat n)%Z).
  { rewrite Zlt_Qlt. unfold Zminus. rewrite !inject_Z_plus, !inject_Z_opp, !inject_Z_mult.
    fold K N Zq. change (inject_Z 2) with 2. change (inject_Z 200) with 200.
    change (inject_Z (-1)) with (-1). lra. }
  lia.
Qed.

End NearestFacts.

(** X18.  In every state with [0 < totalImages < 2^32] and
    [loadedImages <= totalImages], [getLoadingProgress()] is an integer
    nearest to [100 * loadedImages / totalImages]: it differs from the
    exact ratio by at most one half. *)
Theorem getLoadingProgress_nearest s :
  0 < totalImages s ->
  (Z.of_nat (totalImages s) < 2 ^ 32)%Z ->
  loadedImages s <= totalImages s ->
  exists z, getLoadingProgress s = lit z /\
    (Z.abs (200 * Z.of_nat (loadedImages s) - 2 * z * Z.of_nat (totalImages s))
     <= Z.of_nat (totalImages s))%Z.
Proof.
  intros Hn Hb Hk. unfold getLoadingProgress.
  destruct (Nat.eqb_spec (totalImages s) 0) as [Z|Z]; [lia|].
  apply percentage_nearest; assumption.
Qed.

Lemma getLoadingProgress_nearest_witness :
  let s := set_loadedImages (preloadAll (loader_of ["a"; "b"; "c"])) 2 in
  0 < totalImages s /\
  (Z.of_nat (totalImages s) < 2 ^ 32)%Z /\
  loadedImages s <= totalImages s /\
  getLoadingProgress s = lit 67 /\
  exists z, getLoadingProgress s = lit z /\
    (Z.abs (200 * Z.of_nat (loadedImages s) - 2 * z * Z.of_nat (totalImages s))
     <= Z.of_nat (totalImages s))%Z.
Proof.
  intros s. split; [cbn; lia|]. split; [reflexivity|]. split; [cbn; lia|].
  split; [vm_compute; reflexivity|].
  apply (@getLoadingProgress_nearest s); [cbn; lia | reflexivity | cbn; lia].
Defined.

Section ReportFacts.

Context {web : Browser}.

Lemma update_sum (g : image -> nat) h f d i n :
  nth_error d h = Some i -> g (f i) = n + g i ->
  list_sum (map g (update h f d)) = n + list_sum (map g d).
Proof.
  revert h. induction d as [|x r IH]; intros [|h] N F; simpl in *; try discriminate.
  - inversion N; subst. lia.
  - rewrite (IH h N F). lia.
Qed.

Lemma fresh_images_errors l i : list_sum (map img_errors (fresh_images l i)) = 0.
Proof. revert i. induction l; intros; simpl; auto. Qed.

Lemma error_calls_app s s' l :
  calls s' = calls s ++ l ->
  error_calls s' = error_calls s + List.length (filter is_error l).
Proof.
  intros C. unfold error_calls. rewrite C, filter_app, length_app. reflexivity.
Qed.

Lemma completion_no_error s : filter is_error (completion s) = [].
Proof. unfold completion. destruct (_ =? _); reflexivity. Qed.

Lemma step_reported s a s' :
  consistent s -> reported s -> step s a = Some s' -> reported s'.
Proof.
  intros [T _] (P & L & E) St. destruct a as [| l | h | h].
  - inversion St; subst s'; clear St.
    assert (Z : totalImages s <> 0) by lia.
    destruct (@preloadAll_nonempty s Z) as (El & _ & Lo & To & _ & _ & Ca).
    unfold reported, progress_values, error_calls in *.
    rewrite El, Lo, To, Ca, map_app, list_sum_app', fresh_images_errors. lia.
  - inversion St; subst s'; clear St.
    destruct (addImages_effect s l) as (El & _ & To & Lo & _ & _ & Ca).
    unfold reported, progress_values, error_calls in *.
    rewrite El, Lo, To, Ca, map_app, list_sum_app', fresh_images_errors, length_app.
    lia.
  - destruct (@event_effect _ s (Load h) s' eq_refl St)
      as (h' & i & pre & A & N & Pe & Lo & To & _ & El & C).
    assert (h' = h) by (destruct A as [A|A]; inversion A; reflexivity).
    subst h'. cbv beta iota in El.
    destruct Pe as [[Pe _]|[_ Pe]]; [|discriminate]. subst pre.
    unfold reported. rewrite (@error_calls_app _ _ _ C), Lo, To, El.
    rewrite (@update_sum img_errors h deliver_load _ i 0 N eq_refl).
    unfold progress_values. rewrite C, percentages_app, length_app.
    destruct (returns s (Load h)).
    + cbn [app filter is_error percentages List.length].
      rewrite completion_no_error, percentages_completion.
      unfold progress_values in L. cbn. lia.
    + unfold progress_values in L. cbn. lia.
  - destruct (@event_effect _ s (Error h) s' eq_refl St)
      as (h' & i & pre & A & N & Pe & Lo & To & _ & El & C).
    assert (h' = h) by (destruct A as [A|A]; inversion A; reflexivity).
    subst h'. cbv beta iota in El. cbn [returns] in C.
    destruct Pe as [[_ Pe]|[Pe _]]; [discriminate|]. subst pre.
    unfold reported. rewrite (@error_calls_app _ _ _ C), Lo, To, El.
    rewrite (@update_sum img_errors h deliver_error _ i 1 N eq_refl).
    unfold progress_values. rewrite C, percentages_app, length_app.
    cbn [app filter is_error percentages List.length].
    rewrite completion_no_error, percentages_completion.
    unfold progress_values in L. cbn. lia.
Qed.

Lemma run_reported t : forall s s',
  consistent s -> reported s -> run s t = Some s' -> reported s'.
Proof.
  induction t as [|a r IH]; intros s s' C G R; simpl in R.
  - inversion R; subst. exact G.
  - destruct (step s a) as [s1|] eqn:St; [|discriminate].
    apply (IH s1 s'); auto.
    + eapply step_consistent; eauto.
    + eapply step_reported; eauto.
Qed.

Lemma step_reported_each s a s' :
  consistent s -> reported_each s -> step s a = Some s' ->
  returns s a = true -> reported_each s'.
Proof.
  intros [T _] (P & L) St Re. destruct a as [| l | h | h].
  - inversion St; subst s'; clear St.
    assert (Z : totalImages s <> 0) by lia.
    destruct (@preloadAll_nonempty s Z) as (_ & _ & Lo & To & _ & _ & Ca).
    unfold reported_each, progress_values in *. rewrite Lo, To, Ca. lia.
  - inversion St; subst s'; clear St.
    destruct (addImages_effect s l) as (_ & _ & To & Lo & _ & _ & Ca).
    unfold reported_each, progress_values in *.
    rewrite Lo, To, Ca, length_app. lia.
  - pose proof (@event_progress _ s (Load h) s' eq_refl St Re) as Pr.
    destruct (@event_effect _ s (Load h) s' eq_refl St)
      as (h' & i & pre & _ & _ & _ & Lo & To & _).
    unfold reported_each. rewrite Pr, length_app, Lo, To. cbn. lia.
  - pose proof (@event_progress _ s (Error h) s' eq_refl St Re) as Pr.
    destruct (@event_effect _ s (Error h) s' eq_refl St)
      as (h' & i & pre & _ & _ & _ & Lo & To & _).
    unfold reported_each. rewrite Pr, length_app, Lo, To. cbn. lia.
Qed.

Lemma run_reported_each t : forall s s',
  consistent s -> reported_each s -> run s t = Some s' ->
  handlers_return s t = true -> reported_each s'.
Proof.
  induction t as [|a r IH]; intros s s' C G R H; simpl in R, H.
  - inversion R; subst. exact G.
  - destruct (step s a) as [s1|] eqn:St; [|discriminate].
    apply andb_prop in H. destruct H as [H1 H2].
    apply (IH s1 s'); auto.
    + eapply step_consistent; eauto.
    + eapply step_reported_each; eauto.
Qed.

End ReportFacts.

(** X19.  In every run of a loader created with a non-empty image
    list, whatever calls and events are interleaved, [onError] has been
    invoked exactly once per delivered [error] event and [onProgress] at
    most once per delivered event; and exactly once per delivered event
    ([loadedImages] times) when no exception has left an event
    handler. *)
Theorem callbacks_once_per_event {web : Browser} o t s :
  run (constructor o) t = Some s ->
  0 < totalImages (constructor o) ->
  error_calls s = list_sum (map img_errors (elements s)) /\
  List.length (progress_values s) <= loadedImages s /\
  (handlers_return (constructor o) t = true ->
   List.length (progress_values s) = loadedImages s).
Proof.
  intros R P.
  assert (G0 : reported (constructor o)).
  { split; [exact P|]. split; [cbn; lia | reflexivity]. }
  destruct (@run_reported _ t _ _ (constructor_consistent o) G0 R) as (_ & A & E).
  split; [exact E|]. split; [exact A|]. intros H.
  assert (G1 : reported_each (constructor o)) by (split; [exact P | reflexivity]).
  destruct (@run_reported_each _ t _ _ (constructor_consistent o) G1 R H) as (_ & L).
  exact L.
Qed.

Lemma callbacks_once_per_event_witness :
  let o := {| opt_images := Some ["a"; "b"]; opt_showUI := None |} in
  let t := [PreloadAll; Error 0; AddImages ["c"]; PreloadAll; Load 1; Error 0] in
  exists s,
    run (constructor o) t = Some s /\
    0 < totalImages (constructor o) /\
    loadedImages s = 3 /\ error_calls s = 2 /\
    List.length (progress_values s) <= loadedImages s.
Proof.
  intros o t. eexists. split; [vm_compute; reflexivity|].
  split; [cbn; lia|]. split; [reflexivity|]. split; [reflexivity|].
  refine (proj1 (proj2 (@callbacks_once_per_event _ o t _ _ _)));
    [vm_compute; reflexivity | cbn; lia].
Defined.

(** X20.  In a run in which no image at the URL [__proto__] has
    loaded, the cache inherits from [Object.prototype] and no exception
    has left an event handler: the cache write of [handleImageLoad] can
    throw only after such a load. *)
Theorem handlers_return_without_proto {web : Browser} o t s :
  run (constructor o) t = Some s ->
  ~ loaded_url s "__proto__" ->
  handlers_return (constructor o) t = true /\
  proto (imageCache s) = ObjectPrototype.
Proof.
  intros R NP.
  assert (P0 : proto_intact (constructor o)) by (left; reflexivity).
  exact (@run_returns_plain _ t _ _ R P0 NP).
Qed.

Lemma handlers_return_without_proto_witness :
  let o := {| opt_images := Some ["src"; "a"]; opt_showUI := None |} in
  let t := [PreloadAll; Load 1; Load 0] in
  exists s,
    run (constructor o) t = Some s /\
    ~ loaded_url s "__proto__" /\
    keys (imageCache s) = ["a"; "src"] /\
    handlers_return (constructor o) t = true.
Proof.
  intros o t. eexists. split; [vm_compute; reflexivity|].
  match goal with |- ~ loaded_url ?x _ /\ _ =>
    assert (NP : ~ loaded_url x "__proto__") end.
  { intros (i & I & S & L). cbn in I.
    destruct I as [I|[I|[]]]; subst i; cbn in S; discriminate. }
  split; [exact NP|]. split; [vm_compute; reflexivity|].
  refine (proj1 (@handlers_return_without_proto _ o t _ _ _));
    [vm_compute; reflexivity | exact NP].
Defined.
